(** * SuperPoint detector and SuperGlue ranking: a shallow embedding

    The development follows the two source files of the repository:

    - [img2superpoint.py]  : module [Detector] (non-maximum suppression,
      border removal, top-K selection, the [SuperPoint] constructor and its
      forward pass);
    - [superpoints2rank.py]: module [Matcher] (log-domain Sinkhorn
      normalisation, optimal transport, the mutual-match extraction of
      [SuperGlue.forward], and [ranking_score]).

    Tensors are nested lists in row-major order.  Detector scores are exact
    rationals ([Q]): the detector only compares, selects and copies them.
    Matcher scores are real numbers ([R]) because the transport step needs
    [exp] and [ln]; rounding of the float32 arithmetic is not modelled. *)

From Stdlib Require Import List Bool Arith ZArith QArith Qminmax Lia Lqa.
From Stdlib Require Import Reals Lra.
From Stdlib Require Import Permutation Sorted.
From Stdlib Require String.
Import String.StringSyntax.
Delimit Scope string_scope with string.
Import ListNotations.
Close Scope Q_scope.
Close Scope R_scope.
Local Open Scope nat_scope.

(** ** Nested-list tensors *)

Module Tensor.

Section Defs.
Context {A B C : Type}.

(** Elementwise combination of two equally long vectors (torch raises on a
    shape mismatch; every use below is on equal shapes). *)
Fixpoint map2 (f : A -> B -> C) (xs : list A) (ys : list B) : list C :=
  match xs, ys with
  | x :: xs', y :: ys' => f x y :: map2 f xs' ys'
  | _, _ => []
  end.
End Defs.

Definition gmap2 {A B C : Type} (f : A -> B -> C)
           (x : list (list A)) (y : list (list B)) : list (list C) :=
  map2 (map2 f) x y.

Section Grid.
Context {A : Type}.

Definition gmap {B : Type} (f : A -> B) (g : list (list A)) : list (list B) :=
  map (map f) g.

(** [g[i][j]], with a default outside the grid. *)
Definition get (d : A) (g : list (list A)) (i j : nat) : A :=
  nth j (nth i g []) d.

Definition at2 (g : list (list A)) (i j : nat) : option A :=
  match nth_error g i with
  | Some row => nth_error row j
  | None => None
  end.

Definition tabulate (h w : nat) (f : nat -> nat -> A) : list (list A) :=
  map (fun i => map (f i) (seq 0 w)) (seq 0 h).

Definition height (g : list (list A)) : nat := length g.
Definition width (g : list (list A)) : nat := length (hd [] g).

(** A grid of shape [h] x [w]. *)
Definition rect (h w : nat) (g : list (list A)) : Prop :=
  length g = h /\ Forall (fun row => length row = w) g.
End Grid.

End Tensor.

(** ** img2superpoint.py *)

Module Detector.
Import Tensor.
Local Open Scope Q_scope.

(** *** simple_nms *)

(** Indices [max 0 (i - r) .. i + r], the rows (or columns) a pooling window of
    radius [r] centred at [i] reaches; the part beyond the far edge is cut by
    the bounds check of [at2]. *)
Definition span (r i : nat) : list nat :=
  seq (i - r) (i + r + 1 - (i - r)).

(** The in-bounds values of the (2r+1) x (2r+1) window centred at (i, j).
    [max_pool2d] pads with minus infinity, so padded cells never win the
    maximum: they are left out. *)
Definition window (r : nat) (x : list (list Q)) (i j : nat) : list Q :=
  flat_map (fun a =>
    flat_map (fun b => match at2 x a b with Some v => [v] | None => [] end)
             (span r j))
    (span r i).

Definition maximum (l : list Q) : Q :=
  match l with
  | [] => 0
  | v :: t => fold_left Qmax t v
  end.

(** [max_pool2d(x, kernel_size=2r+1, stride=1, padding=r)]: same shape as [x]. *)
Definition max_pool (r : nat) (x : list (list Q)) : list (list Q) :=
  tabulate (height x) (width x) (fun i j => maximum (window r x i j)).

Definition zeros_like (x : list (list Q)) : list (list Q) := gmap (fun _ => 0) x.

(** [mask.float()] *)
Definition to_float (m : list (list bool)) : list (list Q) :=
  gmap (fun b : bool => if b then 1 else 0) m.

(** [torch.where(c, a, b)] *)
Definition where_ (c : list (list bool)) (a b : list (list Q)) : list (list Q) :=
  gmap2 (fun (ci : bool) (ab : Q * Q) => if ci then fst ab else snd ab)
        c (gmap2 pair a b).

Definition eq_mask (a b : list (list Q)) : list (list bool) := gmap2 Qeq_bool a b.
Definition gt_zero (a : list (list Q)) : list (list bool) :=
  gmap (fun v => negb (Qle_bool v 0)) a.

(** One round of the suppression loop (the body of [for _ in range(2)]). *)
Definition nms_round (r : nat) (scores zeros : list (list Q))
           (max_mask : list (list bool)) : list (list bool) :=
  let supp_mask := gt_zero (max_pool r (to_float max_mask)) in
  let supp_scores := where_ supp_mask zeros scores in
  let new_max_mask := eq_mask supp_scores (max_pool r supp_scores) in
  gmap2 orb max_mask (gmap2 andb new_max_mask (gmap negb supp_mask)).

(** The body of [simple_nms] after its assertion, for a radius known to be
    non-negative; the loop [for _ in range(2)] is unrolled. *)
Definition nms_body (scores : list (list Q)) (r : nat) : list (list Q) :=
  let zeros := zeros_like scores in
  let max_mask := eq_mask scores (max_pool r scores) in
  let max_mask := nms_round r scores zeros max_mask in
  let max_mask := nms_round r scores zeros max_mask in
  where_ max_mask scores zeros.

(** [simple_nms(scores, nms_radius)]: [None] is the [AssertionError] of
    [assert(nms_radius >= 0)]. *)
Definition simple_nms (scores : list (list Q)) (nms_radius : Z)
  : option (list (list Q)) :=
  if (nms_radius <? 0)%Z then None
  else Some (nms_body scores (Z.to_nat nms_radius)).

(** Vocabulary for the facts about [simple_nms]: [a] is within distance [r]
    of [i]; *)
Definition near (r i a : nat) : Prop := (i <= a + r /\ a <= i + r)%nat.

(** the mask [simple_nms] ends with; *)
Definition final_mask (r : nat) (s : list (list Q)) : list (list bool) :=
  nms_round r s (zeros_like s)
    (nms_round r s (zeros_like s) (eq_mask s (max_pool r s))).

(** and the invariant of the suppression loop: two marked cells that lie in
    each other's window never disagree on which is larger (the second is at
    most the first). *)
Definition compatible (r h w : nat) (s : list (list Q)) (m : list (list bool))
  : Prop :=
  forall i j a b, (i < h)%nat -> (j < w)%nat -> (a < h)%nat -> (b < w)%nat ->
    near r i a -> near r j b ->
    get false m i j = true -> get false m a b = true ->
    get 0 s a b <= get 0 s i j.

(** *** remove_borders *)

(** [xs[mask]] for a boolean mask: [None] is the [IndexError] torch raises
    when the mask and the indexed tensor differ in length. *)
Definition mask_select {A : Type} (mask : list bool) (xs : list A) : option (list A) :=
  if length mask =? length xs
  then Some (map snd (filter fst (combine mask xs)))
  else None.

(** A keypoint as [torch.nonzero] yields it: (row, column). *)
Definition keypoint : Type := (Z * Z)%type.

Definition remove_borders (keypoints : list keypoint) (scores : list Q)
           (border height width : Z) : option (list keypoint * list Q) :=
  let mask_h := map (fun k => (fst k >=? border)%Z && (fst k <? height - border)%Z)
                    keypoints in
  let mask_w := map (fun k => (snd k >=? border)%Z && (snd k <? width - border)%Z)
                    keypoints in
  let mask := map2 andb mask_h mask_w in
  match mask_select mask keypoints, mask_select mask scores with
  | Some k, Some s => Some (k, s)
  | _, _ => None
  end.

(** The range test of border removal as the specification words it: x is the
    column (index 1), y the row (index 0). *)
Definition inside (border height width : Z) (k : keypoint) : bool :=
  ((border <=? snd k) && (snd k <? width - border)
   && ((border <=? fst k) && (fst k <? height - border)))%Z.

(** *** top_k_keypoints *)

(** Descending insertion on (index, score) pairs; among equal scores the
    lower index comes first (torch leaves the order of ties open). *)
Fixpoint insert_desc (x : nat * Q) (l : list (nat * Q)) : list (nat * Q) :=
  match l with
  | [] => [x]
  | y :: t => if Qle_bool (snd y) (snd x) then x :: y :: t
              else y :: insert_desc x t
  end.

Definition sort_desc (l : list (nat * Q)) : list (nat * Q) :=
  fold_right insert_desc [] l.

(** [torch.topk(scores, k, dim=0)]: the [k] largest scores in descending
    order and their indices; [None] is the error for [k] out of range. *)
Definition topk (scores : list Q) (k : Z) : option (list Q * list nat) :=
  if ((k <? 0) || (Z.of_nat (length scores) <? k))%Z then None
  else
    let best := firstn (Z.to_nat k)
                       (sort_desc (combine (seq 0 (length scores)) scores)) in
    Some (map snd best, map fst best).

(** [xs[indices]]: [None] is the [IndexError] of an index out of range. *)
Fixpoint index_select {A : Type} (xs : list A) (indices : list nat)
  : option (list A) :=
  match indices with
  | [] => Some []
  | i :: t =>
      match nth_error xs i, index_select xs t with
      | Some x, Some r => Some (x :: r)
      | _, _ => None
      end
  end.

Definition top_k_keypoints (keypoints : list keypoint) (scores : list Q) (k : Z)
  : option (list keypoint * list Q) :=
  if (k >=? Z.of_nat (length keypoints))%Z then Some (keypoints, scores)
  else
    match topk scores k with
    | Some (scores', indices) =>
        match index_select keypoints indices with
        | Some kp => Some (kp, scores')
        | None => None
        end
    | None => None
    end.

(** *** The SuperPoint module *)

(** The merged configuration ([{**default_config, **config}]). *)
Record config : Type := {
  descriptor_dim : Z;
  nms_radius : Z;
  keypoint_threshold : Q;
  max_keypoints : Z;
  remove_borders_cfg : Z
}.

(** The dictionary handed to the constructor: any key may be absent. *)
Record user_config : Type := {
  u_descriptor_dim : option Z;
  u_nms_radius : option Z;
  u_keypoint_threshold : option Q;
  u_max_keypoints : option Z;
  u_remove_borders : option Z
}.

Definition default_config : config := {|
  descriptor_dim := 256;
  nms_radius := 4;
  keypoint_threshold := 5 # 1000;
  max_keypoints := -1;
  remove_borders_cfg := 4
|}.

Definition empty_config : user_config :=
  {| u_descriptor_dim := None; u_nms_radius := None;
     u_keypoint_threshold := None; u_max_keypoints := None;
     u_remove_borders := None |}.

Definition or_default {A : Type} (o : option A) (d : A) : A :=
  match o with Some v => v | None => d end.

Definition merge_config (c : user_config) : config := {|
  descriptor_dim := or_default (u_descriptor_dim c) (descriptor_dim default_config);
  nms_radius := or_default (u_nms_radius c) (nms_radius default_config);
  keypoint_threshold :=
    or_default (u_keypoint_threshold c) (keypoint_threshold default_config);
  max_keypoints := or_default (u_max_keypoints c) (max_keypoints default_config);
  remove_borders_cfg :=
    or_default (u_remove_borders c) (remove_borders_cfg default_config)
|}.

Inductive error : Type :=
| WeightsError       (* torch.load / load_state_dict raised *)
| MaxKeypointsError. (* ValueError: "max_keypoints" must be positive or "-1" *)

Inductive result (A : Type) : Type :=
| Ok (a : A)
| Raise (e : error).
Arguments Ok {A} a.
Arguments Raise {A} e.

(** The detection result of a batch: one entry per image. *)
Record detection : Type := {
  keypoints : list (list (Q * Q));
  scores : list (list Q);
  descriptors : list (list (list Q))
}.

(** [torch.nonzero] of a 2-D mask: the (row, column) pairs of the true cells
    in row-major order. *)
Definition nonzero (m : list (list bool)) : list keypoint :=
  flat_map (fun ir : nat * list bool =>
    flat_map (fun jb : nat * bool =>
                if snd jb then [(Z.of_nat (fst ir), Z.of_nat (fst jb))] else [])
             (combine (seq 0 (length (snd ir))) (snd ir)))
    (combine (seq 0 (length m)) m).

(** [s[tuple(k.t())]]: the scores at the keypoints. *)
Definition gather_scores (s : list (list Q)) (k : list keypoint) : list Q :=
  map (fun p => get 0 s (Z.to_nat (fst p)) (Z.to_nat (snd p))) k.

(** The two [permute]/[reshape] pairs of the forward pass on one image:
    channel [dy * 8 + dx] of cell (y, x) becomes pixel (8 y + dy, 8 x + dx).
    [None] is the error [reshape] raises unless there are 64 channels. *)
Definition depth_to_space (p : list (list (list Q))) (h w : nat)
  : option (list (list Q)) :=
  if length p =? 64 then
    Some (tabulate (h * 8) (w * 8) (fun i j =>
            get 0 (nth ((i mod 8) * 8 + j mod 8) p []) (i / 8) (j / 8)))
  else None.

Fixpoint sequence {A : Type} (l : list (option A)) : option (list A) :=
  match l with
  | [] => Some []
  | o :: t =>
      match o, sequence t with
      | Some x, Some r => Some (x :: r)
      | _, _ => None
      end
  end.

(** The keypoints of one image that reach the top-K step, with their scores:
    what suppression with radius 4, the threshold 0.005 and the border 4
    leave of the image's 65 x h x w probability tensor [p]. *)
Definition candidates (p : list (list (list Q))) : list (keypoint * Q) :=
  let p := removelast p in
  let h := length (hd [] p) in
  let w := length (hd [] (hd [] p)) in
  match depth_to_space p h w with
  | None => []
  | Some s =>
      let s := nms_body s 4 in
      let k := nonzero (gmap (fun v => negb (Qle_bool v (5 # 1000))) s) in
      filter (fun ks => inside 4 (Z.of_nat h * 8) (Z.of_nat w * 8) (fst ks))
             (combine k (gather_scores s k))
  end.

Section Network.
(** The pretrained parameters and the layers of torch are not part of the
    repository's sources; they enter as parameters:
    - [load_state_dict d]: building the layers for descriptor dimension [d]
      and loading [weights/superpoint_v1.pth] ([None]: it raised);
    - [keypoint_probs]: lines 111-126 up to the softmax, a tensor of shape
      b x 65 x h x w;
    - [dense_descriptors]: lines 150-152, a tensor of shape b x D x h x w;
    - [grid_sample], [normalize]: the two torch functions of
      [sample_descriptors]. *)
Variables (weights image : Type).
Variable load_state_dict : Z -> option weights.
Variable keypoint_probs : weights -> image -> list (list (list (list Q))).
Variable dense_descriptors : weights -> image -> list (list (list (list Q))).
Variable grid_sample : list (list (list Q)) -> list (Q * Q) -> list (list Q).
Variable normalize : list (list Q) -> list (list Q).

Record SuperPoint : Type := {
  sp_config : config;
  sp_weights : weights
}.

(** [SuperPoint.__init__] *)
Definition init (cfg : user_config) : result SuperPoint :=
  let config := merge_config cfg in
  match load_state_dict (descriptor_dim config) with
  | None => Raise WeightsError
  | Some wts =>
      let mk := max_keypoints config in
      if ((mk =? 0) || (mk <? -1))%Z then Raise MaxKeypointsError
      else Ok {| sp_config := config; sp_weights := wts |}
  end.

(** [sample_descriptors(keypoints, descriptors, s)] on a batch of one. *)
Definition sample_descriptors (kpts : list (Q * Q))
           (desc : list (list (list Q))) (s : Z) : list (list Q) :=
  let h := Z.of_nat (length (hd [] desc)) in
  let w := Z.of_nat (length (hd [] (hd [] desc))) in
  let sq := inject_Z s in
  let shift (v : Q) := v - sq / 2 + (1 # 2) in
  let kpts := map (fun k => (shift (fst k), shift (snd k))) kpts in
  let kpts := map (fun k =>
                (fst k / (inject_Z w * sq - sq / 2 - (1 # 2)),
                 snd k / (inject_Z h * sq - sq / 2 - (1 # 2)))) kpts in
  let kpts := map (fun k => (fst k * 2 - 1, snd k * 2 - 1)) kpts in
  normalize (grid_sample desc kpts).

(** The keypoint branch of [forward] for one image of the batch
    (lines 126-147): [p] is the image's 65 x h x w probability tensor. *)
Definition select_keypoints (p : list (list (list Q)))
  : option (list (Q * Q) * list Q) :=
  let p := removelast p in
  let h := length (hd [] p) in
  let w := length (hd [] (hd [] p)) in
  match depth_to_space p h w with
  | None => None
  | Some s =>
      match simple_nms s 4 with
      | None => None
      | Some s =>
          let k := nonzero (gmap (fun v => negb (Qle_bool v (5 # 1000))) s) in
          let sc := gather_scores s k in
          match remove_borders k sc 4 (Z.of_nat h * 8) (Z.of_nat w * 8) with
          | None => None
          | Some (k, sc) =>
              match top_k_keypoints k sc 1024 with
              | None => None
              | Some (k, sc) =>
                  Some (map (fun q => (inject_Z (snd q), inject_Z (fst q))) k, sc)
              end
          end
      end
  end.

(** [SuperPoint.forward]: [None] stands for an exception (unpacking the
    zipped per-image results of an empty batch, or a shape error). *)
Definition forward (self : SuperPoint) (data : image) : option detection :=
  match sequence (map select_keypoints (keypoint_probs (sp_weights self) data)) with
  | None | Some [] => None
  | Some ks =>
      let kp := map fst ks in
      Some {| keypoints := kp;
              scores := map snd ks;
              descriptors :=
                map2 (fun k d => sample_descriptors k d 8)
                     kp (dense_descriptors (sp_weights self) data) |}
  end.
End Network.

Arguments sp_config {weights} _.
Arguments sp_weights {weights} _.
Arguments Build_SuperPoint {weights} _ _.

(** *** A concrete instance

    A network answer for one 16 x 16 image (2 x 2 cells): every cell spreads
    probability 1/256 over its 64 positions, except that cell (0, 0) puts 1/2
    on channel 36 (pixel (4, 4)) and cell (1, 1) puts 1/2 on channel 27
    (pixel (11, 11)); channel 64, the "no keypoint" class, takes the rest, so
    the 65 probabilities of a cell sum to 1.  The dense descriptor field is
    constant (channel 0 is 1, the other 255 channels are 0), so bilinear
    sampling returns the field's value and the vectors are already of unit
    length. *)
Definition toy_prob (c y x : nat) : Q :=
  let peak := ((c =? 36) && (y =? 0) && (x =? 0)) || ((c =? 27) && (y =? 1) && (x =? 1)) in
  let has_peak := ((y =? 0) && (x =? 0)) || ((y =? 1) && (x =? 1)) in
  if c =? 64 then (if has_peak then 65 # 256 else 3 # 4)
  else if peak then 1 # 2 else 1 # 256.

Definition toy_probs : list (list (list (list Q))) :=
  [map (fun c => tabulate 2 2 (toy_prob c)) (seq 0 65)].

Definition toy_dense : list (list (list (list Q))) :=
  [tabulate 2 2 (fun _ _ => 1) :: repeat (tabulate 2 2 (fun _ _ => 0)) 255].

Definition toy_grid_sample (desc : list (list (list Q))) (k : list (Q * Q))
  : list (list Q) :=
  map (fun ch => map (fun _ => get 0 ch 0 0) k) desc.

Definition toy_normalize (d : list (list Q)) : list (list Q) := d.

Definition toy_load (d : Z) : option unit :=
  if (d =? 256)%Z then Some tt else None.

Definition toy_init : user_config -> result (SuperPoint unit) :=
  init unit toy_load.

Definition toy_forward : SuperPoint unit -> unit -> option detection :=
  forward unit unit (fun _ _ => toy_probs) (fun _ _ => toy_dense)
          toy_grid_sample toy_normalize.

(** A second answer of the network, for a 48 x 48 image (6 x 6 cells) without
    structure: every cell spreads probability 1/100 over each of its 64
    positions and keeps 36/100 for "no keypoint".  All 2304 scores tie, so
    suppression keeps them all, and 40 x 40 = 1600 of them lie inside the
    border. *)
Definition plateau_probs : list (list (list (list Q))) :=
  [map (fun c => tabulate 6 6 (fun _ _ => if c =? 64 then 36 # 100 else 1 # 100))
       (seq 0 65)].

Definition plateau_dense : list (list (list (list Q))) :=
  [tabulate 6 6 (fun _ _ => 1) :: repeat (tabulate 6 6 (fun _ _ => 0)) 255].

Definition plateau_forward : SuperPoint unit -> unit -> option detection :=
  forward unit unit (fun _ _ => plateau_probs) (fun _ _ => plateau_dense)
          toy_grid_sample toy_normalize.

Definition cfg_max_one : user_config :=
  {| u_descriptor_dim := None; u_nms_radius := None;
     u_keypoint_threshold := None; u_max_keypoints := Some 1%Z;
     u_remove_borders := None |}.

Definition cfg_max_minus_two : user_config :=
  {| u_descriptor_dim := None; u_nms_radius := None;
     u_keypoint_threshold := None; u_max_keypoints := Some (-2)%Z;
     u_remove_borders := None |}.

Definition toy_module (cfg : user_config) : SuperPoint unit :=
  {| sp_config := merge_config cfg; sp_weights := tt |}.

(** *** Further concrete inputs *)

Definition peaks_3x3 : list (list Q) := [[1; 2; 3]; [0; 5; 1]; [3 # 2; 0; 7]].

Definition ridge_1x4 : list (list Q) := [[2; 2; 1; 2]].

(** The order of [sort_desc]: a later element has at most the score of an
    earlier one. *)
Definition score_ge (a b : nat * Q) : Prop := snd b <= snd a.

(** The number of cell rows and cell columns of an image's probability
    tensor ([h] and [w] of the forward pass). *)
Definition cells_h (p : list (list (list Q))) : nat := length (hd [] (removelast p)).
Definition cells_w (p : list (list (list Q))) : nat :=
  length (hd [] (hd [] (removelast p))).

(** What the forward pass guarantees for one returned keypoint (x, y) with
    score [v] of an image with probability tensor [p]: the coordinates are a
    pixel column [j] and a pixel row [i] at least 4 pixels from every edge,
    and the score exceeds the threshold and is the probability the network
    gave to that pixel (channel [(i mod 8) * 8 + j mod 8] of cell
    (i / 8, j / 8)). *)
Definition reported_ok (p : list (list (list Q))) (xy : Q * Q) (v : Q) : Prop :=
  exists i j : nat,
    fst xy = inject_Z (Z.of_nat j) /\ snd xy = inject_Z (Z.of_nat i)
    /\ (4 <= j /\ j + 4 < cells_w p * 8)%nat
    /\ (4 <= i /\ i + 4 < cells_h p * 8)%nat
    /\ 5 # 1000 < v
    /\ v = get 0 (nth ((i mod 8) * 8 + j mod 8) p []) (i / 8) (j / 8).

(** The grid coordinates [sample_descriptors] hands to [grid_sample]: pixel
    coordinate [v] along an axis of [n] cells of stride [s], after the three
    assignments to [keypoints]. *)
Definition grid_coord (v : Q) (n s : Z) : Q :=
  (v - inject_Z s / 2 + (1 # 2))
  / (inject_Z n * inject_Z s - inject_Z s / 2 - (1 # 2)) * 2 - 1.

Definition desc_h (desc : list (list (list Q))) : Z := Z.of_nat (length (hd [] desc)).
Definition desc_w (desc : list (list (list Q))) : Z :=
  Z.of_nat (length (hd [] (hd [] desc))).

Definition grid_coords (kpts : list (Q * Q)) (desc : list (list (list Q))) (s : Z)
  : list (Q * Q) :=
  map (fun k => (grid_coord (fst k) (desc_w desc) s,
                 grid_coord (snd k) (desc_h desc) s)) kpts.

(** A keypoint on the pixel grid of a descriptor field of stride [s]: from
    the centre of the first cell to the last pixel, along both axes. *)
Definition on_pixel_grid (desc : list (list (list Q))) (s : Z) (k : Q * Q) : Prop :=
  (inject_Z s / 2 - (1 # 2) <= fst k /\ fst k <= inject_Z (desc_w desc) * inject_Z s - 1)
  /\ (inject_Z s / 2 - (1 # 2) <= snd k /\ snd k <= inject_Z (desc_h desc) * inject_Z s - 1).

Definition in_unit_square (g : Q * Q) : Prop :=
  (-1 <= fst g /\ fst g <= 1) /\ (-1 <= snd g /\ snd g <= 1).

(** One entry of the result of the forward pass: the candidate at (row,
    column) is reported as the point (x, y) = (column, row), with its
    score. *)
Definition report (c : keypoint * Q) : (Q * Q) * Q :=
  ((inject_Z (snd (fst c)), inject_Z (fst (fst c))), snd c).

(** [out] is the list of candidates [cands] cut to its [k] best: it reports
    the candidates at the positions [idx], all different, [k] of them or all
    if there are fewer; if there are at most [k] candidates these are all of
    them in their order, and no candidate left out has a larger score than
    one that is reported. *)
Definition cut_to_best (k : nat) (cands : list (keypoint * Q))
           (out : list ((Q * Q) * Q)) : Prop :=
  exists idx : list nat,
    out = map (fun i => report (nth i cands ((0, 0)%Z, 0))) idx
    /\ NoDup idx
    /\ Forall (fun i => (i < length cands)%nat) idx
    /\ length idx = Nat.min k (length cands)
    /\ ((length cands <= k)%nat -> idx = seq 0 (length cands))
    /\ forall i j, (i < length cands)%nat -> ~ In i idx -> In j idx ->
         snd (nth i cands ((0, 0)%Z, 0)) <= snd (nth j cands ((0, 0)%Z, 0)).

End Detector.

(** ** superpoints2rank.py *)

Module Matcher.
Import Tensor.
Local Open Scope R_scope.

Definition sum (l : list R) : R := fold_right Rplus 0 l.

(** [torch.logsumexp] along one dimension. *)
Definition logsumexp (l : list R) : R := ln (sum (map exp l)).

(** *** log_sinkhorn_iterations *)

(** [log_mu - logsumexp(Z + v.unsqueeze(1), dim=2)]: one entry per row. *)
Definition update_u (Z : list (list R)) (log_mu v : list R) : list R :=
  map2 (fun lm row => lm - logsumexp (map2 Rplus row v)) log_mu Z.

(** [log_nu - logsumexp(Z + u.unsqueeze(2), dim=1)]: one entry per column. *)
Definition update_v (Z : list (list R)) (log_nu u : list R) : list R :=
  map2 (fun ln j => ln - logsumexp (map2 (fun row ui => nth j row 0 + ui) Z u))
       log_nu (seq 0 (length log_nu)).

(** The loop [for _ in range(iters)] on the pair (u, v). *)
Fixpoint sinkhorn_loop (Z : list (list R)) (log_mu log_nu : list R)
         (iters : nat) (u v : list R) : list R * list R :=
  match iters with
  | O => (u, v)
  | S n =>
      let u := update_u Z log_mu v in
      let v := update_v Z log_nu u in
      sinkhorn_loop Z log_mu log_nu n u v
  end.

Definition log_sinkhorn_iterations (Z : list (list R)) (log_mu log_nu : list R)
           (iters : BinNums.Z) : list (list R) :=
  let uv := sinkhorn_loop Z log_mu log_nu (Z.to_nat iters)
                          (map (fun _ => 0) log_mu) (map (fun _ => 0) log_nu) in
  map2 (fun row ui => map2 (fun z vj => z + ui + vj) row (snd uv)) Z (fst uv).

(** *** log_optimal_transport *)

(** [scores] is m x n; the result is (m+1) x (n+1). *)
Definition log_optimal_transport (scores : list (list R)) (alpha : R) (iters : Z)
  : list (list R) :=
  let m := height scores in
  let n := width scores in
  let ms := INR m in
  let ns := INR n in
  let couplings :=
    map (fun row => row ++ [alpha]) scores ++ [repeat alpha n ++ [alpha]] in
  let norm := - ln (ms + ns) in
  let log_mu := repeat norm m ++ [ln ns + norm] in
  let log_nu := repeat norm n ++ [ln ms + norm] in
  let Z := log_sinkhorn_iterations couplings log_mu log_nu iters in
  gmap (fun z => z - norm) Z.

(** *** SuperGlue.forward *)

(** [t.max(dim)] along one row: the maximum and the index of its first
    occurrence. *)
Fixpoint max_from (l : list R) (i : nat) (best : R) (bi : nat) : R * nat :=
  match l with
  | [] => (best, bi)
  | x :: t => if Rlt_dec best x then max_from t (S i) x i
              else max_from t (S i) best bi
  end.

Definition max_with_index (l : list R) : R * nat :=
  match l with
  | [] => (0, O)
  | x :: t => max_from t 1 x 0
  end.

Definition column (j : nat) (g : list (list R)) : list R :=
  map (fun row => nth j row 0) g.

Definition gtb (x y : R) : bool := if Rlt_dec y x then true else false.

Record prediction : Type := {
  matches0 : list Z;
  matches1 : list Z;
  matching_scores0 : list R;
  matching_scores1 : list R
}.

(** Lines 199-217: the mutual matches above [match_threshold] read off the
    transport scores. *)
Definition mutual_matches (scores : list (list R)) (match_threshold : R)
  : prediction :=
  let inner := map (@removelast R) (removelast scores) in
  let max0 := map max_with_index inner in
  let max1 := map (fun j => max_with_index (column j inner))
                  (seq 0 (width inner)) in
  let indices0 := map snd max0 in
  let indices1 := map snd max1 in
  let mutual0 := map2 (fun i i0 => Nat.eqb i (nth i0 indices1 O))
                      (seq 0 (length indices0)) indices0 in
  let mutual1 := map2 (fun j j1 => Nat.eqb j (nth j1 indices0 O))
                      (seq 0 (length indices1)) indices1 in
  let mscores0 := map2 (fun (mu : bool) mx => if mu then exp (fst mx) else 0)
                       mutual0 max0 in
  let mscores1 := map2 (fun (mu : bool) j1 => if mu then nth j1 mscores0 0 else 0)
                       mutual1 indices1 in
  let valid0 := map2 (fun mu s => mu && gtb s match_threshold) mutual0 mscores0 in
  let valid1 := map2 (fun mu j1 => mu && nth j1 valid0 false) mutual1 indices1 in
  {| matches0 := map2 (fun (v : bool) i => if v then Z.of_nat i else (-1)%Z)
                      valid0 indices0;
     matches1 := map2 (fun (v : bool) j => if v then Z.of_nat j else (-1)%Z)
                      valid1 indices1;
     matching_scores0 := mscores0;
     matching_scores1 := mscores1 |}.

(** The entries of the merged configuration that the forward pass reads. *)
Record config : Type := {
  descriptor_dim : Z;
  sinkhorn_iterations : Z;
  match_threshold : R
}.

(** The input dictionary, for one element of the batch (the ranking loop
    stacks one detection result per image, so the batch holds one).  The
    descriptors are D x N, one column per keypoint. *)
Record data : Type := {
  image0_shape : list Z;
  image1_shape : list Z;
  keypoints0 : list (R * R);
  keypoints1 : list (R * R);
  descriptors0 : list (list R);
  descriptors1 : list (list R);
  scores0 : list R;
  scores1 : list R
}.

(** What lines 176-188 hand on: the projected descriptor of keypoint [i] of
    either image (column [i] of [final_proj(desc)]).  Every layer on the way
    acts along the keypoint dimension, so there is one column per
    keypoint. *)
Record embedding : Type := {
  mdesc0 : nat -> list R;
  mdesc1 : nat -> list R
}.

Definition dot (a b : list R) : R := sum (map2 Rmult a b).

Section Network.
(** The encoder, the attentional network and the final projection depend
    on the pretrained weights and on torch's layers; they enter as the
    parameter [gnn] ([None]: the network raised, for instance on
    descriptors of the wrong shape). *)
Variable gnn : data -> option embedding.

Record SuperGlue : Type := {
  sg_config : config;
  bin_score : R
}.

Definition forward (self : SuperGlue) (d : data) : option prediction :=
  let n0 := length (keypoints0 d) in
  let n1 := length (keypoints1 d) in
  if (n0 =? 0)%nat || (n1 =? 0)%nat then
    Some {| matches0 := repeat (-1)%Z n0;
            matches1 := repeat (-1)%Z n1;
            matching_scores0 := repeat 0 n0;
            matching_scores1 := repeat 0 n1 |}
  else
    match gnn d with
    | None => None
    | Some e =>
        let scores := tabulate n0 n1 (fun i j =>
                        dot (mdesc0 e i) (mdesc1 e j)
                        / sqrt (IZR (descriptor_dim (sg_config self)))) in
        let scores := log_optimal_transport scores (bin_score self)
                        (sinkhorn_iterations (sg_config self)) in
        Some (mutual_matches scores (match_threshold (sg_config self)))
    end.
End Network.

(** The similarity matrix of lines 191-192 and the transport scores of lines
    195-197, as [forward] computes them. *)
Definition similarity (self : SuperGlue) (d : data) (e : embedding)
  : list (list R) :=
  tabulate (length (keypoints0 d)) (length (keypoints1 d)) (fun i j =>
    dot (mdesc0 e i) (mdesc1 e j) / sqrt (IZR (descriptor_dim (sg_config self)))).

Definition transport (self : SuperGlue) (d : data) (e : embedding)
  : list (list R) :=
  log_optimal_transport (similarity self d e) (bin_score self)
                        (sinkhorn_iterations (sg_config self)).

(** The intermediate tensors of [mutual_matches] read position by position:
    the inner block, the row maximum [max0.values], the index maps
    [indices0] and [indices1], and the masks and scores built from them. *)
Definition inner (sc : list (list R)) : list (list R) :=
  map (@removelast R) (removelast sc).
Definition val0 (sc : list (list R)) (i : nat) : R :=
  fst (max_with_index (nth i (inner sc) [])).
Definition idx0 (sc : list (list R)) (i : nat) : nat :=
  snd (max_with_index (nth i (inner sc) [])).
Definition idx1 (sc : list (list R)) (j : nat) : nat :=
  snd (max_with_index (column j (inner sc))).
Definition mut0 (sc : list (list R)) (i : nat) : bool :=
  Nat.eqb i (idx1 sc (idx0 sc i)).
Definition mut1 (sc : list (list R)) (j : nat) : bool :=
  Nat.eqb j (idx0 sc (idx1 sc j)).
Definition msc0 (sc : list (list R)) (i : nat) : R :=
  if mut0 sc i then exp (val0 sc i) else 0.
Definition msc1 (sc : list (list R)) (j : nat) : R :=
  if mut1 sc j then msc0 sc (idx1 sc j) else 0.
Definition vld0 (sc : list (list R)) (thr : R) (i : nat) : bool :=
  mut0 sc i && gtb (msc0 sc i) thr.
Definition vld1 (sc : list (list R)) (thr : R) (j : nat) : bool :=
  mut1 sc j && vld0 sc thr (idx1 sc j).

(** *** ranking_score *)

(** [np.sum(np.multiply(matches, match_confidence))] on two arrays of one
    length. *)
Definition ranking_score (matches : list Z) (match_confidence : list R) : R :=
  sum (map2 (fun m c => IZR m * c) matches match_confidence).

(** The reading of the score in the specification: the confidences of the
    valid matches, added up. *)
Definition valid_confidence_sum (matches : list Z) (match_confidence : list R) : R :=
  sum (map2 (fun (m : Z) c => if (m =? -1)%Z then 0 else c)
            matches match_confidence).

(** The two parts of what [ranking_score] adds up. *)
Definition index_weighted_sum (matches : list Z) (match_confidence : list R) : R :=
  sum (map2 (fun (m : Z) c => if (m =? -1)%Z then 0 else IZR m * c)
            matches match_confidence).

Definition unmatched_confidence_sum (matches : list Z) (match_confidence : list R)
  : R :=
  sum (map2 (fun (m : Z) c => if (m =? -1)%Z then c else 0)
            matches match_confidence).

(** *** A concrete instance

    One keypoint against five, with the configuration of the ranking loop
    (20 Sinkhorn iterations, threshold 0.2) and the dustbin score at the
    value 1 the constructor gives it.  The network answers with projected
    descriptors whose scaled dot products all equal the dustbin score, so
    the transport plan is uniform. *)
Definition flat_embedding : embedding :=
  {| mdesc0 := fun _ => 16 :: repeat 0 255;
     mdesc1 := fun _ => 1 :: repeat 0 255 |}.

Definition flat_gnn (d : data) : option embedding := Some flat_embedding.

Definition failing_gnn (d : data) : option embedding := None.

Definition flat_data : data :=
  {| image0_shape := [1; 1; 1000; 1000]%Z;
     image1_shape := [1; 1; 1000; 1000]%Z;
     keypoints0 := [(10, 10)];
     keypoints1 := [(10, 10); (20, 10); (30, 10); (40, 10); (50, 10)];
     descriptors0 := [1] :: repeat [0] 255;
     descriptors1 := repeat 1 5 :: repeat (repeat 0 5) 255;
     scores0 := [/ 2];
     scores1 := [/ 2; / 2; / 2; / 2; / 2] |}.

Definition empty_data : data :=
  {| image0_shape := [1; 1; 1000; 1000]%Z;
     image1_shape := [1; 1; 1000; 1000]%Z;
     keypoints0 := [];
     keypoints1 := keypoints1 flat_data;
     descriptors0 := repeat [] 256;
     descriptors1 := descriptors1 flat_data;
     scores0 := [];
     scores1 := scores1 flat_data |}.

Definition ranking_module : SuperGlue :=
  {| sg_config := {| descriptor_dim := 256;
                     sinkhorn_iterations := 20;
                     match_threshold := 2 / 10 |};
     bin_score := 1 |}.

(** *** MLP *)

Inductive layer : Type :=
| Conv1d (c_in c_out : Z)   (* kernel_size=1, bias=True *)
| BatchNorm1d (c : Z)
| ReLU.

(** The loop of [MLP] from position [i] on: [prev] is [channels[i - 1]] and
    [rest] is [channels[i:]]; the test [i < n - 1] is the test that channels
    remain after [channels[i]]. *)
Fixpoint MLP_from (prev : Z) (rest : list Z) (do_bn : bool) : list layer :=
  match rest with
  | [] => []
  | c :: t =>
      Conv1d prev c
      :: match t with
         | [] => []
         | _ :: _ => (if do_bn then [BatchNorm1d c] else []) ++ [ReLU]
         end
      ++ MLP_from c t do_bn
  end.

(** [MLP(channels, do_bn)]: the layers of the [nn.Sequential]. *)
Definition MLP (channels : list Z) (do_bn : bool) : list layer :=
  match channels with
  | [] => []
  | c0 :: rest => MLP_from c0 rest do_bn
  end.

(** The encoder of [KeypointEncoder] and the [mlp] of
    [AttentionalPropagation]. *)
Definition KeypointEncoder_encoder (feature_dim : Z) (layers : list Z) : list layer :=
  MLP ([3%Z] ++ layers ++ [feature_dim]) true.

Definition AttentionalPropagation_mlp (feature_dim : Z) : list layer :=
  MLP [feature_dim * 2; feature_dim * 2; feature_dim]%Z true.

(** The number of channels a stack of layers puts out when fed [c_in]
    channels; [None] if a layer is fed a number of channels it was not built
    for. *)
Fixpoint channels_out (c_in : Z) (layers : list layer) : option Z :=
  match layers with
  | [] => Some c_in
  | Conv1d a b :: t => if (a =? c_in)%Z then channels_out b t else None
  | BatchNorm1d c :: t => if (c =? c_in)%Z then channels_out c_in t else None
  | ReLU :: t => channels_out c_in t
  end.

(** *** normalize_keypoints *)

(** [None] is the [ValueError] of unpacking an [image_shape] that has not
    four entries. *)
Definition normalize_keypoints (kpts : list (R * R)) (image_shape : list Z)
  : option (list (R * R)) :=
  match image_shape with
  | [_; _; height; width] =>
      let size := (IZR width, IZR height) in
      let center := (fst size / 2, snd size / 2) in
      let scaling := Rmax (fst size) (snd size) * (7 / 10) in
      Some (map (fun k => ((fst k - fst center) / scaling,
                           (snd k - snd center) / scaling)) kpts)
  | _ => None
  end.

(** *** AttentionalGNN.forward *)

Section GNN.
(** Descriptor tensors are kept abstract, with their addition; a layer is the
    forward function of an [AttentionalPropagation], from [x] and [source]
    to the update. *)
Variable tensor : Type.
Variable add : tensor -> tensor -> tensor.

Fixpoint AttentionalGNN_loop (pairs : list ((tensor -> tensor -> tensor) * String.string))
         (desc0 desc1 : tensor) : tensor * tensor :=
  match pairs with
  | [] => (desc0, desc1)
  | (layer, name) :: t =>
      let src := if String.eqb name "cross"%string
                 then (desc1, desc0) else (desc0, desc1) in
      let delta0 := layer desc0 (fst src) in
      let delta1 := layer desc1 (snd src) in
      AttentionalGNN_loop t (add desc0 delta0) (add desc1 delta1)
  end.

Definition AttentionalGNN_forward (layers : list (tensor -> tensor -> tensor))
           (names : list String.string) (desc0 desc1 : tensor) : tensor * tensor :=
  AttentionalGNN_loop (combine layers names) desc0 desc1.
End GNN.

(** *** arange_like *)

(** [cumsum(0)] with the running sum [acc] so far. *)
Fixpoint cumsum_from (acc : Z) (l : list Z) : list Z :=
  match l with
  | [] => []
  | x :: t => (acc + x)%Z :: cumsum_from (acc + x)%Z t
  end.

(** [x.new_ones(x.shape[dim]).cumsum(0) - 1], for [x] given along [dim]. *)
Definition arange_like {A : Type} (x : list A) : list Z :=
  map (fun v => (v - 1)%Z) (cumsum_from 0 (map (fun _ => 1%Z) x)).

(** *** The ranking table of process_superpoints *)

Section Ranking.
Variable key : Type.

(** [sorted(items, reverse=True, key=score)] is stable: among equal scores
    the earlier item stays first. *)
Fixpoint insert_by_score (x : key * R) (l : list (key * R)) : list (key * R) :=
  match l with
  | [] => [x]
  | y :: t => if Rle_dec (snd y) (snd x) then x :: y :: t
              else y :: insert_by_score x t
  end.

(** [ranked_images]: the items of [score_dict] by descending score. *)
Definition ranked_images (score_dict : list (key * R)) : list (key * R) :=
  fold_right insert_by_score [] score_dict.

(** [ranked_images_percentage], before the format [:.3f] prints each number
    with a percent sign. *)
Definition ranked_images_percentage (score_dict : list (key * R)) (full_score : R)
  : list (key * R) :=
  map (fun kv => (fst kv, snd kv / full_score * 100)) (ranked_images score_dict).
End Ranking.

Arguments insert_by_score {key} _ _.
Arguments ranked_images {key} _.
Arguments ranked_images_percentage {key} _ _.

(** One keypoint against one, with the same network answer: the plan gives
    the pair the mass 1/2, above the threshold. *)
Definition single_data : data :=
  {| image0_shape := [1; 1; 1000; 1000]%Z;
     image1_shape := [1; 1; 1000; 1000]%Z;
     keypoints0 := [(10, 10)];
     keypoints1 := [(10, 10)];
     descriptors0 := [1] :: repeat [0] 255;
     descriptors1 := [1] :: repeat [0] 255;
     scores0 := [/ 2];
     scores1 := [/ 2] |}.

Definition single_out : prediction :=
  mutual_matches (transport ranking_module single_data flat_embedding)
                 (match_threshold (sg_config ranking_module)).

(** The module with the threshold lowered to 0.1, and what it returns for
    one keypoint against five. *)
Definition lenient_module : SuperGlue :=
  {| sg_config := {| descriptor_dim := 256;
                     sinkhorn_iterations := 20;
                     match_threshold := 1 / 10 |};
     bin_score := 1 |}.

Definition lenient_out : prediction :=
  mutual_matches (transport lenient_module flat_data flat_embedding)
                 (match_threshold (sg_config lenient_module)).

End Matcher.

(** * Facts *)

(** ** Nested-list tensors *)

Module TensorFacts.
Import Tensor.

Lemma map2_length {A B C : Type} (f : A -> B -> C) (xs : list A) (ys : list B) :
  length (map2 f xs ys) = Nat.min (length xs) (length ys).
Proof.
  revert ys; induction xs as [|x xs IH]; intros [|y ys]; simpl; auto.
Qed.

Lemma nth_map2 {A B C : Type} (f : A -> B -> C) (da : A) (db : B) (dc : C) :
  forall (xs : list A) (ys : list B) (i : nat),
    i < length xs -> i < length ys ->
    nth i (map2 f xs ys) dc = f (nth i xs da) (nth i ys db).
Proof.
  induction xs as [|x xs IH]; intros [|y ys] [|i]; simpl; intros; try lia; auto.
  apply IH; lia.
Qed.

Lemma rect_nth {A : Type} (h w : nat) (g : list (list A)) (i : nat) :
  rect h w g -> i < h -> length (nth i g []) = w.
Proof.
  intros [Hl Hf] Hi. rewrite Forall_forall in Hf.
  apply Hf, nth_In. lia.
Qed.

Lemma rect_height {A : Type} (h w : nat) (g : list (list A)) :
  rect h w g -> height g = h.
Proof. intros [Hl _]; exact Hl. Qed.

Lemma rect_width {A : Type} (h w : nat) (g : list (list A)) :
  rect h w g -> 0 < h -> width g = w.
Proof.
  intros [Hl Hf] Hh. unfold width. destruct g as [|row g]; simpl in *; [lia|].
  inversion Hf; auto.
Qed.

Lemma rect_tabulate {A : Type} (h w : nat) (f : nat -> nat -> A) :
  rect h w (tabulate h w f).
Proof.
  split.
  - unfold tabulate. now rewrite length_map, length_seq.
  - unfold tabulate. rewrite Forall_forall. intros row Hin.
    apply in_map_iff in Hin as (i & <- & _).
    now rewrite length_map, length_seq.
Qed.

Lemma get_tabulate {A : Type} (d : A) (h w : nat) (f : nat -> nat -> A) (i j : nat) :
  i < h -> j < w -> get d (tabulate h w f) i j = f i j.
Proof.
  intros Hi Hj. unfold get, tabulate.
  rewrite (nth_indep _ [] (map (f 0%nat) (seq 0 w)))
    by now rewrite length_map, length_seq.
  rewrite (map_nth (fun i => map (f i) (seq 0 w)) (seq 0 h) 0%nat i).
  rewrite seq_nth by lia. simpl.
  rewrite (nth_indep _ d (f i 0%nat)) by now rewrite length_map, length_seq.
  rewrite (map_nth (f i) (seq 0 w) 0%nat j).
  now rewrite seq_nth by lia.
Qed.

Lemma rect_gmap {A B : Type} (f : A -> B) (h w : nat) (g : list (list A)) :
  rect h w g -> rect h w (gmap f g).
Proof.
  intros [Hl Hf]. split.
  - unfold gmap. now rewrite length_map.
  - unfold gmap. rewrite Forall_forall in *. intros row Hin.
    apply in_map_iff in Hin as (r0 & <- & Hin).
    rewrite length_map. auto.
Qed.

Lemma get_gmap {A B : Type} (f : A -> B) (da : A) (db : B) (h w : nat)
      (g : list (list A)) (i j : nat) :
  rect h w g -> i < h -> j < w ->
  get db (gmap f g) i j = f (get da g i j).
Proof.
  intros Hr Hi Hj. unfold get, gmap.
  pose proof (rect_nth h w g i Hr Hi) as Hrow.
  destruct Hr as [Hl _].
  rewrite (nth_indep _ [] (map f [])) by (rewrite length_map; lia).
  rewrite (map_nth (map f) g [] i).
  rewrite (nth_indep _ db (f da)) by (rewrite length_map; lia).
  now rewrite (map_nth f (nth i g []) da j).
Qed.

Lemma rect_gmap2 {A B C : Type} (f : A -> B -> C) (h w : nat)
      (x : list (list A)) (y : list (list B)) :
  rect h w x -> rect h w y -> rect h w (gmap2 f x y).
Proof.
  intros [Hlx Hfx] [Hly Hfy]. split.
  - unfold gmap2. rewrite map2_length. lia.
  - unfold gmap2. clear Hlx Hly. revert y Hfy.
    induction Hfx as [|rx x Hrx Hfx IH]; intros [|ry y] Hfy; simpl;
      try constructor.
    + inversion Hfy; subst. rewrite map2_length. lia.
    + inversion Hfy; subst. auto.
Qed.

Lemma get_gmap2 {A B C : Type} (f : A -> B -> C) (da : A) (db : B) (dc : C)
      (h w : nat) (x : list (list A)) (y : list (list B)) (i j : nat) :
  rect h w x -> rect h w y -> i < h -> j < w ->
  get dc (gmap2 f x y) i j = f (get da x i j) (get db y i j).
Proof.
  intros Hx Hy Hi Hj. unfold get, gmap2.
  pose proof (rect_nth h w x i Hx Hi) as Hrx.
  pose proof (rect_nth h w y i Hy Hi) as Hry.
  destruct Hx as [Hlx _], Hy as [Hly _].
  rewrite (nth_map2 (map2 f) [] [] []) by lia.
  apply nth_map2; lia.
Qed.

(** Two grids of one shape that agree at every position are equal. *)
Lemma grid_ext {A : Type} (d : A) (h w : nat) (x y : list (list A)) :
  rect h w x -> rect h w y ->
  (forall i j, i < h -> j < w -> get d x i j = get d y i j) ->
  x = y.
Proof.
  intros Hx Hy Hext.
  apply (nth_ext x y [] []).
  - destruct Hx, Hy; lia.
  - intros i Hi. assert (Hih : i < h) by (destruct Hx; lia).
    apply (nth_ext _ _ d d).
    + rewrite (rect_nth h w x i), (rect_nth h w y i); auto.
    + intros j Hj. rewrite (rect_nth h w x i) in Hj by auto.
      apply (Hext i j); auto.
Qed.

Lemma at2_get {A : Type} (d : A) (h w : nat) (g : list (list A)) (a b : nat) (v : A) :
  rect h w g ->
  (at2 g a b = Some v <-> a < h /\ b < w /\ get d g a b = v).
Proof.
  intros Hr. unfold at2, get. split.
  - destruct (nth_error g a) as [row|] eqn:Ha; [|discriminate].
    intros Hb.
    assert (Hah : a < h).
    { destruct Hr as [<- _]. apply nth_error_Some. congruence. }
    assert (Hrow : nth a g [] = row) by now apply nth_error_nth.
    pose proof (rect_nth h w g a Hr Hah) as Hlen. rewrite Hrow in *.
    split; [auto|]. split.
    + rewrite <- Hlen. apply nth_error_Some. congruence.
    + now apply nth_error_nth.
  - intros (Ha & Hb & Hv).
    pose proof (rect_nth h w g a Hr Ha) as Hlen.
    destruct Hr as [Hl _].
    rewrite (nth_error_nth' g []) by lia.
    rewrite (nth_error_nth' _ d) by lia.
    now f_equal.
Qed.

Lemma map2_map_same {A B C D : Type} (f : B -> C -> D) (g : A -> B) (k : A -> C)
      (xs : list A) :
  map2 f (map g xs) (map k xs) = map (fun x => f (g x) (k x)) xs.
Proof. induction xs as [|x xs IH]; simpl; congruence. Qed.

Lemma length_removelast {A : Type} (l : list A) :
  length (removelast l) = length l - 1.
Proof.
  induction l as [|x [|y l] IH]; simpl in *; auto. rewrite IH. lia.
Qed.

End TensorFacts.

(** ** img2superpoint.py *)

Module DetectorFacts.
Import Tensor TensorFacts Detector.

(** *** Pooling windows *)

Lemma near_sym (r i a : nat) : near r i a -> near r a i.
Proof. unfold near; lia. Qed.

Lemma near_refl (r i : nat) : near r i i.
Proof. unfold near; lia. Qed.

Lemma in_span (r i a : nat) : In a (span r i) <-> near r i a.
Proof. unfold span, near. rewrite in_seq. lia. Qed.

Lemma in_window (r h w : nat) (x : list (list Q)) (i j : nat) (v : Q) :
  rect h w x ->
  (In v (window r x i j) <->
   exists a b, near r i a /\ near r j b /\ a < h /\ b < w /\ get 0%Q x a b = v).
Proof.
  intros Hr. unfold window. rewrite in_flat_map. split.
  - intros (a & Ha & Hin). apply in_flat_map in Hin as (b & Hb & Hin).
    destruct (at2 x a b) as [v'|] eqn:E; simpl in Hin; [|tauto].
    destruct Hin as [->|[]].
    apply (at2_get 0%Q h w) in E as (? & ? & ?); auto.
    exists a, b. rewrite in_span in Ha, Hb. auto.
  - intros (a & b & Ha & Hb & Hah & Hbw & Hv).
    exists a. rewrite in_span. split; [auto|].
    apply in_flat_map. exists b. rewrite in_span. split; [auto|].
    assert (E : at2 x a b = Some v) by (apply (at2_get 0%Q h w); auto).
    rewrite E. now left.
Qed.

Lemma Qmax_cases (x y : Q) : Qmax x y = x \/ Qmax x y = y.
Proof.
  unfold Qmax, GenericMinMax.gmax. destruct (x ?= y)%Q; auto.
Qed.

Lemma fold_Qmax_in (l : list Q) (v : Q) :
  fold_left Qmax l v = v \/ In (fold_left Qmax l v) l.
Proof.
  revert v; induction l as [|x l IH]; intros v; simpl; [now left|].
  destruct (IH (Qmax v x)) as [E|Hin]; [|now right; right].
  rewrite E. destruct (Qmax_cases v x) as [->| ->]; [now left|now right; left].
Qed.

Lemma fold_Qmax_ge_init (l : list Q) (v : Q) : (v <= fold_left Qmax l v)%Q.
Proof.
  revert v; induction l as [|x l IH]; intros v; simpl; [apply Qle_refl|].
  eapply Qle_trans; [apply (Q.le_max_l v x)|apply IH].
Qed.

Lemma fold_Qmax_ge (l : list Q) (v u : Q) :
  In u l -> (u <= fold_left Qmax l v)%Q.
Proof.
  revert v; induction l as [|x l IH]; intros v; simpl; [tauto|].
  intros [->|Hin]; [|now apply IH].
  eapply Qle_trans; [apply (Q.le_max_r v u)|apply fold_Qmax_ge_init].
Qed.

Lemma maximum_in (l : list Q) : l <> [] -> In (maximum l) l.
Proof.
  destruct l as [|v t]; [congruence|]. intros _. simpl.
  destruct (fold_Qmax_in t v) as [->|Hin]; auto.
Qed.

Lemma maximum_ge (l : list Q) (u : Q) : In u l -> (u <= maximum l)%Q.
Proof.
  destruct l as [|v t]; simpl; [tauto|].
  intros [<-|Hin]; [apply fold_Qmax_ge_init|now apply fold_Qmax_ge].
Qed.

Lemma rect_max_pool (r h w : nat) (x : list (list Q)) :
  rect h w x -> rect h w (max_pool r x).
Proof.
  intros Hr. unfold max_pool. rewrite (rect_height h w x Hr).
  destruct h as [|h'].
  - split; [reflexivity|constructor].
  - rewrite (rect_width (S h') w x Hr) by lia. apply rect_tabulate.
Qed.

Lemma get_max_pool (r h w : nat) (x : list (list Q)) (i j : nat) :
  rect h w x -> i < h -> j < w ->
  get 0%Q (max_pool r x) i j = maximum (window r x i j).
Proof.
  intros Hr Hi Hj. unfold max_pool.
  rewrite (rect_height h w x Hr), (rect_width h w x Hr) by lia.
  now apply get_tabulate.
Qed.

(** The pooled value is attained inside the window... *)
Lemma max_pool_attained (r h w : nat) (x : list (list Q)) (i j : nat) :
  rect h w x -> i < h -> j < w ->
  exists a b, near r i a /\ near r j b /\ a < h /\ b < w /\
              get 0%Q x a b = get 0%Q (max_pool r x) i j.
Proof.
  intros Hr Hi Hj. rewrite (get_max_pool r h w) by auto.
  apply (in_window r h w x i j); auto.
  apply maximum_in. intros E.
  assert (Hin : In (get 0%Q x i j) (window r x i j)).
  { apply (in_window r h w); auto. exists i, j.
    do 2 (split; [apply near_refl|]). auto. }
  rewrite E in Hin. inversion Hin.
Qed.

(** ... and bounds every value of the window. *)
Lemma max_pool_upper (r h w : nat) (x : list (list Q)) (i j a b : nat) :
  rect h w x -> i < h -> j < w ->
  near r i a -> near r j b -> a < h -> b < w ->
  (get 0%Q x a b <= get 0%Q (max_pool r x) i j)%Q.
Proof.
  intros Hr Hi Hj Ha Hb Hah Hbw. rewrite (get_max_pool r h w) by auto.
  apply maximum_ge. apply (in_window r h w); auto.
  exists a, b. auto.
Qed.

(** *** Pointwise reading of the mask operations *)

Section Pointwise.
Variables (r h w : nat).

Lemma rect_zeros_like (x : list (list Q)) : rect h w x -> rect h w (zeros_like x).
Proof. apply rect_gmap. Qed.

Lemma get_zeros_like (x : list (list Q)) (i j : nat) :
  rect h w x -> i < h -> j < w -> get 0%Q (zeros_like x) i j = 0%Q.
Proof. intros. unfold zeros_like. now rewrite (get_gmap _ 0%Q 0%Q h w). Qed.

Lemma rect_where (c : list (list bool)) (a b : list (list Q)) :
  rect h w c -> rect h w a -> rect h w b -> rect h w (where_ c a b).
Proof. intros. unfold where_. auto using rect_gmap2. Qed.

Lemma get_where (c : list (list bool)) (a b : list (list Q)) (i j : nat) :
  rect h w c -> rect h w a -> rect h w b -> i < h -> j < w ->
  get 0%Q (where_ c a b) i j =
  if get false c i j then get 0%Q a i j else get 0%Q b i j.
Proof.
  intros Hc Ha Hb Hi Hj. unfold where_.
  rewrite (get_gmap2 _ false (0%Q, 0%Q) 0%Q h w); auto using rect_gmap2.
  rewrite (get_gmap2 _ 0%Q 0%Q (0%Q, 0%Q) h w); auto.
Qed.

Lemma rect_eq_mask (a b : list (list Q)) :
  rect h w a -> rect h w b -> rect h w (eq_mask a b).
Proof. apply rect_gmap2. Qed.

Lemma get_eq_mask (a b : list (list Q)) (i j : nat) :
  rect h w a -> rect h w b -> i < h -> j < w ->
  get false (eq_mask a b) i j = Qeq_bool (get 0%Q a i j) (get 0%Q b i j).
Proof. intros. unfold eq_mask. now apply (get_gmap2 _ 0%Q 0%Q false h w). Qed.

(** [max_pool(mask.float()) > 0] holds exactly where the window holds a
    marked cell. *)
Lemma supp_mask_spec (m : list (list bool)) (i j : nat) :
  rect h w m -> i < h -> j < w ->
  (get false (gt_zero (max_pool r (to_float m))) i j = true <->
   exists a b, near r i a /\ near r j b /\ a < h /\ b < w /\
               get false m a b = true).
Proof.
  intros Hm Hi Hj.
  assert (Hf : rect h w (to_float m)) by now apply rect_gmap.
  unfold gt_zero.
  rewrite (get_gmap _ 0%Q false h w) by auto using rect_max_pool.
  rewrite negb_true_iff. split.
  - intros Hle.
    destruct (max_pool_attained r h w _ i j Hf Hi Hj)
      as (a & b & Ha & Hb & Hah & Hbw & E).
    unfold to_float in E at 1.
    rewrite (get_gmap _ false 0%Q h w) in E by auto.
    exists a, b. do 4 (split; [assumption|]).
    destruct (get false m a b); [reflexivity|].
    rewrite <- E in Hle. discriminate.
  - intros (a & b & Ha & Hb & Hah & Hbw & E).
    pose proof (max_pool_upper r h w _ i j a b Hf Hi Hj Ha Hb Hah Hbw) as Hle.
    unfold to_float in Hle at 1.
    rewrite (get_gmap _ false 0%Q h w), E in Hle by auto.
    destruct (Qle_bool _ 0) eqn:Eb; [|reflexivity].
    apply Qle_bool_iff in Eb. exfalso.
    assert (H10 : (1 <= 0)%Q) by (eapply Qle_trans; eauto).
    apply H10; reflexivity.
Qed.

Lemma rect_nms_round (s z : list (list Q)) (m : list (list bool)) :
  rect h w s -> rect h w z -> rect h w m -> rect h w (nms_round r s z m).
Proof.
  intros Hs Hz Hm. unfold nms_round.
  repeat first [ apply rect_gmap2 | apply rect_gmap | apply rect_max_pool
               | apply rect_where | apply rect_eq_mask | assumption ].
Qed.

(** A round keeps the marked cells and adds the unsuppressed cells that are
    maximal among the unsuppressed scores of their window. *)
Lemma get_nms_round (s : list (list Q)) (m : list (list bool)) (i j : nat) :
  rect h w s -> rect h w m -> i < h -> j < w ->
  let supp := gt_zero (max_pool r (to_float m)) in
  let ss := where_ supp (zeros_like s) s in
  get false (nms_round r s (zeros_like s) m) i j =
  get false m i j
  || (Qeq_bool (get 0%Q ss i j) (get 0%Q (max_pool r ss) i j)
      && negb (get false supp i j)).
Proof.
  intros Hs Hm Hi Hj supp ss.
  assert (Hsupp : rect h w supp).
  { unfold supp, gt_zero. apply rect_gmap, rect_max_pool. now apply rect_gmap. }
  assert (Hss : rect h w ss).
  { unfold ss. apply rect_where; auto using rect_zeros_like. }
  unfold nms_round. fold supp. fold ss.
  rewrite (get_gmap2 orb false false false h w);
    auto using rect_gmap2, rect_gmap, rect_eq_mask, rect_max_pool.
  rewrite (get_gmap2 andb false false false h w);
    auto using rect_gmap, rect_eq_mask, rect_max_pool.
  rewrite get_eq_mask by auto using rect_max_pool.
  rewrite (get_gmap negb false false h w) by auto.
  reflexivity.
Qed.
End Pointwise.

Create HintDb shape discriminated.
#[local] Hint Resolve rect_gmap rect_gmap2 rect_tabulate rect_max_pool
  rect_zeros_like rect_where rect_eq_mask rect_nms_round : shape.

(** *** Non-maximum suppression *)

Section Suppression.
Variables (r h w : nat) (s : list (list Q)).
Hypothesis Hs : rect h w s.

Local Abbreviation compatible := (compatible r h w s).
Local Abbreviation final_mask := (final_mask r s).

Lemma compatible_init : compatible (eq_mask s (max_pool r s)).
Proof.
  intros i j a b Hi Hj Ha Hb Hia Hjb Hm _.
  rewrite (get_eq_mask h w) in Hm by auto using rect_max_pool.
  apply Qeq_bool_eq in Hm. rewrite Hm.
  now apply (max_pool_upper r h w).
Qed.

Lemma nms_round_keeps (m : list (list bool)) (i j : nat) :
  rect h w m -> i < h -> j < w ->
  get false m i j = true ->
  get false (nms_round r s (zeros_like s) m) i j = true.
Proof.
  intros Hm Hi Hj E. rewrite (get_nms_round r h w) by auto.
  now rewrite E.
Qed.

Lemma compatible_round (m : list (list bool)) :
  rect h w m -> compatible m ->
  compatible (nms_round r s (zeros_like s) m).
Proof.
  intros Hm IH i j a b Hi Hj Ha Hb Hia Hjb Hij Hab.
  rewrite (get_nms_round r h w) in Hij, Hab by auto.
  set (supp := gt_zero (max_pool r (to_float m))) in *.
  set (ss := where_ supp (zeros_like s) s) in *.
  assert (Hsupp : rect h w supp).
  { unfold supp, gt_zero. apply rect_gmap, rect_max_pool. now apply rect_gmap. }
  assert (Hss : rect h w ss).
  { unfold ss. apply rect_where; auto using rect_zeros_like. }
  apply orb_true_iff in Hij, Hab.
  destruct Hij as [Hij|Hij], Hab as [Hab|Hab].
  - now apply (IH i j a b).
  - (* (i, j) is marked and in the window of (a, b): (a, b) is suppressed *)
    apply andb_true_iff in Hab as [_ Hn]. apply negb_true_iff in Hn.
    assert (Ht : get false supp a b = true).
    { apply (supp_mask_spec r h w); auto.
      exists i, j. auto using near_sym. }
    congruence.
  - apply andb_true_iff in Hij as [_ Hn]. apply negb_true_iff in Hn.
    assert (Ht : get false supp i j = true).
    { apply (supp_mask_spec r h w); auto. exists a, b. auto. }
    congruence.
  - apply andb_true_iff in Hij as [Hmax Hni], Hab as [_ Hna].
    apply negb_true_iff in Hni, Hna.
    apply Qeq_bool_eq in Hmax.
    pose proof (max_pool_upper r h w ss i j a b Hss Hi Hj Hia Hjb Ha Hb) as Hle.
    rewrite <- Hmax in Hle. unfold ss in Hle.
    rewrite !(get_where h w) in Hle by auto using rect_zeros_like.
    fold supp in Hle. now rewrite Hni, Hna in Hle.
Qed.

Lemma rect_final_mask : rect h w final_mask.
Proof. unfold final_mask. auto 6 with shape. Qed.

Lemma compatible_final : compatible final_mask.
Proof.
  unfold final_mask.
  auto 6 using compatible_round, compatible_init with shape.
Qed.

Lemma nms_body_eq : nms_body s r = where_ final_mask s (zeros_like s).
Proof. reflexivity. Qed.

Lemma rect_nms_body : rect h w (nms_body s r).
Proof.
  rewrite nms_body_eq. auto using rect_final_mask with shape.
Qed.

Lemma get_nms_body (i j : nat) :
  i < h -> j < w ->
  get 0%Q (nms_body s r) i j =
  if get false final_mask i j then get 0%Q s i j else 0%Q.
Proof.
  intros Hi Hj. rewrite nms_body_eq.
  rewrite (get_where h w) by auto using rect_final_mask with shape.
  now rewrite (get_zeros_like h w) by auto.
Qed.
End Suppression.

Section Idempotence.
Variables (r h w : nat) (s : list (list Q)).
Hypothesis Hs : rect h w s.
Hypothesis Hpos : forall i j, i < h -> j < w -> (0 <= get 0%Q s i j)%Q.

Let out := nms_body s r.

(** Every cell kept by the first pass is a window maximum of the output. *)
Lemma kept_is_max (i j : nat) :
  i < h -> j < w ->
  get false (final_mask r s) i j = true ->
  get false (eq_mask out (max_pool r out)) i j = true.
Proof.
  intros Hi Hj Hm.
  assert (Hout : rect h w out) by now apply rect_nms_body.
  rewrite (get_eq_mask h w) by auto using rect_max_pool.
  apply Qeq_eq_bool. apply Qle_antisym.
  - apply (max_pool_upper r h w); auto using near_refl.
  - destruct (max_pool_attained r h w out i j Hout Hi Hj)
      as (a & b & Ha & Hb & Hah & Hbw & E).
    rewrite <- E. unfold out.
    rewrite !(get_nms_body r h w) by auto. rewrite Hm.
    destruct (get false (final_mask r s) a b) eqn:Hab.
    + now apply (compatible_final r h w s Hs i j a b).
    + now apply Hpos.
Qed.

Lemma kept_stays (i j : nat) :
  i < h -> j < w ->
  get false (final_mask r s) i j = true ->
  get false (final_mask r out) i j = true.
Proof.
  intros Hi Hj Hm.
  assert (Hout : rect h w out) by now apply rect_nms_body.
  unfold final_mask at 1.
  do 2 (apply (nms_round_keeps r h w); auto; [auto 6 with shape|]).
  now apply kept_is_max.
Qed.

Lemma nms_body_idempotent : nms_body out r = out.
Proof.
  assert (Hout : rect h w out) by now apply rect_nms_body.
  apply (grid_ext 0%Q h w); auto using rect_nms_body.
  intros i j Hi Hj.
  rewrite (get_nms_body r h w out) by auto.
  destruct (get false (final_mask r s) i j) eqn:Hm.
  - now rewrite (kept_stays i j Hi Hj Hm).
  - unfold out at 2 3. rewrite (get_nms_body r h w s), Hm by auto.
    now destruct (get false (final_mask r out) i j).
Qed.
End Idempotence.

(** C5.  Non-maximum suppression is idempotent on score maps: for an
    [h] x [w] map whose entries are non-negative (the detector's maps are
    probabilities in [0, 1]) and a radius that passes the assertion,
    [simple_nms] returns a map on which [simple_nms] with the same radius
    returns that map again. *)
Theorem simple_nms_idempotent (scores : list (list Q)) (h w : nat) (nms_radius : Z) :
  rect h w scores ->
  Forall (Forall (fun v => (0 <= v)%Q)) scores ->
  (0 <= nms_radius)%Z ->
  exists out,
    simple_nms scores nms_radius = Some out /\
    simple_nms out nms_radius = Some out.
Proof.
  intros Hs Hpos Hr.
  exists (nms_body scores (Z.to_nat nms_radius)).
  unfold simple_nms.
  destruct (Z.ltb_spec nms_radius 0) as [Hneg|_]; [lia|].
  split; [reflexivity|]. f_equal.
  apply (nms_body_idempotent _ h w scores Hs).
  intros i j Hi Hj.
  rewrite Forall_forall in Hpos.
  assert (Hrow : In (nth i scores []) scores).
  { apply nth_In. destruct Hs; lia. }
  specialize (Hpos _ Hrow). rewrite Forall_forall in Hpos.
  apply Hpos. unfold get. apply nth_In.
  now rewrite (rect_nth h w scores i Hs Hi).
Qed.

(** *** Border removal *)

Lemma mask_select_combine {A B : Type} (f : A -> bool) (xs : list A) (ys : list B) :
  length xs = length ys ->
  mask_select (map f xs) xs = Some (map fst (filter (fun p => f (fst p)) (combine xs ys)))
  /\ mask_select (map f xs) ys = Some (map snd (filter (fun p => f (fst p)) (combine xs ys))).
Proof.
  intros Hlen. unfold mask_select. rewrite length_map, <- Hlen, Nat.eqb_refl.
  split; f_equal.
  - revert ys Hlen. induction xs as [|x xs IH]; intros [|y ys] Hlen;
      simpl in *; try discriminate; auto.
    destruct (f x); simpl; [f_equal|]; apply IH; lia.
  - revert ys Hlen. induction xs as [|x xs IH]; intros [|y ys] Hlen;
      simpl in *; try discriminate; auto.
    destruct (f x); simpl; [f_equal|]; apply IH; lia.
Qed.

Lemma combine_map_fst_snd {A B : Type} (l : list (A * B)) :
  combine (map fst l) (map snd l) = l.
Proof. induction l as [|[a b] l IH]; simpl; congruence. Qed.

(** The two masked selections are the two projections of one filter. *)
Lemma remove_borders_filter (keypoints : list keypoint) (scores : list Q)
      (border height width : Z) :
  length keypoints = length scores ->
  let kept := filter (fun p => inside border height width (fst p))
                     (combine keypoints scores) in
  remove_borders keypoints scores border height width
  = Some (map fst kept, map snd kept).
Proof.
  intros Hlen kept. unfold remove_borders.
  rewrite map2_map_same. cbv beta. unfold keypoint in *.
  set (f := fun k : Z * Z =>
              ((fst k >=? border)%Z && (fst k <? height - border)%Z)
              && ((snd k >=? border)%Z && (snd k <? width - border)%Z)).
  destruct (mask_select_combine f keypoints scores Hlen) as [-> ->].
  assert (Hf : forall p : Z * Z * Q,
             f (fst p) = inside border height width (fst p)).
  { intros [k v]. unfold f, inside. simpl. rewrite !Z.geb_leb.
    destruct (border <=? fst k)%Z, (fst k <? height - border)%Z,
      (border <=? snd k)%Z, (snd k <? width - border)%Z; reflexivity. }
  now rewrite (filter_ext _ _ Hf).
Qed.

(** C8.  On a keypoint list with a parallel score list, [remove_borders]
    returns exactly the (keypoint, score) pairs, in order and still paired,
    whose column x and row y satisfy [border <= x < width - border] and
    [border <= y < height - border]; so every kept keypoint is in that
    range. *)
Theorem remove_borders_exact (keypoints : list keypoint) (scores : list Q)
        (border height width : Z) :
  length keypoints = length scores ->
  exists kept_k kept_s,
    remove_borders keypoints scores border height width = Some (kept_k, kept_s)
    /\ length kept_k = length kept_s
    /\ combine kept_k kept_s =
       filter (fun p => inside border height width (fst p))
              (combine keypoints scores)
    /\ Forall (fun k => (border <= snd k < width - border)%Z
                      /\ (border <= fst k < height - border)%Z) kept_k.
Proof.
  intros Hlen.
  rewrite (remove_borders_filter keypoints scores border height width Hlen).
  set (kept := filter _ (combine keypoints scores)).
  exists (map fst kept), (map snd kept). split; [reflexivity|].
  split; [now rewrite !length_map|].
  split; [apply combine_map_fst_snd|].
  rewrite Forall_forall. intros k Hin.
  apply in_map_iff in Hin as ([k' v] & <- & Hin). simpl.
  apply filter_In in Hin as [_ Hin]. unfold inside in Hin. simpl in Hin.
  apply andb_true_iff in Hin as [Hx Hy].
  apply andb_true_iff in Hx as [Hx1 Hx2]. apply andb_true_iff in Hy as [Hy1 Hy2].
  lia.
Qed.

Lemma remove_borders_exact_witness :
  length [(2, 7); (5, 5); (9, 12)]%Z = length [1 # 2; 1 # 3; 1 # 4]%Q
  /\ exists kept_k kept_s,
      remove_borders [(2, 7); (5, 5); (9, 12)]%Z [1 # 2; 1 # 3; 1 # 4]%Q 4 16 16
      = Some (kept_k, kept_s)
      /\ length kept_k = length kept_s
      /\ combine kept_k kept_s =
         filter (fun p => inside 4 16 16 (fst p))
                (combine [(2, 7); (5, 5); (9, 12)]%Z [1 # 2; 1 # 3; 1 # 4]%Q)
      /\ Forall (fun k => (4 <= snd k < 16 - 4)%Z /\ (4 <= fst k < 16 - 4)%Z) kept_k.
Proof.
  split; [reflexivity|].
  apply (remove_borders_exact [(2, 7); (5, 5); (9, 12)]%Z
                              [1 # 2; 1 # 3; 1 # 4]%Q 4 16 16).
  reflexivity.
Defined.

Lemma simple_nms_idempotent_witness :
  rect 3 3 [[1; 2; 3]; [0; 5; 1]; [3 # 2; 0; 7]]%Q
  /\ Forall (Forall (fun v => (0 <= v)%Q)) [[1; 2; 3]; [0; 5; 1]; [3 # 2; 0; 7]]%Q
  /\ (0 <= 1)%Z
  /\ exists out,
      simple_nms [[1; 2; 3]; [0; 5; 1]; [3 # 2; 0; 7]]%Q 1 = Some out
      /\ simple_nms out 1 = Some out.
Proof.
  assert (Hr : rect 3 3 [[1; 2; 3]; [0; 5; 1]; [3 # 2; 0; 7]]%Q).
  { split; [reflexivity|repeat constructor]. }
  assert (Hp : Forall (Forall (fun v => (0 <= v)%Q))
                      [[1; 2; 3]; [0; 5; 1]; [3 # 2; 0; 7]]%Q).
  { repeat constructor; discriminate. }
  assert (Hz : (0 <= 1)%Z) by lia.
  split; [exact Hr|]. split; [exact Hp|]. split; [exact Hz|].
  exact (simple_nms_idempotent _ 3 3 1%Z Hr Hp Hz).
Defined.

(** The hypothesis on the sign cannot be dropped: a negative score that is
    suppressed becomes 0, which is then a new maximum. *)
Example simple_nms_negative_scores :
  simple_nms [[-1; -2]]%Q 1 = Some [[-1; 0]]%Q
  /\ simple_nms [[-1; 0]]%Q 1 = Some [[0; 0]]%Q.
Proof. split; reflexivity. Qed.

(** *** Top-K selection *)

Lemma length_insert_desc (x : nat * Q) (l : list (nat * Q)) :
  length (insert_desc x l) = S (length l).
Proof.
  induction l as [|y t IH]; simpl; [reflexivity|].
  destruct (Qle_bool (snd y) (snd x)); simpl; congruence.
Qed.

Lemma length_sort_desc (l : list (nat * Q)) : length (sort_desc l) = length l.
Proof.
  induction l as [|x l IH]; simpl; [reflexivity|].
  now rewrite length_insert_desc, IH.
Qed.

Lemma in_insert_desc (x y : nat * Q) (l : list (nat * Q)) :
  In y (insert_desc x l) -> y = x \/ In y l.
Proof.
  induction l as [|z t IH]; simpl.
  - intros [<-|[]]; now left.
  - destruct (Qle_bool (snd z) (snd x)); simpl.
    + intros [<-|[<-|H]]; auto.
    + intros [<-|H]; auto. destruct (IH H); auto.
Qed.

Lemma in_sort_desc (y : nat * Q) (l : list (nat * Q)) :
  In y (sort_desc l) -> In y l.
Proof.
  induction l as [|x l IH]; simpl; [tauto|].
  intros H. apply in_insert_desc in H as [->|H]; auto.
Qed.

Lemma in_firstn {A : Type} (n : nat) (l : list A) (x : A) :
  In x (firstn n l) -> In x l.
Proof.
  intros H. rewrite <- (firstn_skipn n l). apply in_or_app. now left.
Qed.

Lemma index_select_total {A : Type} (xs : list A) (indices : list nat) :
  Forall (fun i => i < length xs) indices ->
  exists r, index_select xs indices = Some r /\ length r = length indices.
Proof.
  induction 1 as [|i t Hi _ (r & Hr & Hlen)]; simpl.
  - now exists [].
  - destruct (nth_error xs i) as [x|] eqn:E.
    + rewrite Hr. exists (x :: r). simpl. auto.
    + apply nth_error_None in E. lia.
Qed.

Lemma topk_total (scores : list Q) (k : Z) :
  (0 <= k <= Z.of_nat (length scores))%Z ->
  exists vs idx,
    topk scores k = Some (vs, idx)
    /\ length vs = Z.to_nat k /\ length idx = Z.to_nat k
    /\ Forall (fun i => i < length scores) idx.
Proof.
  intros Hk. unfold topk.
  destruct (Z.ltb_spec k 0); [lia|].
  destruct (Z.ltb_spec (Z.of_nat (length scores)) k); [lia|]. simpl.
  set (best := firstn _ _).
  assert (Hlen : length best = Z.to_nat k).
  { unfold best. rewrite length_firstn, length_sort_desc, length_combine,
      length_seq. lia. }
  exists (map snd best), (map fst best).
  rewrite !length_map. repeat split; auto.
  rewrite Forall_forall. intros i Hin.
  apply in_map_iff in Hin as ([i' v] & <- & Hin). simpl.
  unfold best in Hin. apply in_firstn, in_sort_desc in Hin.
  apply in_combine_l in Hin. apply in_seq in Hin. lia.
Qed.

(** [top_k_keypoints] returns min(k, n) keypoints with as many scores. *)
Lemma top_k_keypoints_length (kp : list keypoint) (sc : list Q) (k : Z) :
  length kp = length sc -> (0 <= k)%Z ->
  exists kp' sc',
    top_k_keypoints kp sc k = Some (kp', sc')
    /\ length kp' = Nat.min (Z.to_nat k) (length kp)
    /\ length sc' = length kp'.
Proof.
  intros Hlen Hk. unfold top_k_keypoints.
  destruct (Z.geb_spec k (Z.of_nat (length kp))) as [Hge|Hlt].
  - exists kp, sc. repeat split; auto. lia.
  - destruct (topk_total sc k) as (vs & idx & -> & Hvs & Hidx & Hrange); [lia|].
    rewrite <- Hlen in Hrange.
    destruct (index_select_total kp idx Hrange) as (r & -> & Hr).
    exists r, vs. repeat split; auto; lia.
Qed.

(** *** The SuperPoint module *)

Lemma sequence_total {A B : Type} (f : A -> option B) (P : A -> B -> Prop)
      (l : list A) :
  (forall a, In a l -> exists b, f a = Some b /\ P a b) ->
  exists r, sequence (map f l) = Some r /\ length r = length l /\ Forall2 P l r.
Proof.
  induction l as [|a l IH]; intros H; simpl.
  - exists []. auto.
  - destruct (H a (or_introl eq_refl)) as (b & -> & Hb).
    destruct IH as (r & -> & Hlen & Hr); [intros; apply H; now right|].
    exists (b :: r). simpl. auto.
Qed.

Lemma Forall2_in_r {A B : Type} (P : A -> B -> Prop) (l : list A) (r : list B)
      (b : B) :
  Forall2 P l r -> In b r -> exists a, In a l /\ P a b.
Proof.
  induction 1 as [|a b' l r Hab _ IH]; simpl; [tauto|].
  intros [<-|Hin].
  - exists a. auto.
  - destruct (IH Hin) as (a' & Ha' & Hp). exists a'. auto.
Qed.

Lemma Forall2_map_eq {A B C : Type} (f : A -> C) (g : B -> C) (l : list A)
      (r : list B) :
  Forall2 (fun a b => f a = g b) l r -> map f l = map g r.
Proof. induction 1; simpl; congruence. Qed.

Section NetworkFacts.
Variables (weights image : Type).
Variable load_state_dict : Z -> option weights.
Variable keypoint_probs : weights -> image -> list (list (list (list Q))).
Variable dense_descriptors : weights -> image -> list (list (list (list Q))).
Variable grid_sample : list (list (list Q)) -> list (Q * Q) -> list (list Q).
Variable normalize : list (list Q) -> list (list Q).

Abbreviation init := (init weights load_state_dict).
Abbreviation forward :=
  (forward weights image keypoint_probs dense_descriptors grid_sample normalize).

(** C9.  Once the pretrained weights have loaded, the constructor raises
    the configuration error exactly when the merged [max_keypoints] is 0 or
    below -1, and otherwise (a positive value or -1) returns the module; as
    the error is the constructor's result, no module exists on which
    [forward] could be called. *)
Theorem init_checks_max_keypoints (cfg : user_config) (wts : weights) :
  load_state_dict (descriptor_dim (merge_config cfg)) = Some wts ->
  let mk := max_keypoints (merge_config cfg) in
  ((mk = 0 \/ mk < -1)%Z -> init cfg = Raise MaxKeypointsError)
  /\ ((0 < mk \/ mk = -1)%Z ->
      init cfg = Ok {| sp_config := merge_config cfg; sp_weights := wts |}).
Proof.
  intros Hload mk. unfold Detector.init. rewrite Hload. fold mk.
  split; intros Hmk.
  - destruct (Z.eqb_spec mk 0), (Z.ltb_spec mk (-1)); simpl; auto; lia.
  - destruct (Z.eqb_spec mk 0), (Z.ltb_spec mk (-1)); simpl; auto; lia.
Qed.

Lemma init_ok (cfg : user_config) (self : SuperPoint weights) :
  init cfg = Ok self ->
  load_state_dict (descriptor_dim (merge_config cfg)) = Some (sp_weights self)
  /\ sp_config self = merge_config cfg.
Proof.
  unfold Detector.init.
  destruct (load_state_dict _) as [wts|]; [|discriminate].
  destruct (_ || _)%bool; [discriminate|].
  intros E. inversion E. auto.
Qed.

(** C10.  Two configurations that the constructor accepts and that agree
    on [descriptor_dim] give modules whose forward passes return the same
    result on every input: nms radius, threshold, border and top-K are the
    constants 4, 0.005, 4 and 1024 of the forward pass, not the configured
    values. *)
Theorem forward_ignores_config (cfg1 cfg2 : user_config)
        (self1 self2 : SuperPoint weights) (data : image) :
  init cfg1 = Ok self1 ->
  init cfg2 = Ok self2 ->
  descriptor_dim (merge_config cfg1) = descriptor_dim (merge_config cfg2) ->
  forward self1 data = forward self2 data.
Proof.
  intros H1 H2 Hd.
  apply init_ok in H1 as [H1 _]. apply init_ok in H2 as [H2 _].
  rewrite Hd in H1. rewrite H1 in H2. inversion H2 as [Hw].
  unfold Detector.forward. now rewrite Hw.
Qed.

Lemma depth_to_space_rect (p : list (list (list Q))) (h w : nat) :
  length p = 64 ->
  exists s, depth_to_space p h w = Some s /\ rect (h * 8) (w * 8) s.
Proof.
  intros Hp. unfold depth_to_space. rewrite Hp. simpl.
  eexists. split; [reflexivity|apply rect_tabulate].
Qed.

End NetworkFacts.

Lemma init_checks_max_keypoints_witness :
  toy_load (descriptor_dim (merge_config cfg_max_minus_two)) = Some tt
  /\ (((-2 = 0 \/ -2 < -1)%Z -> toy_init cfg_max_minus_two = Raise MaxKeypointsError)
      /\ ((0 < -2 \/ -2 = -1)%Z ->
          toy_init cfg_max_minus_two =
          Ok {| sp_config := merge_config cfg_max_minus_two; sp_weights := tt |})).
Proof.
  split; [reflexivity|].
  apply (init_checks_max_keypoints unit toy_load cfg_max_minus_two tt).
  reflexivity.
Defined.

Lemma forward_ignores_config_witness :
  toy_init cfg_max_one = Ok (toy_module cfg_max_one)
  /\ toy_init empty_config = Ok (toy_module empty_config)
  /\ descriptor_dim (merge_config cfg_max_one)
     = descriptor_dim (merge_config empty_config)
  /\ toy_forward (toy_module cfg_max_one) tt
     = toy_forward (toy_module empty_config) tt.
Proof.
  assert (H1 : toy_init cfg_max_one = Ok (toy_module cfg_max_one)) by reflexivity.
  assert (H2 : toy_init empty_config = Ok (toy_module empty_config)) by reflexivity.
  assert (H3 : descriptor_dim (merge_config cfg_max_one)
               = descriptor_dim (merge_config empty_config)) by reflexivity.
  split; [exact H1|]. split; [exact H2|]. split; [exact H3|].
  exact (forward_ignores_config unit unit toy_load (fun _ _ => toy_probs)
           (fun _ _ => toy_dense) toy_grid_sample toy_normalize
           cfg_max_one empty_config _ _ tt H1 H2 H3).
Defined.

(** C4 fails as stated, in both halves.  With [max_keypoints] configured to 1
    the forward pass returns two keypoints for the image of the first
    instance; and with the default [max_keypoints = -1] it returns 1024
    keypoints for the second instance, whose 1600 candidates it cuts. *)
Lemma max_keypoints_not_honoured :
  (toy_init cfg_max_one = Ok (toy_module cfg_max_one)
   /\ max_keypoints (sp_config (toy_module cfg_max_one)) = 1%Z
   /\ exists out,
       toy_forward (toy_module cfg_max_one) tt = Some out
       /\ keypoints out = [[(4, 4); (11, 11)]]%Q
       /\ scores out = [[1 # 2; 1 # 2]]%Q
       /\ ~ (Z.of_nat (length (nth 0 (keypoints out) []))
             <= max_keypoints (sp_config (toy_module cfg_max_one)))%Z)
  /\ (toy_init empty_config = Ok (toy_module empty_config)
      /\ max_keypoints (sp_config (toy_module empty_config)) = (-1)%Z
      /\ map (fun p => length (candidates p)) plateau_probs = [1600]
      /\ exists out,
          plateau_forward (toy_module empty_config) tt = Some out
          /\ map (@length _) (keypoints out) = [1024]).
Proof.
  split.
  - split; [reflexivity|]. split; [reflexivity|].
    eexists. split; [vm_compute; reflexivity|].
    split; [reflexivity|]. split; [reflexivity|].
    simpl. lia.
  - split; [reflexivity|]. split; [reflexivity|].
    split; [vm_compute; reflexivity|].
    assert (H : option_map (fun o => map (@length _) (keypoints o))
                  (plateau_forward (toy_module empty_config) tt)
                = Some [1024]) by (vm_compute; reflexivity).
    destruct (plateau_forward (toy_module empty_config) tt) as [out|];
      [|discriminate].
    exists out. split; [reflexivity|]. simpl in H. now inversion H.
Qed.

(** *** More on simple_nms *)

Section SuppressionMore.
Variables (r h w : nat) (s : list (list Q)).
Hypothesis Hs : rect h w s.

(** A cell that is a maximum of its own window is marked from the start. *)
Lemma window_max_marked (i j : nat) :
  i < h -> j < w ->
  (forall a b, a < h -> b < w -> near r i a -> near r j b ->
               (get 0%Q s a b <= get 0%Q s i j)%Q) ->
  get false (final_mask r s) i j = true.
Proof.
  intros Hi Hj Hmax. unfold final_mask.
  do 2 (apply (nms_round_keeps r h w); auto; [auto 6 with shape|]).
  rewrite (get_eq_mask h w) by auto with shape.
  apply Qeq_eq_bool. apply Qle_antisym.
  - apply (max_pool_upper r h w); auto using near_refl.
  - destruct (max_pool_attained r h w s i j Hs Hi Hj)
      as (a & b & Ha & Hb & Hah & Hbw & E).
    rewrite <- E. now apply Hmax.
Qed.

(** A cell with a non-zero output is marked. *)
Lemma nonzero_marked (i j : nat) :
  i < h -> j < w ->
  ~ (get 0%Q (nms_body s r) i j == 0)%Q ->
  get false (final_mask r s) i j = true.
Proof.
  intros Hi Hj Hnz. rewrite (get_nms_body r h w) in Hnz by auto.
  destruct (get false (final_mask r s) i j); [reflexivity|].
  exfalso. apply Hnz. reflexivity.
Qed.
End SuppressionMore.

(** X1.  For a radius that passes the assertion, [simple_nms] returns a map of
    the shape of its input in which every entry is the input's entry at that
    position or 0: suppression never moves or invents a score. *)
Theorem simple_nms_keeps_or_zeroes (scores : list (list Q)) (h w : nat)
        (nms_radius : Z) :
  rect h w scores -> (0 <= nms_radius)%Z ->
  exists out,
    simple_nms scores nms_radius = Some out
    /\ rect h w out
    /\ forall i j, i < h -> j < w ->
         get 0%Q out i j = get 0%Q scores i j \/ get 0%Q out i j = 0%Q.
Proof.
  intros Hs Hr. unfold simple_nms.
  destruct (Z.ltb_spec nms_radius 0) as [Hneg|_]; [lia|].
  eexists. split; [reflexivity|]. split; [now apply rect_nms_body|].
  intros i j Hi Hj. rewrite (get_nms_body _ h w) by auto.
  destruct (get false _ i j); auto.
Qed.

(** X2.  A score that is a maximum of its own window (no in-bounds score
    within the radius is larger) survives [simple_nms] unchanged. *)
Theorem simple_nms_keeps_window_maxima (scores : list (list Q)) (h w : nat)
        (nms_radius : Z) (i j : nat) :
  rect h w scores -> (0 <= nms_radius)%Z -> i < h -> j < w ->
  (forall a b, a < h -> b < w ->
     near (Z.to_nat nms_radius) i a -> near (Z.to_nat nms_radius) j b ->
     (get 0%Q scores a b <= get 0%Q scores i j)%Q) ->
  exists out,
    simple_nms scores nms_radius = Some out
    /\ get 0%Q out i j = get 0%Q scores i j.
Proof.
  intros Hs Hr Hi Hj Hmax. unfold simple_nms.
  destruct (Z.ltb_spec nms_radius 0) as [Hneg|_]; [lia|].
  eexists. split; [reflexivity|].
  rewrite (get_nms_body _ h w) by auto.
  now rewrite (window_max_marked _ h w scores Hs i j Hi Hj Hmax).
Qed.

(** X3.  Two non-zero entries of the output of [simple_nms] that lie within
    the radius of each other (in rows and in columns) are equal: of two
    different scores that close, at most one survives. *)
Theorem simple_nms_survivors_tie (scores : list (list Q)) (h w : nat)
        (nms_radius : Z) (out : list (list Q)) (i j a b : nat) :
  rect h w scores ->
  simple_nms scores nms_radius = Some out ->
  i < h -> j < w -> a < h -> b < w ->
  near (Z.to_nat nms_radius) i a -> near (Z.to_nat nms_radius) j b ->
  ~ (get 0%Q out i j == 0)%Q -> ~ (get 0%Q out a b == 0)%Q ->
  (get 0%Q out i j == get 0%Q out a b)%Q.
Proof.
  intros Hs Hout Hi Hj Ha Hb Hia Hjb Hnz1 Hnz2. unfold simple_nms in Hout.
  destruct (nms_radius <? 0)%Z; [discriminate|]. inversion Hout; subst out.
  set (r := Z.to_nat nms_radius) in *.
  pose proof (nonzero_marked r h w scores Hs i j Hi Hj Hnz1) as M1.
  pose proof (nonzero_marked r h w scores Hs a b Ha Hb Hnz2) as M2.
  rewrite !(get_nms_body r h w) by auto. rewrite M1, M2.
  apply Qle_antisym.
  - apply (compatible_final r h w scores Hs a b i j); auto using near_sym.
  - apply (compatible_final r h w scores Hs i j a b); auto.
Qed.

(** X4.  With radius 0 every window is a single cell, and [simple_nms]
    returns its input, whatever the sign of the scores. *)
Theorem simple_nms_radius_zero (scores : list (list Q)) (h w : nat) :
  rect h w scores -> simple_nms scores 0 = Some scores.
Proof.
  intros Hs. unfold simple_nms. simpl. f_equal.
  apply (grid_ext 0%Q h w); auto using rect_nms_body.
  intros i j Hi Hj. rewrite (get_nms_body 0 h w) by auto.
  rewrite (window_max_marked 0 h w scores Hs i j Hi Hj); [reflexivity|].
  intros a b _ _ [Ha1 Ha2] [Hb1 Hb2].
  assert (a = i) by lia. assert (b = j) by lia. subst. apply Qle_refl.
Qed.

Lemma rect_peaks_3x3 : rect 3 3 peaks_3x3.
Proof. split; [reflexivity|repeat constructor]. Qed.

Lemma simple_nms_keeps_or_zeroes_witness :
  rect 3 3 peaks_3x3 /\ (0 <= 1)%Z
  /\ exists out,
      simple_nms peaks_3x3 1 = Some out
      /\ rect 3 3 out
      /\ forall i j, i < 3 -> j < 3 ->
           get 0%Q out i j = get 0%Q peaks_3x3 i j \/ get 0%Q out i j = 0%Q.
Proof.
  assert (Hz : (0 <= 1)%Z) by lia.
  split; [exact rect_peaks_3x3|]. split; [exact Hz|].
  exact (simple_nms_keeps_or_zeroes peaks_3x3 3 3 1 rect_peaks_3x3 Hz).
Defined.

Lemma peaks_corner_is_max :
  forall a b, a < 3 -> b < 3 -> near (Z.to_nat 1) 2 a -> near (Z.to_nat 1) 2 b ->
    (get 0%Q peaks_3x3 a b <= get 0%Q peaks_3x3 2 2)%Q.
Proof.
  intros a b Ha Hb _ _.
  destruct a as [|[|[|a]]]; try lia; destruct b as [|[|[|b]]]; try lia;
    discriminate.
Qed.

Lemma simple_nms_keeps_window_maxima_witness :
  rect 3 3 peaks_3x3 /\ (0 <= 1)%Z /\ 2 < 3
  /\ (forall a b, a < 3 -> b < 3 -> near (Z.to_nat 1) 2 a -> near (Z.to_nat 1) 2 b ->
        (get 0%Q peaks_3x3 a b <= get 0%Q peaks_3x3 2 2)%Q)
  /\ exists out,
      simple_nms peaks_3x3 1 = Some out
      /\ get 0%Q out 2 2 = get 0%Q peaks_3x3 2 2.
Proof.
  assert (Hz : (0 <= 1)%Z) by lia. assert (H2 : 2 < 3) by lia.
  split; [exact rect_peaks_3x3|]. split; [exact Hz|]. split; [exact H2|].
  split; [exact peaks_corner_is_max|].
  exact (simple_nms_keeps_window_maxima peaks_3x3 3 3 1 2 2 rect_peaks_3x3 Hz
           H2 H2 peaks_corner_is_max).
Defined.

Lemma simple_nms_survivors_tie_witness :
  rect 1 4 ridge_1x4
  /\ simple_nms ridge_1x4 1 = Some [[2; 2; 0; 2]]%Q
  /\ (get 0%Q [[2; 2; 0; 2]]%Q 0 0 == get 0%Q [[2; 2; 0; 2]]%Q 0 1)%Q.
Proof.
  assert (Hr : rect 1 4 ridge_1x4) by (split; [reflexivity|repeat constructor]).
  assert (He : simple_nms ridge_1x4 1 = Some [[2; 2; 0; 2]]%Q) by reflexivity.
  split; [exact Hr|]. split; [exact He|].
  apply (simple_nms_survivors_tie ridge_1x4 1 4 1 _ 0 0 0 1 Hr He);
    try lia; try (unfold near; simpl; lia); discriminate.
Defined.

Lemma simple_nms_radius_zero_witness :
  rect 1 2 [[-1; -2]]%Q /\ simple_nms [[-1; -2]]%Q 0 = Some [[-1; -2]]%Q.
Proof.
  assert (Hr : rect 1 2 [[-1; -2]]%Q) by (split; [reflexivity|repeat constructor]).
  split; [exact Hr|].
  exact (simple_nms_radius_zero _ 1 2 Hr).
Defined.

(** *** More on remove_borders *)

Lemma filter_all {A : Type} (f : A -> bool) (l : list A) :
  Forall (fun x => f x = true) l -> filter f l = l.
Proof.
  induction 1 as [|x l Hx _ IH]; simpl; [reflexivity|]. now rewrite Hx, IH.
Qed.

Lemma filter_again {A : Type} (f : A -> bool) (l : list A) :
  filter f (filter f l) = filter f l.
Proof.
  apply filter_all. rewrite Forall_forall. intros x Hin.
  now apply filter_In in Hin.
Qed.

(** X5.  [remove_borders] raises exactly when the keypoints and the scores
    differ in number (the mask then does not fit the scores). *)
Theorem remove_borders_fails_iff (keypoints : list keypoint) (scores : list Q)
        (border height width : Z) :
  remove_borders keypoints scores border height width = None
  <-> length keypoints <> length scores.
Proof.
  split.
  - intros Hnone Hlen.
    now rewrite (remove_borders_filter _ _ border height width Hlen) in Hnone.
  - intros Hlen. unfold remove_borders. unfold keypoint in *.
    set (mask := map2 andb _ _).
    assert (Hm : length mask = length keypoints).
    { unfold mask. rewrite map2_length, !length_map. lia. }
    unfold mask_select. rewrite Hm, Nat.eqb_refl.
    destruct (Nat.eqb_spec (length keypoints) (length scores)); [contradiction|].
    reflexivity.
Qed.

(** X6.  [remove_borders] is idempotent: on what it returns, with the same
    border and image size, it returns the same keypoints and scores. *)
Theorem remove_borders_idempotent (keypoints kept_k : list keypoint)
        (scores kept_s : list Q) (border height width : Z) :
  remove_borders keypoints scores border height width = Some (kept_k, kept_s) ->
  remove_borders kept_k kept_s border height width = Some (kept_k, kept_s).
Proof.
  intros H.
  assert (Hlen : length keypoints = length scores).
  { destruct (Nat.eq_dec (length keypoints) (length scores)) as [E|E]; [exact E|].
    apply (remove_borders_fails_iff _ _ border height width) in E. congruence. }
  rewrite (remove_borders_filter _ _ border height width Hlen) in H.
  inversion H as [[Hk Hsc]]. clear H.
  set (kept := filter _ (combine keypoints scores)) in *.
  rewrite remove_borders_filter by now rewrite !length_map.
  rewrite combine_map_fst_snd. unfold kept. now rewrite filter_again.
Qed.

Lemma remove_borders_idempotent_witness :
  remove_borders [(2, 7); (5, 5); (9, 12)]%Z [1 # 2; 1 # 3; 1 # 4]%Q 4 16 16
  = Some ([(5, 5)]%Z, [1 # 3]%Q)
  /\ remove_borders [(5, 5)]%Z [1 # 3]%Q 4 16 16 = Some ([(5, 5)]%Z, [1 # 3]%Q).
Proof.
  assert (H : remove_borders [(2, 7); (5, 5); (9, 12)]%Z [1 # 2; 1 # 3; 1 # 4]%Q
                4 16 16 = Some ([(5, 5)]%Z, [1 # 3]%Q)) by reflexivity.
  split; [exact H|].
  exact (remove_borders_idempotent _ _ _ _ 4 16 16 H).
Defined.

(** *** More on top_k_keypoints *)

Lemma insert_desc_perm (x : nat * Q) (l : list (nat * Q)) :
  Permutation (insert_desc x l) (x :: l).
Proof.
  induction l as [|y t IH]; simpl; [reflexivity|].
  destruct (Qle_bool (snd y) (snd x)); [reflexivity|].
  rewrite IH. apply perm_swap.
Qed.

Lemma sort_desc_perm (l : list (nat * Q)) : Permutation (sort_desc l) l.
Proof.
  induction l as [|x l IH]; simpl; [reflexivity|].
  rewrite insert_desc_perm. now constructor.
Qed.

Lemma insert_desc_sorted (x : nat * Q) (l : list (nat * Q)) :
  StronglySorted score_ge l -> StronglySorted score_ge (insert_desc x l).
Proof.
  induction 1 as [|y t Ht IH Hy]; simpl.
  - constructor; constructor.
  - destruct (Qle_bool (snd y) (snd x)) eqn:E.
    + apply Qle_bool_iff in E. constructor; [now constructor|].
      constructor; [exact E|].
      rewrite Forall_forall in *. intros z Hz. unfold score_ge in *.
      eapply Qle_trans; [apply (Hy z Hz)|exact E].
    + assert (Hlt : (snd x < snd y)%Q).
      { apply Qnot_le_lt. intros Hle. apply Qle_bool_iff in Hle. congruence. }
      constructor; [exact IH|].
      rewrite Forall_forall in *. intros z Hz.
      apply in_insert_desc in Hz as [->|Hz]; [|now apply Hy].
      unfold score_ge. now apply Qlt_le_weak.
Qed.

Lemma sort_desc_sorted (l : list (nat * Q)) : StronglySorted score_ge (sort_desc l).
Proof.
  induction l as [|x l IH]; simpl; [constructor|].
  now apply insert_desc_sorted.
Qed.

Lemma sorted_split {A : Type} (R : A -> A -> Prop) (l1 l2 : list A) :
  StronglySorted R (l1 ++ l2) ->
  StronglySorted R l1 /\ forall a b, In a l1 -> In b l2 -> R a b.
Proof.
  induction l1 as [|x l1 IH]; simpl; intros H.
  - split; [constructor|]. intros a b [].
  - inversion H as [|? ? Hs Hx]; subst. destruct (IH Hs) as [H1 H2].
    rewrite Forall_forall in Hx. split.
    + constructor; [exact H1|]. rewrite Forall_forall. intros y Hy.
      apply Hx. apply in_or_app. now left.
    + intros a b [<-|Ha] Hb; [|now apply H2].
      apply Hx. apply in_or_app. now right.
Qed.

Lemma in_enumerate (scores : list Q) (i : nat) (v : Q) :
  In (i, v) (combine (seq 0 (length scores)) scores) <->
  i < length scores /\ nth i scores 0%Q = v.
Proof.
  split.
  - intros Hin. apply (In_nth _ _ (0, 0%Q)) in Hin as (k & Hk & E).
    rewrite length_combine, length_seq, Nat.min_id in Hk.
    rewrite combine_nth in E by now rewrite length_seq.
    rewrite seq_nth in E by lia. simpl in E. inversion E; subst. auto.
  - intros [Hi <-].
    replace (i, nth i scores 0%Q)
      with (nth i (combine (seq 0 (length scores)) scores) (0, 0%Q)).
    + apply nth_In. rewrite length_combine, length_seq. lia.
    + rewrite combine_nth by now rewrite length_seq.
      now rewrite seq_nth by lia.
Qed.

Lemma map_fst_enumerate (scores : list Q) :
  map fst (combine (seq 0 (length scores)) scores) = seq 0 (length scores).
Proof.
  generalize 0 at 1 2. induction scores as [|v t IH]; intros s0; simpl;
    [reflexivity|]. now rewrite IH.
Qed.

Lemma map_nth_seq {A : Type} (d : A) (l : list A) :
  map (fun i => nth i l d) (seq 0 (length l)) = l.
Proof.
  induction l as [|x l IH]; simpl; [reflexivity|].
  f_equal. rewrite <- seq_shift, map_map. exact IH.
Qed.

Lemma index_select_nth {A : Type} (d : A) (xs : list A) (indices : list nat) :
  Forall (fun i => i < length xs) indices ->
  index_select xs indices = Some (map (fun i => nth i xs d) indices).
Proof.
  induction 1 as [|i t Hi _ IH]; simpl; [reflexivity|].
  rewrite IH, (nth_error_nth' xs d) by exact Hi. reflexivity.
Qed.

Lemma StronglySorted_map_snd (l : list (nat * Q)) :
  StronglySorted score_ge l ->
  StronglySorted (fun a b : Q => (b <= a)%Q) (map snd l).
Proof.
  induction 1 as [|x l _ IH Hx]; simpl; constructor; [exact IH|].
  rewrite Forall_forall in *. intros v Hv.
  apply in_map_iff in Hv as (z & <- & Hz). now apply Hx.
Qed.

(** [torch.topk] by positions: the [k] positions it returns are different,
    their scores descend, and no position left out has a larger score. *)
Lemma topk_positions (sc : list Q) (k : Z) :
  (0 <= k <= Z.of_nat (length sc))%Z ->
  exists idx,
    topk sc k = Some (map (fun i => nth i sc 0%Q) idx, idx)
    /\ length idx = Z.to_nat k
    /\ NoDup idx
    /\ Forall (fun i => i < length sc) idx
    /\ StronglySorted (fun a b : Q => (b <= a)%Q) (map (fun i => nth i sc 0%Q) idx)
    /\ forall i j, i < length sc -> ~ In i idx -> In j idx ->
                   (nth i sc 0%Q <= nth j sc 0%Q)%Q.
Proof.
  intros Hk. unfold topk.
  destruct (Z.ltb_spec k 0); [lia|].
  destruct (Z.ltb_spec (Z.of_nat (length sc)) k); [lia|]. simpl.
  set (L := sort_desc (combine (seq 0 (length sc)) sc)).
  set (best := firstn (Z.to_nat k) L).
  assert (HL : forall i v, In (i, v) L -> i < length sc /\ nth i sc 0%Q = v).
  { intros i v Hin. apply in_enumerate.
    apply (Permutation_in _ (sort_desc_perm _)). exact Hin. }
  assert (Hbest : forall z, In z best -> In z L) by (intros z; apply in_firstn).
  assert (Hrange : Forall (fun i => i < length sc) (map fst best)).
  { rewrite Forall_forall. intros i Hi.
    apply in_map_iff in Hi as ([i' v] & <- & Hin). simpl.
    now destruct (HL i' v (Hbest _ Hin)). }
  exists (map fst best).
  assert (Hsc : map snd best = map (fun i => nth i sc 0%Q) (map fst best)).
  { rewrite map_map. apply map_ext_in. intros [i v] Hin. simpl.
    now destruct (HL i v (Hbest _ Hin)). }
  split; [now rewrite Hsc|].
  assert (Hnd : NoDup (map fst L)).
  { apply (Permutation_NoDup (l := seq 0 (length sc))); [|apply seq_NoDup].
    rewrite <- map_fst_enumerate. apply Permutation_map.
    symmetry. apply sort_desc_perm. }
  assert (Hsplit : L = best ++ skipn (Z.to_nat k) L)
    by (unfold best; now rewrite firstn_skipn).
  pose proof (sort_desc_sorted (combine (seq 0 (length sc)) sc)) as Hsorted.
  fold L in Hsorted. rewrite Hsplit in Hsorted, Hnd.
  apply sorted_split in Hsorted as [Hs1 Hs2].
  rewrite map_app in Hnd.
  split.
  { rewrite length_map. unfold best.
    rewrite length_firstn. unfold L.
    rewrite length_sort_desc, length_combine, length_seq. lia. }
  split; [now apply NoDup_app_remove_r in Hnd|].
  split; [exact Hrange|]. split.
  - rewrite <- Hsc. now apply StronglySorted_map_snd.
  - intros i j Hi Hni Hj.
    apply in_map_iff in Hj as ([j' vj] & Ej & Hjin). simpl in Ej. subst j'.
    destruct (HL j vj (Hbest _ Hjin)) as [_ Ev]. rewrite Ev.
    assert (HiL : In (i, nth i sc 0%Q) L).
    { apply (Permutation_in _ (Permutation_sym (sort_desc_perm _))).
      apply in_enumerate. split; [lia|reflexivity]. }
    rewrite Hsplit in HiL. apply in_app_or in HiL as [Hin|Hin].
    + exfalso. apply Hni. apply in_map_iff. now exists (i, nth i sc 0%Q).
    + apply (Hs2 (j, vj) (i, nth i sc 0%Q) Hjin Hin).
Qed.

Lemma combine_map_pair {A B C : Type} (f : A -> B) (g : A -> C) (l : list A) :
  combine (map f l) (map g l) = map (fun x => (f x, g x)) l.
Proof. induction l as [|x l IH]; simpl; [reflexivity|now rewrite IH]. Qed.

(** [top_k_keypoints] on a list of (keypoint, score) pairs: the positions
    it returns, with the keypoint and the score of each. *)
Lemma top_k_keypoints_best (kept : list (keypoint * Q)) (k : Z) :
  (0 <= k)%Z ->
  exists idx,
    top_k_keypoints (map fst kept) (map snd kept) k
    = Some (map (fun i => fst (nth i kept ((0, 0)%Z, 0%Q))) idx,
            map (fun i => snd (nth i kept ((0, 0)%Z, 0%Q))) idx)
    /\ NoDup idx
    /\ Forall (fun i => i < length kept) idx
    /\ length idx = Nat.min (Z.to_nat k) (length kept)
    /\ (length kept <= Z.to_nat k -> idx = seq 0 (length kept))
    /\ forall i j, i < length kept -> ~ In i idx -> In j idx ->
         (snd (nth i kept ((0, 0)%Z, 0%Q)) <= snd (nth j kept ((0, 0)%Z, 0%Q)))%Q.
Proof.
  intros Hk. unfold top_k_keypoints. unfold keypoint in *. rewrite length_map.
  set (d := ((0, 0)%Z, 0%Q)).
  destruct (Z.geb_spec k (Z.of_nat (length kept))) as [Hge|Hlt].
  - exists (seq 0 (length kept)).
    assert (E : forall (B : Type) (f : Z * Z * Q -> B),
                map f kept = map (fun i => f (nth i kept d)) (seq 0 (length kept))).
    { intros B f. rewrite <- (map_map (fun i => nth i kept d) f), map_nth_seq.
      reflexivity. }
    split; [now rewrite <- !E|].
    split; [apply seq_NoDup|].
    split; [rewrite Forall_forall; intros i Hi; apply in_seq in Hi; lia|].
    rewrite length_seq. split; [lia|]. split; [reflexivity|].
    intros i j Hi Hni _. exfalso. apply Hni. apply in_seq. lia.
  - destruct (topk_positions (map snd kept) k)
      as (idx & -> & Hl & Hnd & Hr & _ & Hb); [rewrite length_map; lia|].
    rewrite length_map in Hr, Hb.
    assert (Hr' : Forall (fun i => i < length (map fst kept)) idx)
      by now rewrite length_map.
    rewrite (index_select_nth (0, 0)%Z (map fst kept) idx Hr').
    exists idx. split.
    { f_equal. f_equal; apply map_ext; intros i.
      - exact (map_nth fst kept d i).
      - exact (map_nth snd kept d i). }
    split; [exact Hnd|]. split; [exact Hr|]. split; [lia|]. split; [lia|].
    intros i j Hi Hni Hj.
    rewrite <- (map_nth snd kept d i), <- (map_nth snd kept d j).
    now apply Hb.
Qed.

(** X7.  [top_k_keypoints] picks positions of its input and returns the
    keypoint and the score of each, so the pairing is kept.  If [k] is at
    least the number of keypoints these are all positions in their order;
    otherwise they are [k] different positions, their scores come in
    descending order, and no score left out is larger than a score
    returned. *)
Theorem top_k_keypoints_selects (kp : list keypoint) (sc : list Q) (k : Z) :
  length kp = length sc -> (0 <= k)%Z ->
  exists idx,
    top_k_keypoints kp sc k
    = Some (map (fun i => nth i kp (0, 0)%Z) idx, map (fun i => nth i sc 0%Q) idx)
    /\ length idx = Nat.min (Z.to_nat k) (length kp)
    /\ NoDup idx
    /\ Forall (fun i => i < length kp) idx
    /\ ((Z.of_nat (length kp) <= k)%Z -> idx = seq 0 (length kp))
    /\ ((k < Z.of_nat (length kp))%Z ->
        StronglySorted (fun a b : Q => (b <= a)%Q) (map (fun i => nth i sc 0%Q) idx)
        /\ forall i j, i < length kp -> ~ In i idx -> In j idx ->
                       (nth i sc 0%Q <= nth j sc 0%Q)%Q).
Proof.
  intros Hlen Hk. unfold top_k_keypoints. unfold keypoint in *.
  destruct (Z.geb_spec k (Z.of_nat (length kp))) as [Hge|Hlt].
  - exists (seq 0 (length kp)).
    split.
    { rewrite map_nth_seq, Hlen, map_nth_seq. reflexivity. }
    rewrite length_seq. split; [lia|]. split; [apply seq_NoDup|].
    split; [rewrite Forall_forall; intros i Hi; apply in_seq in Hi; lia|].
    split; [reflexivity|lia].
  - destruct (topk_positions sc k)
      as (idx & -> & Hl & Hnd & Hr & Hs & Hb); [lia|].
    rewrite <- Hlen in Hr.
    rewrite (index_select_nth (0, 0)%Z kp idx Hr).
    exists idx. split; [reflexivity|]. split; [lia|]. split; [exact Hnd|].
    split; [exact Hr|]. split; [lia|]. intros _. split; [exact Hs|].
    intros i j Hi. apply Hb. lia.
Qed.

Lemma top_k_keypoints_selects_witness :
  length [(1, 1); (2, 2); (3, 3); (4, 4)]%Z = length [1 # 2; 3 # 4; 1 # 2; 7 # 8]%Q
  /\ (0 <= 2)%Z
  /\ exists idx,
      top_k_keypoints [(1, 1); (2, 2); (3, 3); (4, 4)]%Z
                      [1 # 2; 3 # 4; 1 # 2; 7 # 8]%Q 2
      = Some (map (fun i => nth i [(1, 1); (2, 2); (3, 3); (4, 4)]%Z (0, 0)%Z) idx,
              map (fun i => nth i [1 # 2; 3 # 4; 1 # 2; 7 # 8]%Q 0%Q) idx)
      /\ length idx = Nat.min (Z.to_nat 2) 4
      /\ NoDup idx
      /\ Forall (fun i => i < 4) idx
      /\ ((Z.of_nat 4 <= 2)%Z -> idx = seq 0 4)
      /\ ((2 < Z.of_nat 4)%Z ->
          StronglySorted (fun a b : Q => (b <= a)%Q)
            (map (fun i => nth i [1 # 2; 3 # 4; 1 # 2; 7 # 8]%Q 0%Q) idx)
          /\ forall i j, i < 4 -> ~ In i idx -> In j idx ->
               (nth i [1 # 2; 3 # 4; 1 # 2; 7 # 8]%Q 0%Q
                <= nth j [1 # 2; 3 # 4; 1 # 2; 7 # 8]%Q 0%Q)%Q).
Proof.
  assert (Hl : length [(1, 1); (2, 2); (3, 3); (4, 4)]%Z
               = length [1 # 2; 3 # 4; 1 # 2; 7 # 8]%Q) by reflexivity.
  assert (Hk : (0 <= 2)%Z) by lia.
  split; [exact Hl|]. split; [exact Hk|].
  exact (top_k_keypoints_selects _ _ 2 Hl Hk).
Defined.

(** *** More on the SuperPoint module *)

Lemma in_combine_seq {A : Type} (d : A) (l : list A) (i : nat) (x : A) :
  In (i, x) (combine (seq 0 (length l)) l) <-> i < length l /\ nth i l d = x.
Proof.
  split.
  - intros Hin. apply (In_nth _ _ (0, d)) in Hin as (k & Hk & E).
    rewrite length_combine, length_seq, Nat.min_id in Hk.
    rewrite combine_nth in E by now rewrite length_seq.
    rewrite seq_nth in E by lia. simpl in E. inversion E; subst. auto.
  - intros [Hi <-].
    replace (i, nth i l d) with (nth i (combine (seq 0 (length l)) l) (0, d)).
    + apply nth_In. rewrite length_combine, length_seq. lia.
    + rewrite combine_nth by now rewrite length_seq.
      now rewrite seq_nth by lia.
Qed.

(** The pairs of [torch.nonzero] are the positions of the true cells. *)
Lemma nonzero_spec (m : list (list bool)) (a b : Z) :
  In (a, b) (nonzero m) <->
  exists i j, a = Z.of_nat i /\ b = Z.of_nat j
              /\ i < length m /\ j < length (nth i m [])
              /\ get false m i j = true.
Proof.
  unfold nonzero. rewrite in_flat_map. split.
  - intros ([i row] & Hir & Hin). simpl in Hin.
    apply (in_combine_seq []) in Hir as [Hi <-].
    apply in_flat_map in Hin as ([j v] & Hjv & Hin). simpl in Hin.
    apply (in_combine_seq false) in Hjv as [Hj <-].
    destruct (nth j (nth i m []) false) eqn:E; [|destruct Hin].
    destruct Hin as [Hin|[]]. inversion Hin; subst.
    exists i, j. auto.
  - intros (i & j & -> & -> & Hi & Hj & E).
    exists (i, nth i m []). split; [now apply (in_combine_seq [])|].
    simpl. apply in_flat_map. exists (j, true). split.
    + apply (in_combine_seq false). auto.
    + simpl. now left.
Qed.

Lemma in_combine_map {A B : Type} (f : A -> B) (l : list A) (x : A) (y : B) :
  In (x, y) (combine l (map f l)) -> In x l /\ y = f x.
Proof.
  induction l as [|a l IH]; simpl; [tauto|].
  intros [E|Hin]; [inversion E; auto|]. destruct (IH Hin). auto.
Qed.

(** Every pair [top_k_keypoints] returns is a pair of its input. *)
Lemma top_k_keypoints_subset (kp kp' : list keypoint) (sc sc' : list Q) (k : Z) :
  length kp = length sc ->
  top_k_keypoints kp sc k = Some (kp', sc') ->
  incl (combine kp' sc') (combine kp sc).
Proof.
  intros Hlen. unfold top_k_keypoints. unfold keypoint in *.
  destruct (k >=? Z.of_nat (length kp))%Z.
  - intros E. inversion E; subst. apply incl_refl.
  - unfold topk. destruct (_ || _)%bool; [discriminate|].
    set (best := firstn _ _).
    destruct (index_select kp (map fst best)) as [r|] eqn:Er; [|discriminate].
    intros E. inversion E; subst. clear E.
    assert (Hb : forall z, In z best ->
                   fst z < length sc /\ nth (fst z) sc 0%Q = snd z).
    { intros [i v] Hin. apply in_enumerate.
      apply in_sort_desc. now apply in_firstn in Hin. }
    assert (Hrange : Forall (fun i => i < length kp) (map fst best)).
    { rewrite Forall_forall. intros i Hi.
      apply in_map_iff in Hi as (z & <- & Hz). destruct (Hb z Hz). lia. }
    rewrite (index_select_nth (0, 0)%Z kp _ Hrange) in Er.
    inversion Er; subst. clear Er.
    rewrite map_map. intros [q v] Hin.
    apply (In_nth _ _ ((0, 0)%Z, 0%Q)) in Hin as (n0 & Hn & E).
    rewrite length_combine, !length_map, Nat.min_id in Hn.
    rewrite combine_nth in E by now rewrite !length_map.
    rewrite (nth_indep _ (0, 0)%Z (nth (fst (0, 0%Q)) kp (0, 0)%Z)) in E
      by now rewrite length_map.
    rewrite (map_nth (fun x => nth (fst x) kp (0, 0)%Z) best (0, 0%Q)) in E.
    rewrite (nth_indep _ 0%Q (snd (0, 0%Q))) in E by now rewrite length_map.
    rewrite (map_nth snd best (0, 0%Q)) in E.
    destruct (Hb _ (nth_In best (0, 0%Q) Hn)) as [Hi Hv].
    rewrite <- Hv in E. rewrite <- E.
    rewrite <- (combine_nth kp sc _ (0, 0)%Z 0%Q Hlen).
    apply nth_In. rewrite length_combine. lia.
Qed.

Lemma nth_removelast_lt {A : Type} (l : list A) (d : A) (i : nat) :
  i < length (removelast l) -> nth i (removelast l) d = nth i l d.
Proof.
  revert i; induction l as [|x [|y l] IH]; intros i Hi; simpl in *; try lia.
  destruct i as [|i]; [reflexivity|]. apply IH. lia.
Qed.

Lemma sequence_Forall2 {A B : Type} (f : A -> option B) (l : list A) (r : list B) :
  sequence (map f l) = Some r -> Forall2 (fun a b => f a = Some b) l r.
Proof.
  revert r; induction l as [|a l IH]; simpl; intros r H.
  - inversion H. constructor.
  - destruct (f a) as [b|] eqn:E; [|discriminate].
    destruct (sequence (map f l)) as [r'|]; [|discriminate].
    inversion H; subst. constructor; auto.
Qed.

(** The keypoint branch on one image: every returned keypoint with its score
    meets [reported_ok]. *)
Lemma select_keypoints_reported (p : list (list (list Q))) (kp : list (Q * Q))
      (sc : list Q) :
  select_keypoints p = Some (kp, sc) ->
  forall xy v, In (xy, v) (combine kp sc) -> reported_ok p xy v.
Proof.
  unfold select_keypoints, reported_ok, cells_h, cells_w.
  set (q := removelast p). set (h := length (hd [] q)).
  set (w := length (hd [] (hd [] q))).
  unfold depth_to_space. destruct (Nat.eqb_spec (length q) 64) as [Hq|]; [|discriminate].
  set (F := fun i j => get 0%Q (nth ((i mod 8) * 8 + j mod 8) q []) (i / 8) (j / 8)).
  set (s := tabulate (h * 8) (w * 8) F).
  assert (Hs : rect (h * 8) (w * 8) s) by apply rect_tabulate.
  unfold simple_nms. change (4 <? 0)%Z with false. cbv iota.
  change (Z.to_nat 4) with 4.
  set (s' := nms_body s 4).
  assert (Hs' : rect (h * 8) (w * 8) s') by now apply rect_nms_body.
  set (mask := gmap (fun v => negb (Qle_bool v (5 # 1000))) s').
  set (k := nonzero mask).
  rewrite (remove_borders_filter k (gather_scores s' k) 4
             (Z.of_nat h * 8) (Z.of_nat w * 8))
    by (unfold gather_scores; now rewrite length_map).
  set (kept := filter _ (combine k (gather_scores s' k))).
  destruct (top_k_keypoints (map fst kept) (map snd kept) 1024)
    as [[k2 s2]|] eqn:Etop; [|discriminate].
  intros E xy v Hin. inversion E; subst kp sc. clear E.
  apply top_k_keypoints_subset in Etop; [|now rewrite !length_map].
  rewrite combine_map_fst_snd in Etop.
  (* back from the flipped pair to the (row, column) pair *)
  assert (Hpair : exists rc, In (rc, v) (combine k2 s2)
                             /\ xy = (inject_Z (snd rc), inject_Z (fst rc))).
  { clear Etop. revert s2 Hin. unfold keypoint in *.
    induction k2 as [|c k2 IH]; intros [|t s2]; simpl; try tauto.
    intros [Hc|Hin].
    - inversion Hc; subst. exists c. auto.
    - destruct (IH s2 Hin) as (rc & H1 & H2). exists rc. auto. }
  destruct Hpair as ([a b] & Hrc & ->). simpl.
  apply Etop in Hrc. unfold kept in Hrc.
  apply filter_In in Hrc as [Hcomb Hins]. simpl in Hins.
  unfold gather_scores in Hcomb. apply in_combine_map in Hcomb as [Hk Hv].
  simpl in Hv.
  apply nonzero_spec in Hk as (i & j & -> & -> & Hi & Hj & Hm).
  rewrite !Nat2Z.id in Hv.
  assert (Hih : i < h * 8).
  { unfold mask, gmap in Hi. rewrite length_map in Hi. destruct Hs'; lia. }
  assert (Hjw : j < w * 8).
  { unfold mask, gmap in Hj.
    rewrite (nth_indep _ [] (map (fun v => negb (Qle_bool v (5 # 1000))) []))
      in Hj by (rewrite length_map; destruct Hs'; lia).
    rewrite (map_nth (map (fun v => negb (Qle_bool v (5 # 1000)))) s' [] i) in Hj.
    rewrite length_map in Hj.
    now rewrite (rect_nth (h * 8) (w * 8) s' i Hs' Hih) in Hj. }
  unfold mask in Hm. rewrite (get_gmap _ 0%Q false (h * 8) (w * 8)) in Hm by auto.
  apply negb_true_iff in Hm.
  assert (Hgt : (5 # 1000 < get 0%Q s' i j)%Q).
  { apply Qnot_le_lt. intros Hle. apply Qle_bool_iff in Hle. congruence. }
  exists i, j. split; [reflexivity|]. split; [reflexivity|].
  unfold inside in Hins. simpl in Hins.
  apply andb_true_iff in Hins as [Hx Hy].
  apply andb_true_iff in Hx as [Hx1 Hx2]. apply andb_true_iff in Hy as [Hy1 Hy2].
  split; [lia|]. split; [lia|]. rewrite Hv. split; [exact Hgt|].
  unfold s' in Hgt |- *. rewrite (get_nms_body 4 (h * 8) (w * 8)) in Hgt |- * by auto.
  destruct (get false (final_mask 4 s) i j).
  - unfold s. rewrite get_tabulate by auto. unfold F, q.
    (* the 64 position channels are the first 64 of p *)
    rewrite nth_removelast_lt; [reflexivity|].
    fold q. rewrite Hq.
    assert (i mod 8 < 8) by (apply Nat.mod_upper_bound; lia).
    assert (j mod 8 < 8) by (apply Nat.mod_upper_bound; lia). lia.
  - exfalso. revert Hgt. apply Qle_not_lt. discriminate.
Qed.

(** The keypoint branch succeeds on a 65-channel tensor and returns the
    candidates cut to the 1024 best, each with its score. *)
Lemma select_keypoints_best (p : list (list (list Q))) :
  length p = 65 ->
  exists kp sc,
    select_keypoints p = Some (kp, sc)
    /\ length kp = length sc
    /\ length kp = Nat.min 1024 (length (candidates p))
    /\ cut_to_best 1024 (candidates p) (combine kp sc).
Proof.
  intros Hp. unfold select_keypoints, cut_to_best, candidates.
  set (q := removelast p).
  assert (Hq : length q = 64) by (unfold q; rewrite length_removelast; lia).
  destruct (depth_to_space_rect q (length (hd [] q)) (length (hd [] (hd [] q))) Hq)
    as (s & -> & Hs).
  unfold simple_nms. change (4 <? 0)%Z with false. cbv iota.
  set (s' := nms_body s _).
  set (k := nonzero _).
  rewrite (remove_borders_filter k (gather_scores s' k) 4
             (Z.of_nat (length (hd [] q)) * 8)
             (Z.of_nat (length (hd [] (hd [] q))) * 8))
    by (unfold gather_scores; now rewrite length_map).
  change (Z.to_nat 4) with 4 in *. fold s'. fold k.
  set (kept := filter _ (combine k (gather_scores s' k))).
  destruct (top_k_keypoints_best kept 1024)
    as (idx & -> & Hnd & Hr & Hl & Hall & Hb); [lia|].
  change (Z.to_nat 1024) with 1024 in Hl, Hall.
  eexists. eexists. split; [reflexivity|].
  rewrite !length_map. split; [reflexivity|]. split; [exact Hl|].
  exists idx. split.
  { rewrite map_map, combine_map_pair. reflexivity. }
  split; [exact Hnd|]. split; [exact Hr|]. split; [exact Hl|].
  split; [exact Hall|exact Hb].
Qed.

Section NetworkCap.
Variables (weights image : Type).
Variable load_state_dict : Z -> option weights.
Variable keypoint_probs : weights -> image -> list (list (list (list Q))).
Variable dense_descriptors : weights -> image -> list (list (list (list Q))).
Variable grid_sample : list (list (list Q)) -> list (Q * Q) -> list (list Q).
Variable normalize : list (list Q) -> list (list Q).

Local Abbreviation init := (init weights load_state_dict).
Local Abbreviation forward :=
  (forward weights image keypoint_probs dense_descriptors grid_sample normalize).

(** C4, as the code has it.  Whatever [max_keypoints] an accepted
    configuration holds (-1 or positive), on a non-empty batch of
    65-channel probability tensors [forward] returns, for every image, at
    most 1024 keypoints and as many scores: the candidates left by
    suppression, threshold and border removal, each reported as (x, y) with
    its own score, all of them in their order when there are at most 1024
    and otherwise 1024 different ones such that no candidate left out has a
    larger score than one returned.  The cap is the constant of the forward
    pass. *)
Theorem forward_caps_at_1024 (cfg : user_config) (self : SuperPoint weights)
        (data : image) :
  init cfg = Ok self ->
  keypoint_probs (sp_weights self) data <> [] ->
  Forall (fun p => length p = 65) (keypoint_probs (sp_weights self) data) ->
  exists out,
    forward self data = Some out
    /\ length (keypoints out) = length (keypoint_probs (sp_weights self) data)
    /\ Forall (fun k => length k <= 1024) (keypoints out)
    /\ map (@length _) (keypoints out)
       = map (fun p => Nat.min 1024 (length (candidates p)))
             (keypoint_probs (sp_weights self) data)
    /\ map (@length _) (scores out) = map (@length _) (keypoints out)
    /\ Forall2 (fun p ks => cut_to_best 1024 (candidates p)
                                        (combine (fst ks) (snd ks)))
               (keypoint_probs (sp_weights self) data)
               (combine (keypoints out) (scores out)).
Proof.
  intros _ Hne Hall. unfold Detector.forward.
  set (probs := keypoint_probs (sp_weights self) data) in *.
  destruct (sequence_total select_keypoints
              (fun p r => length (fst r) = length (snd r)
                          /\ length (fst r) = Nat.min 1024 (length (candidates p))
                          /\ cut_to_best 1024 (candidates p)
                                         (combine (fst r) (snd r)))
              probs) as (ks & -> & Hlen & Hks).
  { intros p Hin. rewrite Forall_forall in Hall.
    destruct (select_keypoints_best p (Hall p Hin)) as (kp & sc & H1 & H2 & H3 & H4).
    exists (kp, sc). split; [exact H1|]. simpl. auto. }
  destruct ks as [|k0 ks]; [destruct probs; simpl in *; congruence|].
  eexists. split; [reflexivity|]. cbn [keypoints scores].
  split; [now rewrite length_map|].
  split; [|split; [|split]].
  - rewrite Forall_forall. intros k Hin.
    apply in_map_iff in Hin as (r & <- & Hin).
    apply (Forall2_in_r _ _ _ _ Hks) in Hin as (p & _ & _ & Hp & _). lia.
  - rewrite map_map. symmetry. apply Forall2_map_eq.
    eapply Forall2_impl; [|exact Hks]. simpl. intros p r (_ & Hp & _). now symmetry.
  - rewrite !map_map. apply map_ext_in. intros r Hin.
    apply (Forall2_in_r _ _ _ _ Hks) in Hin as (p & _ & Hp & _). now symmetry.
  - rewrite combine_map_fst_snd.
    eapply Forall2_impl; [|exact Hks]. simpl. intros p r (_ & _ & Hp). exact Hp.
Qed.
End NetworkCap.

Lemma forward_caps_at_1024_witness :
  toy_init empty_config = Ok (toy_module empty_config)
  /\ plateau_probs <> []
  /\ Forall (fun p => length p = 65) plateau_probs
  /\ exists out,
      plateau_forward (toy_module empty_config) tt = Some out
      /\ length (keypoints out) = length plateau_probs
      /\ Forall (fun k => length k <= 1024) (keypoints out)
      /\ map (@length _) (keypoints out)
         = map (fun p => Nat.min 1024 (length (candidates p))) plateau_probs
      /\ map (@length _) (scores out) = map (@length _) (keypoints out)
      /\ Forall2 (fun p ks => cut_to_best 1024 (candidates p)
                                          (combine (fst ks) (snd ks)))
                 plateau_probs (combine (keypoints out) (scores out)).
Proof.
  assert (H1 : toy_init empty_config = Ok (toy_module empty_config)) by reflexivity.
  assert (H2 : plateau_probs <> []) by discriminate.
  assert (H3 : Forall (fun p => length p = 65) plateau_probs)
    by (constructor; [reflexivity|constructor]).
  split; [exact H1|]. split; [exact H2|]. split; [exact H3|].
  exact (forward_caps_at_1024 unit unit toy_load (fun _ _ => plateau_probs)
           (fun _ _ => plateau_dense) toy_grid_sample toy_normalize
           empty_config _ tt H1 H2 H3).
Defined.

Section NetworkMore.
Variables (weights image : Type).
Variable load_state_dict : Z -> option weights.
Variable keypoint_probs : weights -> image -> list (list (list (list Q))).
Variable dense_descriptors : weights -> image -> list (list (list (list Q))).
Variable grid_sample : list (list (list Q)) -> list (Q * Q) -> list (list Q).
Variable normalize : list (list Q) -> list (list Q).

Local Abbreviation init := (init weights load_state_dict).
Local Abbreviation forward :=
  (forward weights image keypoint_probs dense_descriptors grid_sample normalize).

(** X8.  Every keypoint that [forward] returns, for every image of the batch,
    has whole-pixel coordinates (x, y) = (column, row) at least 4 pixels from
    each edge of the 8h x 8w score map, and its score exceeds 0.005 and is
    the probability the network gave to that pixel. *)
Theorem forward_reports_inner_pixels (self : SuperPoint weights) (data : image)
        (out : detection) :
  forward self data = Some out ->
  Forall2 (fun p ks => forall xy v, In (xy, v) (combine (fst ks) (snd ks)) ->
                                    reported_ok p xy v)
          (keypoint_probs (sp_weights self) data)
          (combine (keypoints out) (scores out)).
Proof.
  unfold Detector.forward.
  destruct (sequence _) as [ks|] eqn:E; [|discriminate].
  destruct ks as [|k0 ks']; [discriminate|].
  intros H. inversion H; subst out. clear H. cbn [keypoints scores].
  change (combine (fst k0 :: map fst ks') (snd k0 :: map snd ks'))
    with (combine (map fst (k0 :: ks')) (map snd (k0 :: ks'))).
  rewrite combine_map_fst_snd.
  apply sequence_Forall2 in E.
  eapply Forall2_impl; [|exact E]. simpl.
  intros p [kp sc] Hsel xy v Hin. simpl in Hin.
  exact (select_keypoints_reported p kp sc Hsel xy v Hin).
Qed.
(** X9.  The three outcomes of the constructor: it raises the weights error
    exactly when loading fails, also when [max_keypoints] is invalid as
    well, because the check of [max_keypoints] comes last; it raises the
    configuration error exactly when the weights load and [max_keypoints] is
    0 or below -1; and the module it otherwise returns holds the merged
    configuration, defaults filled in. *)
Theorem init_outcomes (cfg : user_config) :
  let mk := max_keypoints (merge_config cfg) in
  let loaded := load_state_dict (descriptor_dim (merge_config cfg)) in
  (init cfg = Raise WeightsError <-> loaded = None)
  /\ (init cfg = Raise MaxKeypointsError <->
      loaded <> None /\ (mk = 0 \/ mk < -1)%Z)
  /\ (forall self, init cfg = Ok self <->
        loaded = Some (sp_weights self)
        /\ sp_config self = merge_config cfg
        /\ (0 < mk \/ mk = -1)%Z).
Proof.
  intros mk loaded. unfold Detector.init. fold mk. fold loaded.
  destruct loaded as [wts|].
  - destruct ((mk =? 0) || (mk <? -1))%Z eqn:Ec.
    + assert (Hbad : (mk = 0 \/ mk < -1)%Z).
      { apply orb_true_iff in Ec as [E|E]; [left; lia|right; lia]. }
      split; [split; discriminate|]. split.
      * split; [intros _; split; [discriminate|exact Hbad]|reflexivity].
      * intros self. split; [discriminate|]. intros (_ & _ & H). lia.
    + assert (Hgood : (0 < mk \/ mk = -1)%Z).
      { apply orb_false_iff in Ec as [E0 E1]. lia. }
      split; [split; discriminate|]. split.
      * split; [discriminate|]. intros [_ H]. lia.
      * intros [c v]. simpl. split.
        -- intros H. inversion H; subst. auto.
        -- intros (H1 & H2 & _). inversion H1; subst. reflexivity.
  - split; [tauto|]. split.
    + split; [discriminate|]. intros [H _]. congruence.
    + intros self. split; [discriminate|]. intros [H _]. discriminate.
Qed.
End NetworkMore.

Lemma grid_coord_in_range (v : Q) (n s : Z) :
  (1 <= n)%Z -> (2 <= s)%Z ->
  (inject_Z s / 2 - (1 # 2) <= v)%Q -> (v <= inject_Z n * inject_Z s - 1)%Q ->
  (-1 <= grid_coord v n s)%Q /\ (grid_coord v n s <= 1)%Q.
Proof.
  intros Hn Hs Hlo Hhi. unfold grid_coord.
  assert (Hn' : (1 <= inject_Z n)%Q) by (rewrite Zle_Qle in Hn; exact Hn).
  assert (Hs' : (2 <= inject_Z s)%Q) by (rewrite Zle_Qle in Hs; exact Hs).
  set (S := inject_Z s) in *. set (N := inject_Z n) in *. clearbody S N.
  assert (Hprod : (0 <= (N - 1) * S)%Q) by (apply Qmult_le_0_compat; Lqa.lra).
  assert (Heq : (N * S - S == (N - 1) * S)%Q) by ring.
  assert (Hhalf : (S / 2 == S * (1 # 2))%Q) by field.
  set (P := ((N - 1) * S)%Q) in *. set (NS := (N * S)%Q) in *. clearbody P NS.
  assert (Hd : (0 < NS - S / 2 - (1 # 2))%Q) by Lqa.lra.
  set (d := (NS - S / 2 - (1 # 2))%Q) in *.
  set (num := (v - S / 2 + (1 # 2))%Q).
  assert (H0 : (0 <= num / d)%Q).
  { apply Qle_shift_div_l; [exact Hd|]. unfold num. Lqa.lra. }
  assert (H1 : (num / d <= 1)%Q).
  { apply Qle_shift_div_r; [exact Hd|]. unfold num, d. Lqa.lra. }
  set (t := (num / d)%Q) in *. split; Lqa.lra.
Qed.

Section SamplingFacts.
Variable grid_sample : list (list (list Q)) -> list (Q * Q) -> list (list Q).
Variable normalize : list (list Q) -> list (list Q).

(** X10.  [sample_descriptors] samples the descriptor field at one grid point
    per keypoint, and for keypoints on the pixel grid of the field (stride
    at least 2, at least one cell each way) every grid point lies in the
    square [-1, 1] x [-1, 1] that [grid_sample] covers. *)
Theorem sample_descriptors_stays_on_grid (kpts : list (Q * Q))
        (desc : list (list (list Q))) (s : Z) :
  (2 <= s)%Z -> (1 <= desc_w desc)%Z -> (1 <= desc_h desc)%Z ->
  Forall (on_pixel_grid desc s) kpts ->
  exists grid,
    sample_descriptors grid_sample normalize kpts desc s
    = normalize (grid_sample desc grid)
    /\ length grid = length kpts
    /\ Forall in_unit_square grid.
Proof.
  intros Hs Hw Hh Hk. exists (grid_coords kpts desc s).
  split.
  { unfold Detector.sample_descriptors, grid_coords, grid_coord, desc_w, desc_h.
    now rewrite !map_map. }
  unfold grid_coords. rewrite length_map. split; [reflexivity|].
  rewrite Forall_forall in *. intros g Hg.
  apply in_map_iff in Hg as (k & <- & Hin).
  destruct (Hk k Hin) as [[Hx1 Hx2] [Hy1 Hy2]].
  unfold in_unit_square. simpl. split.
  - now apply grid_coord_in_range.
  - now apply grid_coord_in_range.
Qed.
End SamplingFacts.

Lemma forward_reports_inner_pixels_witness :
  exists out,
    toy_forward (toy_module empty_config) tt = Some out
    /\ Forall2 (fun p ks => forall xy v, In (xy, v) (combine (fst ks) (snd ks)) ->
                                         reported_ok p xy v)
               toy_probs (combine (keypoints out) (scores out)).
Proof.
  destruct (toy_forward (toy_module empty_config) tt) as [out|] eqn:E.
  - exists out. split; [reflexivity|].
    exact (forward_reports_inner_pixels unit unit (fun _ _ => toy_probs)
             (fun _ _ => toy_dense) toy_grid_sample toy_normalize
             (toy_module empty_config) tt out E).
  - exfalso. vm_compute in E. discriminate E.
Defined.

Lemma sample_descriptors_stays_on_grid_witness :
  (2 <= 8)%Z /\ (1 <= desc_w (hd [] toy_dense))%Z /\ (1 <= desc_h (hd [] toy_dense))%Z
  /\ Forall (on_pixel_grid (hd [] toy_dense) 8) [(4, 4); (11, 11)]%Q
  /\ exists grid,
      sample_descriptors toy_grid_sample toy_normalize [(4, 4); (11, 11)]%Q
                         (hd [] toy_dense) 8
      = toy_normalize (toy_grid_sample (hd [] toy_dense) grid)
      /\ length grid = length [(4, 4); (11, 11)]%Q
      /\ Forall in_unit_square grid.
Proof.
  assert (Hs : (2 <= 8)%Z) by lia.
  assert (Hw : (1 <= desc_w (hd [] toy_dense))%Z) by (vm_compute; discriminate).
  assert (Hh : (1 <= desc_h (hd [] toy_dense))%Z) by (vm_compute; discriminate).
  assert (Hk : Forall (on_pixel_grid (hd [] toy_dense) 8) [(4, 4); (11, 11)]%Q).
  { repeat constructor; vm_compute; discriminate. }
  split; [exact Hs|]. split; [exact Hw|]. split; [exact Hh|]. split; [exact Hk|].
  exact (sample_descriptors_stays_on_grid toy_grid_sample toy_normalize
           _ (hd [] toy_dense) 8 Hs Hw Hh Hk).
Defined.

End DetectorFacts.

(** ** superpoints2rank.py *)

Module MatcherFacts.
Import Tensor TensorFacts Matcher.
Local Open Scope R_scope.

(** *** Lists *)

Lemma nth_map_in {A B : Type} (f : A -> B) (l : list A) (d : A) (d' : B) (i : nat) :
  (i < length l)%nat -> nth i (map f l) d' = f (nth i l d).
Proof.
  intros Hi. rewrite (nth_indep _ d' (f d)) by now rewrite length_map.
  apply map_nth.
Qed.

Lemma nth_repeat_in {A : Type} (x d : A) (n i : nat) :
  (i < n)%nat -> nth i (repeat x n) d = x.
Proof.
  revert i; induction n as [|n IH]; intros [|i] Hi; simpl; auto; try lia.
  apply IH; lia.
Qed.

Lemma nth_removelast {A : Type} (l : list A) (d : A) (i : nat) :
  (i < length l - 1)%nat -> nth i (removelast l) d = nth i l d.
Proof.
  revert i; induction l as [|x [|y l] IH]; intros i Hi; simpl in *; try lia.
  destruct i as [|i]; [reflexivity|]. apply IH. lia.
Qed.

Lemma map2_seq_map {A B : Type} (f : nat -> A -> B) (g : nat -> A) (l : list nat) :
  map2 f l (map g l) = map (fun x => f x (g x)) l.
Proof. induction l as [|x l IH]; simpl; congruence. Qed.

(** *** Sums of exponentials *)

Lemma sum_exp_nonneg (l : list R) : 0 <= sum (map exp l).
Proof.
  induction l as [|x l IH]; simpl; [lra|].
  pose proof (exp_pos x). lra.
Qed.

Lemma sum_exp_pos (l : list R) : l <> [] -> 0 < sum (map exp l).
Proof.
  destruct l as [|x l]; [congruence|]. intros _. simpl.
  pose proof (exp_pos x). pose proof (sum_exp_nonneg l). lra.
Qed.



(** *** Shapes through the Sinkhorn loop *)

Lemma length_update_u (Z : list (list R)) (log_mu v : list R) :
  length log_mu = length Z -> length (update_u Z log_mu v) = length Z.
Proof. intros H. unfold update_u. rewrite map2_length. lia. Qed.

Lemma length_update_v (Z : list (list R)) (log_nu u : list R) :
  length (update_v Z log_nu u) = length log_nu.
Proof. unfold update_v. rewrite map2_length, length_seq. lia. Qed.

Lemma nth_update_v (Z : list (list R)) (log_nu u : list R) (j : nat) :
  (j < length log_nu)%nat ->
  nth j (update_v Z log_nu u) 0 =
  nth j log_nu 0 - logsumexp (map2 (fun row ui => nth j row 0 + ui) Z u).
Proof.
  intros Hj. unfold update_v.
  rewrite (nth_map2 _ 0 O 0) by (rewrite ?length_seq; lia).
  now rewrite seq_nth by lia.
Qed.

(** After at least one round, [v] is the column update of the final [u]. *)
Lemma sinkhorn_loop_last (Z : list (list R)) (log_mu log_nu : list R) (n : nat) :
  forall u v,
    length log_nu = length v ->
    exists vp,
      length vp = length log_nu /\
      sinkhorn_loop Z log_mu log_nu (S n) u v =
      (update_u Z log_mu vp, update_v Z log_nu (update_u Z log_mu vp)).
Proof.
  induction n as [|n IH]; intros u v Hv.
  - exists v. split; [lia|reflexivity].
  - change (sinkhorn_loop Z log_mu log_nu (S (S n)) u v)
      with (sinkhorn_loop Z log_mu log_nu (S n) (update_u Z log_mu v)
              (update_v Z log_nu (update_u Z log_mu v))).
    apply IH. now rewrite length_update_v.
Qed.

Lemma sinkhorn_loop_lengths (Z : list (list R)) (log_mu log_nu : list R) (n : nat) :
  length log_mu = length Z ->
  forall u v,
    length u = length Z -> length v = length log_nu ->
    length (fst (sinkhorn_loop Z log_mu log_nu n u v)) = length Z /\
    length (snd (sinkhorn_loop Z log_mu log_nu n u v)) = length log_nu.
Proof.
  intros Hmu. induction n as [|n IH]; intros u v Hu Hv; simpl; [auto|].
  apply IH; [now apply length_update_u|apply length_update_v].
Qed.

Section Transport.
Variables (m n : nat) (scores : list (list R)) (alpha : R) (iters : Z).
Hypothesis Hs : rect m n scores.
Hypothesis Hm : (0 < m)%nat.

Let norm := - ln (INR m + INR n).
Let couplings :=
  map (fun row => row ++ [alpha]) scores ++ [repeat alpha n ++ [alpha]].
Let log_mu := repeat norm m ++ [ln (INR n) + norm].
Let log_nu := repeat norm n ++ [ln (INR m) + norm].
Let uv := sinkhorn_loop couplings log_mu log_nu (Z.to_nat iters)
            (map (fun _ => 0) log_mu) (map (fun _ => 0) log_nu).

Lemma rect_couplings : rect (S m) (S n) couplings.
Proof.
  destruct Hs as [Hl Hf]. unfold couplings. split.
  - rewrite length_app, length_map. simpl. lia.
  - apply Forall_app. split.
    + rewrite Forall_forall in *. intros row Hin.
      apply in_map_iff in Hin as (r0 & <- & Hin).
      rewrite length_app, (Hf r0 Hin). simpl. lia.
    + constructor; [|constructor].
      rewrite length_app, repeat_length. simpl. lia.
Qed.

Lemma length_log_mu : length log_mu = S m.
Proof. unfold log_mu. rewrite length_app, repeat_length. simpl. lia. Qed.

Lemma length_log_nu : length log_nu = S n.
Proof. unfold log_nu. rewrite length_app, repeat_length. simpl. lia. Qed.

Lemma length_uv : length (fst uv) = S m /\ length (snd uv) = S n.
Proof.
  pose proof rect_couplings as [Hl _].
  pose proof length_log_mu as Hmu. pose proof length_log_nu as Hnu.
  destruct (sinkhorn_loop_lengths couplings log_mu log_nu (Z.to_nat iters))
    with (u := map (fun _ : R => 0) log_mu) (v := map (fun _ : R => 0) log_nu)
    as [H1 H2]; rewrite ?length_map; try lia.
  fold uv in H1, H2. lia.
Qed.

Lemma log_optimal_transport_eq :
  log_optimal_transport scores alpha iters =
  gmap (fun z => z - norm)
       (map2 (fun row ui => map2 (fun z vj => z + ui + vj) row (snd uv))
             couplings (fst uv)).
Proof.
  unfold log_optimal_transport, log_sinkhorn_iterations.
  rewrite (rect_height m n scores Hs), (rect_width m n scores Hs Hm).
  reflexivity.
Qed.

Lemma rect_log_optimal_transport :
  rect (S m) (S n) (log_optimal_transport scores alpha iters).
Proof.
  rewrite log_optimal_transport_eq. apply rect_gmap.
  pose proof rect_couplings as [Hl Hf]. destruct length_uv as [Hu Hv].
  split.
  - rewrite map2_length. lia.
  - rewrite Forall_forall. intros row Hin.
    apply (In_nth _ _ []) in Hin as (i & Hi & <-).
    rewrite map2_length in Hi.
    rewrite (nth_map2 _ [] 0 []) by lia.
    rewrite map2_length.
    rewrite (rect_nth (S m) (S n) couplings i) by (try split; auto; lia).
    lia.
Qed.

(** An entry of the result, read off the final potentials. *)
Lemma get_log_optimal_transport (i j : nat) :
  (i < S m)%nat -> (j < S n)%nat ->
  get 0 (log_optimal_transport scores alpha iters) i j =
  get 0 couplings i j + nth i (fst uv) 0 + nth j (snd uv) 0 - norm.
Proof.
  intros Hi Hj. rewrite log_optimal_transport_eq.
  pose proof rect_couplings as Hc. destruct length_uv as [Hu Hv].
  assert (Hr : rect (S m) (S n)
                 (map2 (fun row ui => map2 (fun z vj => z + ui + vj) row (snd uv))
                       couplings (fst uv))).
  { pose proof rect_log_optimal_transport as Hr.
    rewrite log_optimal_transport_eq in Hr.
    destruct Hr as [Hl Hf]. split.
    - unfold gmap in Hl. now rewrite length_map in Hl.
    - unfold gmap in Hf. rewrite Forall_forall in *. intros row Hin.
      specialize (Hf (map (fun z => z - norm) row) (in_map _ _ _ Hin)).
      now rewrite length_map in Hf. }
  rewrite (get_gmap _ 0 0 (S m) (S n)) by auto.
  f_equal. unfold get.
  pose proof (rect_nth (S m) (S n) couplings i Hc Hi) as Hrow.
  destruct Hc as [Hl _].
  rewrite (nth_map2 _ [] 0 []) by lia.
  now rewrite (nth_map2 _ 0 0 0) by lia.
Qed.

End Transport.

(** *** Maximum with index *)

Lemma max_from_spec (l : list R) :
  forall i best bi,
    let r := max_from l i best bi in
    (r = (best, bi)) \/
    ((i <= snd r < i + length l)%nat /\ nth (snd r - i) l 0 = fst r).
Proof.
  induction l as [|x t IH]; intros i best bi; simpl; [now left|].
  destruct (Rlt_dec best x) as [Hlt|Hge].
  - right. destruct (IH (S i) x i) as [E|[Hr Hn]].
    + rewrite E. simpl. split; [lia|]. now rewrite Nat.sub_diag.
    + split; [lia|].
      replace (snd (max_from t (S i) x i) - i)%nat
        with (S (snd (max_from t (S i) x i) - S i)) by lia.
      exact Hn.
  - destruct (IH (S i) best bi) as [E|[Hr Hn]]; [now left|].
    right. split; [lia|].
    replace (snd (max_from t (S i) best bi) - i)%nat
      with (S (snd (max_from t (S i) best bi) - S i)) by lia.
    exact Hn.
Qed.

(** The index is in range and the value is the entry at the index. *)
Lemma max_with_index_spec (l : list R) :
  l <> [] ->
  (snd (max_with_index l) < length l)%nat /\
  nth (snd (max_with_index l)) l 0 = fst (max_with_index l).
Proof.
  destruct l as [|x t]; [congruence|]. intros _. simpl.
  destruct (max_from_spec t 1 x O) as [E|[Hr Hn]].
  - simpl in E. rewrite E. simpl. split; [lia|reflexivity].
  - simpl in Hr, Hn. split; [lia|].
    destruct (snd (max_from t 1 x 0)) as [|k]; [lia|].
    simpl in Hn. now rewrite Nat.sub_0_r in Hn.
Qed.

(** *** Mutual matches *)

Section Mutual.
Variables (m n : nat) (sc : list (list R)) (thr : R).
Hypothesis Hsc : rect (S m) (S n) sc.
Hypothesis Hm : (0 < m)%nat.
Hypothesis Hn : (0 < n)%nat.

Local Abbreviation inner := (inner sc).

Lemma rect_inner : rect m n inner.
Proof.
  destruct Hsc as [Hl Hf]. unfold inner. split.
  - rewrite length_map, length_removelast. lia.
  - rewrite Forall_forall in *. intros row Hin.
    apply in_map_iff in Hin as (r0 & <- & Hin).
    rewrite length_removelast.
    assert (Hin' : In r0 sc).
    { apply (In_nth _ _ []) in Hin as (i & Hi & <-).
      rewrite length_removelast in Hi.
      rewrite nth_removelast by lia. apply nth_In. lia. }
    rewrite (Hf r0 Hin'). lia.
Qed.

Lemma get_inner (i j : nat) :
  (i < m)%nat -> (j < n)%nat -> get 0 inner i j = get 0 sc i j.
Proof.
  intros Hi Hj. unfold get, inner. destruct Hsc as [Hl Hf].
  rewrite (nth_map_in _ _ []) by (rewrite length_removelast; lia).
  rewrite (nth_removelast sc) by lia.
  apply nth_removelast.
  rewrite (rect_nth (S m) (S n) sc i) by (try split; auto; lia). lia.
Qed.

Local Abbreviation val0 := (val0 sc).
Local Abbreviation idx0 := (idx0 sc).
Local Abbreviation idx1 := (idx1 sc).
Local Abbreviation mut0 := (mut0 sc).
Local Abbreviation mut1 := (mut1 sc).
Local Abbreviation msc0 := (msc0 sc).
Local Abbreviation msc1 := (msc1 sc).
Local Abbreviation vld0 := (vld0 sc thr).
Local Abbreviation vld1 := (vld1 sc thr).

Lemma idx0_range (i : nat) : (i < m)%nat -> (idx0 i < n)%nat.
Proof.
  intros Hi. unfold idx0.
  pose proof (rect_nth m n inner i rect_inner Hi) as Hlen.
  destruct (max_with_index_spec (nth i inner [])) as [H _].
  - intros E. rewrite E in Hlen. simpl in Hlen. lia.
  - lia.
Qed.

Lemma val0_get (i : nat) : (i < m)%nat -> val0 i = get 0 sc i (idx0 i).
Proof.
  intros Hi. rewrite <- get_inner by auto using idx0_range.
  unfold val0, idx0, get.
  pose proof (rect_nth m n inner i rect_inner Hi) as Hlen.
  destruct (max_with_index_spec (nth i inner [])) as [_ H]; [|now rewrite H].
  intros E. rewrite E in Hlen. simpl in Hlen. lia.
Qed.

Lemma idx1_range (j : nat) : (idx1 j < m)%nat.
Proof.
  unfold idx1. destruct rect_inner as [Hl _].
  destruct (max_with_index_spec (column j inner)) as [H _].
  - unfold column. intros E. apply (f_equal (@length R)) in E.
    rewrite length_map in E. simpl in E. lia.
  - unfold column in H at 2. rewrite length_map in H. lia.
Qed.

Let out := mutual_matches sc thr.

Lemma mutual_matches_eq :
  out = {| matches0 := map (fun i => if vld0 i then Z.of_nat (idx0 i) else (-1)%Z)
                           (seq 0 m);
           matches1 := map (fun j => if vld1 j then Z.of_nat (idx1 j) else (-1)%Z)
                           (seq 0 n);
           matching_scores0 := map msc0 (seq 0 m);
           matching_scores1 := map msc1 (seq 0 n) |}.
Proof.
  unfold out, mutual_matches. fold inner.
  pose proof rect_inner as Hin. destruct Hin as [Hl Hf].
  rewrite (rect_width m n inner rect_inner Hm).
  assert (Hmax0 : map max_with_index inner
                  = map (fun i => (val0 i, idx0 i)) (seq 0 m)).
  { apply (nth_ext _ _ (0, O) (0, O)).
    - now rewrite !length_map, length_seq.
    - intros i Hi. rewrite length_map in Hi.
      rewrite (nth_map_in _ _ []), (nth_map_in _ _ O)
        by (rewrite ?length_seq; lia).
      rewrite seq_nth by lia. unfold val0, idx0. simpl.
      now destruct (max_with_index (nth i inner [])). }
  rewrite Hmax0. rewrite !map_map. simpl.
  rewrite !length_map, !length_seq.
  set (i0l := map idx0 (seq 0 m)).
  set (i1l := map idx1 (seq 0 n)).
  change (map (fun x => snd (max_with_index (column x inner))) (seq 0 n))
    with i1l.
  assert (Hmu0 : map2 (fun i i0 => Nat.eqb i (nth i0 i1l O)) (seq 0 m) i0l
                 = map mut0 (seq 0 m)).
  { unfold i0l. rewrite map2_seq_map. apply map_ext_in. intros i Hi.
    apply in_seq in Hi. unfold mut0, i1l.
    assert (Hr : (idx0 i < n)%nat) by (apply idx0_range; lia).
    rewrite (nth_map_in _ _ O) by now rewrite length_seq.
    now rewrite seq_nth. }
  assert (Hmu1 : map2 (fun j j1 => Nat.eqb j (nth j1 i0l O)) (seq 0 n) i1l
                 = map mut1 (seq 0 n)).
  { unfold i1l. rewrite map2_seq_map. apply map_ext_in. intros j Hj.
    unfold mut1, i0l. pose proof (idx1_range j) as Hr.
    rewrite (nth_map_in _ _ O) by now rewrite length_seq.
    now rewrite seq_nth. }
  rewrite Hmu0, Hmu1.
  assert (Hms0 : map2 (fun (mu : bool) mx => if mu then exp (fst mx) else 0)
                      (map mut0 (seq 0 m))
                      (map (fun i => (val0 i, idx0 i)) (seq 0 m))
                 = map msc0 (seq 0 m)).
  { rewrite map2_map_same. reflexivity. }
  rewrite Hms0.
  assert (Hms1 : map2 (fun (mu : bool) j1 => if mu then nth j1 (map msc0 (seq 0 m)) 0
                                             else 0)
                      (map mut1 (seq 0 n)) i1l
                 = map msc1 (seq 0 n)).
  { unfold i1l. rewrite map2_map_same. apply map_ext. intros j.
    unfold msc1. destruct (mut1 j); [|reflexivity].
    rewrite (nth_map_in _ _ O) by (rewrite length_seq; apply idx1_range).
    now rewrite seq_nth by apply idx1_range. }
  rewrite Hms1.
  assert (Hv0 : map2 (fun mu s => mu && gtb s thr) (map mut0 (seq 0 m))
                     (map msc0 (seq 0 m))
                = map vld0 (seq 0 m)).
  { rewrite map2_map_same. reflexivity. }
  rewrite Hv0.
  assert (Hv1 : map2 (fun mu j1 => mu && nth j1 (map vld0 (seq 0 m)) false)
                     (map mut1 (seq 0 n)) i1l
                = map vld1 (seq 0 n)).
  { unfold i1l. rewrite map2_map_same. apply map_ext. intros j.
    unfold vld1. f_equal.
    rewrite (nth_map_in _ _ O) by (rewrite length_seq; apply idx1_range).
    now rewrite seq_nth by apply idx1_range. }
  rewrite Hv1. unfold i0l, i1l.
  now rewrite !map2_map_same.
Qed.
End Mutual.

Lemma valid0_mirrored (sc : list (list R)) (thr : R) (i : nat) :
  vld0 sc thr i = true ->
  vld1 sc thr (idx0 sc i) = true /\ idx1 sc (idx0 sc i) = i.
Proof.
  unfold vld0, vld1, mut0, mut1. intros H.
  apply andb_true_iff in H as [Hmu Hgt].
  pose proof Hmu as Hmu'. apply Nat.eqb_eq in Hmu'.
  rewrite <- Hmu'. split; [|reflexivity].
  rewrite Nat.eqb_refl. simpl. unfold vld0, mut0. now rewrite Hmu, Hgt.
Qed.

Lemma valid1_mirrored (sc : list (list R)) (thr : R) (j : nat) :
  vld1 sc thr j = true ->
  vld0 sc thr (idx1 sc j) = true /\ idx0 sc (idx1 sc j) = j.
Proof.
  unfold vld1, mut1. intros H.
  apply andb_true_iff in H as [Hmu Hv]. apply Nat.eqb_eq in Hmu.
  split; [exact Hv|now symmetry].
Qed.

Lemma invalid0_score (sc : list (list R)) (thr : R) (i : nat) :
  vld0 sc thr i = false -> msc0 sc i = 0 \/ msc0 sc i <= thr.
Proof.
  unfold vld0, msc0. destruct (mut0 sc i); simpl; [|now left].
  unfold gtb. destruct (Rlt_dec thr (exp (val0 sc i))); [discriminate|].
  intros _. right. lra.
Qed.

Lemma invalid1_score (sc : list (list R)) (thr : R) (j : nat) :
  vld1 sc thr j = false -> msc1 sc j = 0 \/ msc1 sc j <= thr.
Proof.
  unfold vld1, msc1. destruct (mut1 sc j); simpl; [|now left].
  apply invalid0_score.
Qed.

Lemma nth_error_map_seq {A : Type} (f : nat -> A) (k i : nat) (x : A) :
  nth_error (map f (seq 0 k)) i = Some x <-> (i < k)%nat /\ f i = x.
Proof.
  rewrite nth_error_map. split.
  - destruct (nth_error (seq 0 k) i) as [i'|] eqn:E; [|discriminate].
    simpl. intros Hx. inversion Hx; subst.
    assert (Hi : (i < length (seq 0 k))%nat) by (apply nth_error_Some; congruence).
    rewrite length_seq in Hi.
    apply (nth_error_nth _ _ O) in E. rewrite seq_nth in E by lia.
    simpl in E. subst. auto.
  - intros [Hi <-]. rewrite (nth_error_nth' _ O) by now rewrite length_seq.
    now rewrite seq_nth.
Qed.

(** *** SuperGlue.forward *)

Section ForwardFacts.
Variable gnn : data -> option embedding.

Lemma forward_nonempty (self : SuperGlue) (d : data) (e : embedding) :
  keypoints0 d <> [] -> keypoints1 d <> [] -> gnn d = Some e ->
  forward gnn self d =
  Some (mutual_matches (transport self d e) (match_threshold (sg_config self))).
Proof.
  intros H0 H1 He. unfold forward, transport, similarity. rewrite He.
  destruct (keypoints0 d); [congruence|]. destruct (keypoints1 d); [congruence|].
  reflexivity.
Qed.

Lemma rect_transport (self : SuperGlue) (d : data) (e : embedding) :
  keypoints0 d <> [] ->
  rect (S (length (keypoints0 d))) (S (length (keypoints1 d)))
       (transport self d e).
Proof.
  intros H0. apply rect_log_optimal_transport.
  - apply rect_tabulate.
  - destruct (keypoints0 d); [congruence|]. simpl. lia.
Qed.

Lemma nonempty_length {A : Type} (l : list A) : l <> [] -> (0 < length l)%nat.
Proof. destruct l; [congruence|]. simpl. lia. Qed.

(** On non-empty inputs, replace [forward] by the position-wise reading of
    its result and name the shapes. *)
Ltac read_forward self d e H0 H1 He :=
  rewrite (forward_nonempty self d e H0 H1 He);
  eexists; split; [reflexivity|];
  pose proof (rect_transport self d e H0) as Hsc;
  pose proof (nonempty_length _ H0) as Hm;
  pose proof (nonempty_length _ H1) as Hn;
  set (m := length (keypoints0 d)) in *;
  set (n := length (keypoints1 d)) in *;
  set (sc := transport self d e) in *;
  set (thr := match_threshold (sg_config self)) in *;
  rewrite (mutual_matches_eq m n sc thr Hsc Hm Hn);
  cbn [matches0 matches1 matching_scores0 matching_scores1].

(** C3.  On two non-empty keypoint sets the matcher returns symmetric
    matches: whenever [matches0[i]] is a valid index [j] (not -1),
    [matches1[j]] is [i], and whenever [matches1[j]] is a valid index [i],
    [matches0[i]] is [j]. *)
Theorem match_symmetry (self : SuperGlue) (d : data) (e : embedding) :
  keypoints0 d <> [] -> keypoints1 d <> [] -> gnn d = Some e ->
  exists out,
    forward gnn self d = Some out
    /\ (forall i j, nth_error (matches0 out) i = Some j -> j <> (-1)%Z ->
                    nth_error (matches1 out) (Z.to_nat j) = Some (Z.of_nat i))
    /\ (forall j i, nth_error (matches1 out) j = Some i -> i <> (-1)%Z ->
                    nth_error (matches0 out) (Z.to_nat i) = Some (Z.of_nat j)).
Proof.
  intros H0 H1 He. read_forward self d e H0 H1 He.
  split.
  - intros i j Hij Hj. apply nth_error_map_seq in Hij as [Hi Hij].
    destruct (vld0 sc thr i) eqn:Hv; [|congruence]. subst j.
    rewrite Nat2Z.id.
    destruct (valid0_mirrored sc thr i Hv) as [Hv1 Hidx].
    apply nth_error_map_seq. split; [apply (idx0_range m n sc Hsc); auto|].
    now rewrite Hv1, Hidx.
  - intros j i Hji Hi. apply nth_error_map_seq in Hji as [Hj Hji].
    destruct (vld1 sc thr j) eqn:Hv; [|congruence]. subst i.
    rewrite Nat2Z.id.
    destruct (valid1_mirrored sc thr j Hv) as [Hv0 Hidx].
    apply nth_error_map_seq. split; [apply (idx1_range m n sc Hsc); auto|].
    now rewrite Hv0, Hidx.
Qed.



(** C2, as the code has it.  On two non-empty keypoint sets, an entry of
    [matches0] that is -1 has a confidence that is 0 or at most
    [match_threshold] (a mutual best pair that fails the threshold keeps
    its confidence), and likewise for [matches1]. *)
Theorem unmatched_confidence_bounded (self : SuperGlue) (d : data)
        (e : embedding) :
  keypoints0 d <> [] -> keypoints1 d <> [] -> gnn d = Some e ->
  exists out,
    forward gnn self d = Some out
    /\ (forall i, nth_error (matches0 out) i = Some (-1)%Z ->
          exists c, nth_error (matching_scores0 out) i = Some c
                    /\ (c = 0 \/ c <= match_threshold (sg_config self)))
    /\ (forall j, nth_error (matches1 out) j = Some (-1)%Z ->
          exists c, nth_error (matching_scores1 out) j = Some c
                    /\ (c = 0 \/ c <= match_threshold (sg_config self))).
Proof.
  intros H0 H1 He. read_forward self d e H0 H1 He.
  split.
  - intros i Hi. apply nth_error_map_seq in Hi as [Hi Hv].
    exists (msc0 sc i). split; [now apply nth_error_map_seq|].
    apply invalid0_score. destruct (vld0 sc thr i); [lia|reflexivity].
  - intros j Hj. apply nth_error_map_seq in Hj as [Hj Hv].
    exists (msc1 sc j). split; [now apply nth_error_map_seq|].
    apply invalid1_score. destruct (vld1 sc thr j); [lia|reflexivity].
Qed.

(** C7.  If either keypoint set is empty the matcher returns, whatever the
    network [gnn] would do (it is not consulted, so it cannot raise), match
    arrays filled with -1 and confidence arrays filled with 0, of the
    lengths of the two keypoint sets. *)
Theorem forward_empty_fast_path (self : SuperGlue) (d : data) :
  keypoints0 d = [] \/ keypoints1 d = [] ->
  forward gnn self d =
  Some {| matches0 := repeat (-1)%Z (length (keypoints0 d));
          matches1 := repeat (-1)%Z (length (keypoints1 d));
          matching_scores0 := repeat 0 (length (keypoints0 d));
          matching_scores1 := repeat 0 (length (keypoints1 d)) |}.
Proof.
  intros H. unfold forward.
  destruct H as [-> | ->]; simpl; [reflexivity|].
  now rewrite orb_true_r.
Qed.
End ForwardFacts.

(** *** Constant scores: the uniform transport plan *)

Lemma map_const_seq {A : Type} (x : A) (k s0 : nat) :
  map (fun _ => x) (seq s0 k) = repeat x k.
Proof. revert s0; induction k as [|k IH]; intros s0; simpl; congruence. Qed.

Lemma map_const_repeat {A B : Type} (f : A -> B) (x : A) (k : nat) :
  map f (repeat x k) = repeat (f x) k.
Proof. induction k as [|k IH]; simpl; congruence. Qed.

Lemma repeat_snoc {A : Type} (x : A) (k : nat) : repeat x k ++ [x] = repeat x (S k).
Proof. induction k as [|k IH]; simpl in *; congruence. Qed.

Lemma map2_repeat_l {A B C : Type} (f : A -> B -> C) (x : A) (l : list B) :
  map2 f (repeat x (length l)) l = map (f x) l.
Proof. induction l as [|y l IH]; simpl; congruence. Qed.

Lemma map2_repeat_r {A B C : Type} (f : A -> B -> C) (x : B) (l : list A) :
  map2 f l (repeat x (length l)) = map (fun y => f y x) l.
Proof. induction l as [|y l IH]; simpl; congruence. Qed.

Lemma sum_exp_shift (c : R) (l : list R) :
  sum (map exp (map (fun x => c + x) l)) = exp c * sum (map exp l).
Proof.
  induction l as [|x l IH]; simpl; [ring|].
  rewrite IH, exp_plus. ring.
Qed.

Lemma logsumexp_shift (c : R) (l : list R) :
  l <> [] -> logsumexp (map (fun x => c + x) l) = c + logsumexp l.
Proof.
  intros Hl. unfold logsumexp. rewrite sum_exp_shift.
  rewrite ln_mult; [|apply exp_pos|now apply sum_exp_pos].
  now rewrite ln_exp.
Qed.

Lemma sum_repeat (x : R) (k : nat) : sum (repeat x k) = INR k * x.
Proof.
  induction k as [|k IH]; [simpl; ring|].
  rewrite S_INR. simpl. rewrite IH. ring.
Qed.

Lemma sum_app (l1 l2 : list R) : sum (l1 ++ l2) = sum l1 + sum l2.
Proof. induction l1 as [|x l1 IH]; simpl; [ring|]. rewrite IH. ring. Qed.

Section Uniform.
Variables (m n : nat) (a : R) (iters : Z).
Hypothesis Hm : (0 < m)%nat.
Hypothesis Hn : (0 < n)%nat.
Hypothesis Hit : (1 <= iters)%Z.

Let norm := - ln (INR m + INR n).
Let log_mu := repeat norm m ++ [ln (INR n) + norm].
Let log_nu := repeat norm n ++ [ln (INR m) + norm].
Let flat := tabulate m n (fun _ _ : nat => a).
Let couplings := map (fun row => row ++ [a]) flat ++ [repeat a n ++ [a]].

Lemma couplings_flat : couplings = repeat (repeat a (S n)) (S m).
Proof.
  unfold couplings, flat, tabulate.
  rewrite map_map.
  rewrite (map_ext _ (fun _ => repeat a (S n))).
  - rewrite map_const_seq, !repeat_snoc. reflexivity.
  - intros i. now rewrite map_const_seq, repeat_snoc.
Qed.

Lemma INR_pos_of (k : nat) : (0 < k)%nat -> 0 < INR k.
Proof. intros H. apply lt_0_INR. lia. Qed.

Lemma exp_norm : exp norm = / (INR m + INR n).
Proof.
  pose proof (INR_pos_of m Hm). pose proof (INR_pos_of n Hn).
  unfold norm. rewrite exp_Ropp, exp_ln by lra. reflexivity.
Qed.

(** The row marginal is a probability vector. *)
Lemma logsumexp_log_mu : logsumexp log_mu = 0.
Proof.
  pose proof (INR_pos_of m Hm). pose proof (INR_pos_of n Hn).
  unfold logsumexp, log_mu.
  rewrite map_app, sum_app, map_const_repeat, sum_repeat. simpl.
  rewrite exp_plus, exp_ln, exp_norm by lra.
  replace (INR m * / (INR m + INR n) + (INR n * / (INR m + INR n) + 0))
    with 1 by (field; lra).
  apply ln_1.
Qed.

Lemma update_u_flat (v : list R) :
  length v = S n -> v <> [] ->
  update_u couplings log_mu v =
  map (fun lm => lm - (a + logsumexp v)) log_mu.
Proof.
  intros Hv Hne. unfold update_u. rewrite couplings_flat.
  assert (Hl : length log_mu = S m).
  { unfold log_mu. rewrite length_app, repeat_length. simpl. lia. }
  rewrite <- Hl, map2_repeat_r. apply map_ext. intros lm.
  rewrite <- Hv, map2_repeat_l. now rewrite logsumexp_shift.
Qed.

Lemma update_v_flat (u : list R) (j : nat) :
  length u = S m -> (j < S n)%nat ->
  nth j (update_v couplings log_nu u) 0 =
  nth j log_nu 0 - (a + logsumexp u).
Proof.
  intros Hu Hj.
  assert (Hl : length log_nu = S n).
  { unfold log_nu. rewrite length_app, repeat_length. simpl. lia. }
  rewrite nth_update_v by lia. f_equal.
  rewrite couplings_flat, <- Hu, map2_repeat_l.
  rewrite (nth_repeat_in a 0 (S n) j Hj).
  apply logsumexp_shift. destruct u; [discriminate|congruence].
Qed.

(** With every score equal to the dustbin score, one iteration already
    gives the product of the marginals, and more iterations keep it. *)
Lemma transport_flat (i j : nat) :
  (i < m)%nat -> (j < n)%nat ->
  get 0 (log_optimal_transport flat a iters) i j = norm.
Proof.
  intros Hi Hj.
  rewrite (get_log_optimal_transport m n flat a iters) by
    (auto; try lia; apply rect_tabulate).
  fold norm. fold couplings. fold log_mu. fold log_nu.
  destruct (Z.to_nat iters) as [|k] eqn:Ek; [lia|].
  destruct (sinkhorn_loop_last couplings log_mu log_nu k
              (map (fun _ => 0) log_mu) (map (fun _ => 0) log_nu))
    as (vp & Hvp & E); [now rewrite length_map|].
  rewrite E. simpl fst. simpl snd.
  assert (Hlmu : length log_mu = S m).
  { unfold log_mu. rewrite length_app, repeat_length. simpl. lia. }
  assert (Hlnu : length log_nu = S n).
  { unfold log_nu. rewrite length_app, repeat_length. simpl. lia. }
  assert (Hvne : vp <> []) by (destruct vp; [simpl in Hvp; lia|congruence]).
  rewrite update_u_flat by (auto; lia).
  set (K := a + logsumexp vp).
  rewrite update_v_flat by (rewrite ?length_map; lia).
  rewrite (nth_map_in _ _ 0) by lia.
  assert (Hshift : map (fun lm => lm - K) log_mu = map (fun x => - K + x) log_mu).
  { apply map_ext. intros; ring. }
  rewrite Hshift, logsumexp_shift, logsumexp_log_mu
    by (destruct log_mu; [discriminate|congruence]).
  assert (Hc : get 0 couplings i j = a).
  { rewrite couplings_flat. unfold get.
    rewrite (nth_repeat_in _ [] (S m) i) by lia.
    apply nth_repeat_in. lia. }
  assert (Hmu : nth i log_mu 0 = norm).
  { unfold log_mu. rewrite app_nth1 by (rewrite repeat_length; lia).
    now apply nth_repeat_in. }
  assert (Hnu : nth j log_nu 0 = norm).
  { unfold log_nu. rewrite app_nth1 by (rewrite repeat_length; lia).
    now apply nth_repeat_in. }
  rewrite Hc, Hmu, Hnu. unfold K. ring.
Qed.
End Uniform.

(** *** The concrete instance *)

Lemma tabulate_ext {A : Type} (h w : nat) (f g : nat -> nat -> A) :
  (forall i j, f i j = g i j) -> tabulate h w f = tabulate h w g.
Proof.
  intros H. unfold tabulate. apply map_ext. intros i. apply map_ext. intros j.
  apply H.
Qed.

Lemma dot_zero_tail (x y : R) (k : nat) :
  dot (x :: repeat 0 k) (y :: repeat 0 k) = x * y.
Proof.
  unfold dot. simpl.
  assert (H : sum (map2 Rmult (repeat 0 k) (repeat 0 k)) = 0).
  { induction k as [|k IH]; simpl; [reflexivity|]. rewrite IH. ring. }
  rewrite H. ring.
Qed.

Lemma flat_similarity :
  similarity ranking_module flat_data flat_embedding
  = tabulate 1 5 (fun _ _ : nat => 1).
Proof.
  unfold similarity. apply tabulate_ext. intros i j.
  unfold flat_embedding, mdesc0, mdesc1. rewrite dot_zero_tail.
  change (descriptor_dim (sg_config ranking_module)) with 256%Z.
  replace (IZR 256) with (16 * 16) by lra.
  rewrite sqrt_square by lra. field.
Qed.

Lemma flat_transport (i j : nat) :
  (i < 1)%nat -> (j < 5)%nat ->
  get 0 (transport ranking_module flat_data flat_embedding) i j = - ln 6.
Proof.
  intros Hi Hj. unfold transport. rewrite flat_similarity.
  change (bin_score ranking_module) with 1.
  change (sinkhorn_iterations (sg_config ranking_module)) with 20%Z.
  rewrite (transport_flat 1 5 1 20) by lia.
  f_equal. f_equal. simpl. lra.
Qed.

(** What the matcher returns for the single keypoint of the first image: a
    mutual best pair of confidence 1/6, below the threshold 0.2. *)
Lemma flat_forward :
  exists out,
    forward flat_gnn ranking_module flat_data = Some out
    /\ matches0 out = [(-1)%Z]
    /\ matching_scores0 out = [/ 6].
Proof.
  rewrite (forward_nonempty flat_gnn ranking_module flat_data flat_embedding)
    by (try reflexivity; discriminate).
  eexists. split; [reflexivity|].
  set (sc := transport ranking_module flat_data flat_embedding).
  assert (Hsc : rect 2 6 sc).
  { apply (rect_transport ranking_module flat_data flat_embedding). discriminate. }
  assert (H1 : (0 < 1)%nat) by lia. assert (H5 : (0 < 5)%nat) by lia.
  rewrite (mutual_matches_eq 1 5 sc _ Hsc H1 H5).
  cbn [matches0 matching_scores0 seq map].
  assert (Hmut : mut0 sc 0 = true).
  { unfold mut0. pose proof (idx1_range 1 5 sc Hsc H1 H5 (idx0 sc 0)).
    apply Nat.eqb_eq. lia. }
  assert (Hms : msc0 sc 0 = / 6).
  { unfold msc0. rewrite Hmut.
    rewrite (val0_get 1 5 sc Hsc H1 H5) by lia.
    unfold sc at 1.
    rewrite flat_transport by (try apply (idx0_range 1 5 sc Hsc H1 H5); lia).
    rewrite exp_Ropp, exp_ln by lra. reflexivity. }
  assert (Hv : vld0 sc (match_threshold (sg_config ranking_module)) 0 = false).
  { unfold vld0. rewrite Hmut, Hms. simpl. unfold gtb.
    destruct (Rlt_dec _ _) as [Hlt|_]; [|reflexivity]. lra. }
  now rewrite Hv, Hms.
Qed.

(** C2 fails as stated: the matcher returns [matches0[0] = -1] together with
    the confidence 1/6, which is not 0. *)
Lemma unmatched_keeps_confidence :
  exists out,
    forward flat_gnn ranking_module flat_data = Some out
    /\ nth_error (matches0 out) 0 = Some (-1)%Z
    /\ nth_error (matching_scores0 out) 0 = Some (/ 6)
    /\ / 6 <> 0.
Proof.
  destruct flat_forward as (out & Hf & Hm & Hs).
  exists out. rewrite Hm, Hs. repeat split; auto. lra.
Qed.

(** *** ranking_score *)

(** What [ranking_score] adds up, position by position: the confidence
    times the entry of [matches], which is the matched index for a valid
    match and -1 otherwise. *)
Lemma ranking_score_decomposition (matches : list Z) (match_confidence : list R) :
  ranking_score matches match_confidence =
  index_weighted_sum matches match_confidence
  - unmatched_confidence_sum matches match_confidence.
Proof.
  unfold ranking_score, index_weighted_sum, unmatched_confidence_sum.
  revert match_confidence.
  induction matches as [|mi matches IH]; intros [|c conf]; simpl; try ring.
  rewrite IH. destruct (Z.eqb_spec mi (-1)) as [->|_]; ring.
Qed.

(** C1 does not hold of [ranking_score], which weights every confidence by
    the entry of [matches] where the claim weights it by validity.  For the
    matches [1; 0] with confidences 1/2 each the code returns 1/2 where the
    confidences of the valid matches add up to 1; and on the output of the
    matcher for the concrete instance, [-1] with confidence 1/6, it returns
    -1/6 where no match is valid and the sum is 0. *)
Theorem ranking_score_is_not_confidence_sum :
  (ranking_score [1; 0]%Z [/ 2; / 2] = / 2
   /\ valid_confidence_sum [1; 0]%Z [/ 2; / 2] = 1)
  /\ exists out,
      forward flat_gnn ranking_module flat_data = Some out
      /\ ranking_score (matches0 out) (matching_scores0 out) = - / 6
      /\ valid_confidence_sum (matches0 out) (matching_scores0 out) = 0.
Proof.
  split.
  - unfold ranking_score, valid_confidence_sum. simpl. split; lra.
  - destruct flat_forward as (out & Hf & Hm & Hs).
    exists out. rewrite Hm, Hs.
    unfold ranking_score, valid_confidence_sum. simpl. repeat split; auto; lra.
Qed.

(** *** Instances of the theorems above *)


Lemma unmatched_confidence_bounded_witness :
  keypoints0 flat_data <> [] /\ keypoints1 flat_data <> []
  /\ flat_gnn flat_data = Some flat_embedding
  /\ exists out,
      forward flat_gnn ranking_module flat_data = Some out
      /\ (forall i, nth_error (matches0 out) i = Some (-1)%Z ->
            exists c, nth_error (matching_scores0 out) i = Some c
                      /\ (c = 0 \/ c <= match_threshold (sg_config ranking_module)))
      /\ (forall j, nth_error (matches1 out) j = Some (-1)%Z ->
            exists c, nth_error (matching_scores1 out) j = Some c
                      /\ (c = 0 \/ c <= match_threshold (sg_config ranking_module))).
Proof.
  assert (H0 : keypoints0 flat_data <> []) by discriminate.
  assert (H1 : keypoints1 flat_data <> []) by discriminate.
  assert (He : flat_gnn flat_data = Some flat_embedding) by reflexivity.
  split; [exact H0|]. split; [exact H1|]. split; [exact He|].
  exact (unmatched_confidence_bounded flat_gnn ranking_module flat_data
           flat_embedding H0 H1 He).
Defined.

Lemma forward_empty_fast_path_witness :
  (keypoints0 empty_data = [] \/ keypoints1 empty_data = [])
  /\ forward failing_gnn ranking_module empty_data =
     Some {| matches0 := [];
             matches1 := [-1; -1; -1; -1; -1]%Z;
             matching_scores0 := [];
             matching_scores1 := [0; 0; 0; 0; 0] |}.
Proof.
  assert (H : keypoints0 empty_data = [] \/ keypoints1 empty_data = [])
    by (left; reflexivity).
  split; [exact H|].
  exact (forward_empty_fast_path failing_gnn ranking_module empty_data H).
Defined.

(** *** More on the optimal transport *)


Section TransportMore.
Variables (m n : nat) (scores : list (list R)) (alpha : R) (iters : Z).
Hypothesis Hs : rect m n scores.
Hypothesis Hm : (0 < m)%nat.


(** X12.  With an iteration count of 0 or less the loop body never runs:
    every entry over a pair of keypoints is the score shifted by
    [ln (m + n)], without any normalisation. *)
Theorem log_optimal_transport_no_iterations (i j : nat) :
  (iters <= 0)%Z -> (i < m)%nat -> (j < n)%nat ->
  get 0 (log_optimal_transport scores alpha iters) i j
  = get 0 scores i j + ln (INR m + INR n).
Proof.
  intros Hit Hi Hj.
  rewrite (get_log_optimal_transport m n scores alpha iters Hs Hm i j) by lia.
  replace (Z.to_nat iters) with O by lia. simpl fst. simpl snd.
  rewrite (nth_map_in _ _ 0), (nth_map_in _ _ 0)
    by (rewrite length_app, repeat_length; simpl; lia).
  assert (Hget : get 0 (map (fun row => row ++ [alpha]) scores
                        ++ [repeat alpha n ++ [alpha]]) i j = get 0 scores i j).
  { unfold get. destruct Hs as [Hl Hf].
    rewrite app_nth1 by (rewrite length_map; lia).
    rewrite (nth_map_in _ _ []) by lia.
    apply app_nth1.
    rewrite (rect_nth m n scores i) by (try split; auto). lia. }
  rewrite Hget. ring.
Qed.
End TransportMore.

(** X13.  When every score equals the dustbin score, one Sinkhorn iteration
    already gives the uniform plan and further iterations keep it: each
    pair of keypoints gets probability 1 / (m + n). *)
Theorem uniform_scores_uniform_plan (m n : nat) (a : R) (iters : Z) (i j : nat) :
  (0 < m)%nat -> (0 < n)%nat -> (1 <= iters)%Z -> (i < m)%nat -> (j < n)%nat ->
  exp (get 0 (log_optimal_transport (tabulate m n (fun _ _ => a)) a iters) i j)
  = / (INR m + INR n).
Proof.
  intros Hm Hn Hit Hi Hj.
  rewrite (transport_flat m n a iters Hm Hn Hit i j Hi Hj).
  assert (0 < INR m) by (apply lt_0_INR; lia).
  assert (0 < INR n) by (apply lt_0_INR; lia).
  rewrite exp_Ropp, exp_ln by lra. reflexivity.
Qed.

Lemma rect_one_one : rect 1 1 [[1]].
Proof. split; [reflexivity|repeat constructor]. Qed.


Lemma log_optimal_transport_no_iterations_witness :
  rect 1 1 [[1]] /\ (0 < 1)%nat /\ (0 <= 0)%Z /\ (0 < 1)%nat
  /\ get 0 (log_optimal_transport [[1]] 1 0) 0 0
     = get 0 [[1]] 0 0 + ln (INR 1 + INR 1).
Proof.
  assert (Hm : (0 < 1)%nat) by lia. assert (Hit : (0 <= 0)%Z) by lia.
  split; [exact rect_one_one|]. split; [exact Hm|]. split; [exact Hit|].
  split; [exact Hm|].
  exact (log_optimal_transport_no_iterations 1 1 [[1]] 1 0 rect_one_one Hm 0 0
           Hit Hm Hm).
Defined.

Lemma uniform_scores_uniform_plan_witness :
  (0 < 1)%nat /\ (0 < 5)%nat /\ (1 <= 20)%Z /\ (0 < 1)%nat /\ (2 < 5)%nat
  /\ exp (get 0 (log_optimal_transport (tabulate 1 5 (fun _ _ => 1)) 1 20) 0 2)
     = / (INR 1 + INR 5).
Proof.
  assert (H1 : (0 < 1)%nat) by lia. assert (H5 : (0 < 5)%nat) by lia.
  assert (Hit : (1 <= 20)%Z) by lia. assert (H2 : (2 < 5)%nat) by lia.
  split; [exact H1|]. split; [exact H5|]. split; [exact Hit|].
  split; [exact H1|]. split; [exact H2|].
  exact (uniform_scores_uniform_plan 1 5 1 20 0 2 H1 H5 Hit H1 H2).
Defined.

(** *** More on SuperGlue.forward *)

Lemma ranking_score_unmatched (k : nat) :
  ranking_score (repeat (-1)%Z k) (repeat 0 k) = 0.
Proof.
  unfold ranking_score. induction k as [|k IH]; simpl; [reflexivity|].
  rewrite IH. ring.
Qed.

Section ForwardMore.
Variable gnn : data -> option embedding.

(** What [forward] returns, in the two cases of its first test. *)
Lemma forward_cases (self : SuperGlue) (d : data) (out : prediction) :
  forward gnn self d = Some out ->
  ((keypoints0 d = [] \/ keypoints1 d = [])
   /\ out = {| matches0 := repeat (-1)%Z (length (keypoints0 d));
               matches1 := repeat (-1)%Z (length (keypoints1 d));
               matching_scores0 := repeat 0 (length (keypoints0 d));
               matching_scores1 := repeat 0 (length (keypoints1 d)) |})
  \/ (keypoints0 d <> [] /\ keypoints1 d <> []
      /\ exists e, gnn d = Some e
           /\ out = mutual_matches (transport self d e)
                                   (match_threshold (sg_config self))).
Proof.
  unfold forward, transport, similarity.
  destruct (keypoints0 d) as [|k0 l0] eqn:E0.
  - simpl. intros H. inversion H. left. auto.
  - destruct (keypoints1 d) as [|k1 l1] eqn:E1.
    + simpl. intros H. inversion H. left. auto.
    + simpl. destruct (gnn d) as [e|]; [|discriminate].
      intros H. inversion H. right.
      split; [discriminate|]. split; [discriminate|]. exists e. auto.
Qed.

(** X14.  Whenever [forward] returns, the two match arrays and the two
    confidence arrays have the lengths of the two keypoint sets, and every
    match is -1 or an index into the other keypoint set. *)
Theorem forward_matches_in_range (self : SuperGlue) (d : data) (out : prediction) :
  forward gnn self d = Some out ->
  length (matches0 out) = length (keypoints0 d)
  /\ length (matches1 out) = length (keypoints1 d)
  /\ length (matching_scores0 out) = length (keypoints0 d)
  /\ length (matching_scores1 out) = length (keypoints1 d)
  /\ Forall (fun j => j = -1 \/ 0 <= j < Z.of_nat (length (keypoints1 d)))%Z
            (matches0 out)
  /\ Forall (fun i => i = -1 \/ 0 <= i < Z.of_nat (length (keypoints0 d)))%Z
            (matches1 out).
Proof.
  intros H. apply forward_cases in H as [[_ ->]|(H0 & H1 & e & He & ->)].
  - cbn [matches0 matches1 matching_scores0 matching_scores1].
    rewrite !repeat_length. repeat split; auto.
    + rewrite Forall_forall. intros j Hj. apply repeat_spec in Hj. now left.
    + rewrite Forall_forall. intros j Hj. apply repeat_spec in Hj. now left.
  - pose proof (rect_transport self d e H0) as Hsc.
    pose proof (nonempty_length _ H0) as Hm.
    pose proof (nonempty_length _ H1) as Hn.
    set (m := length (keypoints0 d)) in *. set (n := length (keypoints1 d)) in *.
    set (sc := transport self d e) in *.
    rewrite (mutual_matches_eq m n sc _ Hsc Hm Hn).
    cbn [matches0 matches1 matching_scores0 matching_scores1].
    rewrite !length_map, !length_seq. repeat split; auto.
    + rewrite Forall_forall. intros j Hj.
      apply in_map_iff in Hj as (i & <- & Hi). apply in_seq in Hi.
      destruct (vld0 sc _ i); [right|now left].
      pose proof (idx0_range m n sc Hsc Hm Hn i). lia.
    + rewrite Forall_forall. intros i Hi.
      apply in_map_iff in Hi as (j & <- & Hj).
      destruct (vld1 sc _ j); [right|now left].
      pose proof (idx1_range m n sc Hsc Hm Hn j). lia.
Qed.

(** X15.  A valid match carries a confidence above [match_threshold], and
    both sides report the same confidence for it: if [matches0[i]] is a
    valid index [j] then [matching_scores0[i]] and [matching_scores1[j]] are
    one number, larger than the threshold. *)
Theorem valid_match_confidence (self : SuperGlue) (d : data) (out : prediction)
        (i : nat) (j : Z) :
  forward gnn self d = Some out ->
  nth_error (matches0 out) i = Some j -> j <> (-1)%Z ->
  exists c,
    nth_error (matching_scores0 out) i = Some c
    /\ nth_error (matching_scores1 out) (Z.to_nat j) = Some c
    /\ match_threshold (sg_config self) < c.
Proof.
  intros H Hij Hj. apply forward_cases in H as [[_ ->]|(H0 & H1 & e & He & ->)].
  - cbn [matches0] in Hij. apply nth_error_In, repeat_spec in Hij. congruence.
  - pose proof (rect_transport self d e H0) as Hsc.
    pose proof (nonempty_length _ H0) as Hm.
    pose proof (nonempty_length _ H1) as Hn.
    set (m := length (keypoints0 d)) in *. set (n := length (keypoints1 d)) in *.
    set (sc := transport self d e) in *.
    set (thr := match_threshold (sg_config self)) in *.
    rewrite (mutual_matches_eq m n sc thr Hsc Hm Hn) in Hij |- *.
    cbn [matches0 matches1 matching_scores0 matching_scores1] in Hij |- *.
    apply nth_error_map_seq in Hij as [Hi Hij].
    destruct (vld0 sc thr i) eqn:Hv; [|congruence]. subst j.
    rewrite Nat2Z.id. exists (msc0 sc i).
    split; [now apply nth_error_map_seq|].
    destruct (valid0_mirrored sc thr i Hv) as [Hv1 Hidx].
    split.
    + apply nth_error_map_seq. split; [apply (idx0_range m n sc Hsc); auto|].
      unfold msc1. unfold vld1 in Hv1. apply andb_true_iff in Hv1 as [-> _].
      now rewrite Hidx.
    + unfold vld0 in Hv. apply andb_true_iff in Hv as [_ Hg].
      unfold gtb in Hg. now destruct (Rlt_dec thr (msc0 sc i)).
Qed.

(** X16.  The valid matches are one-to-one: two different keypoints of the
    first image are never matched to the same keypoint of the second. *)
Theorem matches_one_to_one (self : SuperGlue) (d : data) (out : prediction)
        (i i' : nat) (j : Z) :
  forward gnn self d = Some out ->
  nth_error (matches0 out) i = Some j ->
  nth_error (matches0 out) i' = Some j ->
  j <> (-1)%Z ->
  i = i'.
Proof.
  intros H Hi Hi' Hj. apply forward_cases in H as [[_ ->]|(H0 & H1 & e & He & ->)].
  - cbn [matches0] in Hi. apply nth_error_In, repeat_spec in Hi. congruence.
  - pose proof (rect_transport self d e H0) as Hsc.
    pose proof (nonempty_length _ H0) as Hm.
    pose proof (nonempty_length _ H1) as Hn.
    set (m := length (keypoints0 d)) in *. set (n := length (keypoints1 d)) in *.
    set (sc := transport self d e) in *.
    set (thr := match_threshold (sg_config self)) in *.
    rewrite (mutual_matches_eq m n sc thr Hsc Hm Hn) in Hi, Hi'.
    cbn [matches0] in Hi, Hi'.
    apply nth_error_map_seq in Hi as [_ Hi], Hi' as [_ Hi'].
    destruct (vld0 sc thr i) eqn:Hv; [|congruence].
    destruct (vld0 sc thr i') eqn:Hv'; [|congruence].
    destruct (valid0_mirrored sc thr i Hv) as [_ E].
    destruct (valid0_mirrored sc thr i' Hv') as [_ E'].
    assert (Heq : idx0 sc i = idx0 sc i') by lia.
    rewrite <- E, <- E', Heq. reflexivity.
Qed.

(** X17.  A pair in which either image has no keypoints gets the ranking
    score 0: the fast path of [forward] followed by [ranking_score]. *)
Theorem empty_pair_ranks_zero (self : SuperGlue) (d : data) :
  keypoints0 d = [] \/ keypoints1 d = [] ->
  exists out,
    forward gnn self d = Some out
    /\ ranking_score (matches0 out) (matching_scores0 out) = 0.
Proof.
  intros H. unfold forward.
  assert (E : ((length (keypoints0 d) =? 0)%nat
               || (length (keypoints1 d) =? 0)%nat) = true).
  { destruct H as [-> | ->]; simpl; [reflexivity|apply orb_true_r]. }
  rewrite E. eexists. split; [reflexivity|].
  cbn [matches0 matching_scores0]. apply ranking_score_unmatched.
Qed.
End ForwardMore.

Lemma lenient_forward :
  forward flat_gnn lenient_module flat_data = Some lenient_out.
Proof.
  apply (forward_nonempty flat_gnn lenient_module flat_data flat_embedding);
    try reflexivity; discriminate.
Qed.

(** With the threshold 0.1 the single keypoint of the first image is matched:
    its confidence is 1/6. *)
Lemma lenient_match : Exists (fun j => j <> (-1)%Z) (matches0 lenient_out).
Proof.
  unfold lenient_out.
  change (transport lenient_module flat_data flat_embedding)
    with (transport ranking_module flat_data flat_embedding).
  set (sc := transport ranking_module flat_data flat_embedding).
  assert (Hsc : rect 2 6 sc).
  { apply (rect_transport ranking_module flat_data flat_embedding). discriminate. }
  assert (H1 : (0 < 1)%nat) by lia. assert (H5 : (0 < 5)%nat) by lia.
  rewrite (mutual_matches_eq 1 5 sc _ Hsc H1 H5).
  cbn [matches0 seq map].
  assert (Hmut : mut0 sc 0 = true).
  { unfold mut0. pose proof (idx1_range 1 5 sc Hsc H1 H5 (idx0 sc 0)).
    apply Nat.eqb_eq. lia. }
  assert (Hms : msc0 sc 0 = / 6).
  { unfold msc0. rewrite Hmut.
    rewrite (val0_get 1 5 sc Hsc H1 H5) by lia.
    unfold sc at 1.
    rewrite flat_transport by (try apply (idx0_range 1 5 sc Hsc H1 H5); lia).
    rewrite exp_Ropp, exp_ln by lra. reflexivity. }
  assert (Hv : vld0 sc (match_threshold (sg_config lenient_module)) 0 = true).
  { unfold vld0. rewrite Hmut, Hms. simpl. unfold gtb.
    destruct (Rlt_dec _ _) as [_|Hn]; [reflexivity|]. exfalso. apply Hn. lra. }
  rewrite Hv. apply Exists_cons_hd. lia.
Qed.

Lemma forward_matches_in_range_witness :
  forward flat_gnn lenient_module flat_data = Some lenient_out
  /\ Exists (fun j => j <> (-1)%Z) (matches0 lenient_out)
  /\ length (matches0 lenient_out) = length (keypoints0 flat_data)
  /\ length (matches1 lenient_out) = length (keypoints1 flat_data)
  /\ length (matching_scores0 lenient_out) = length (keypoints0 flat_data)
  /\ length (matching_scores1 lenient_out) = length (keypoints1 flat_data)
  /\ Forall (fun j => j = -1 \/ 0 <= j < Z.of_nat (length (keypoints1 flat_data)))%Z
            (matches0 lenient_out)
  /\ Forall (fun i => i = -1 \/ 0 <= i < Z.of_nat (length (keypoints0 flat_data)))%Z
            (matches1 lenient_out).
Proof.
  split; [exact lenient_forward|]. split; [exact lenient_match|].
  exact (forward_matches_in_range flat_gnn lenient_module flat_data lenient_out
           lenient_forward).
Defined.

Lemma empty_pair_ranks_zero_witness :
  (keypoints0 empty_data = [] \/ keypoints1 empty_data = [])
  /\ exists out,
      forward failing_gnn ranking_module empty_data = Some out
      /\ ranking_score (matches0 out) (matching_scores0 out) = 0.
Proof.
  assert (H : keypoints0 empty_data = [] \/ keypoints1 empty_data = [])
    by (left; reflexivity).
  split; [exact H|].
  exact (empty_pair_ranks_zero failing_gnn ranking_module empty_data H).
Defined.

Lemma single_forward :
  forward flat_gnn ranking_module single_data = Some single_out.
Proof.
  apply (forward_nonempty flat_gnn ranking_module single_data flat_embedding);
    try reflexivity; discriminate.
Qed.

Lemma single_match : nth_error (matches0 single_out) 0 = Some 0%Z.
Proof.
  unfold single_out.
  set (sc := transport ranking_module single_data flat_embedding).
  assert (Hsc : rect 2 2 sc).
  { apply (rect_transport ranking_module single_data flat_embedding). discriminate. }
  assert (H1 : (0 < 1)%nat) by lia.
  rewrite (mutual_matches_eq 1 1 sc _ Hsc H1 H1).
  cbn [matches0 seq map nth_error].
  pose proof (idx0_range 1 1 sc Hsc H1 H1 0 H1) as Hi0.
  pose proof (idx1_range 1 1 sc Hsc H1 H1 (idx0 sc 0)) as Hi1.
  assert (Hmut : mut0 sc 0 = true).
  { unfold mut0. apply Nat.eqb_eq. lia. }
  assert (Hms : msc0 sc 0 = / 2).
  { unfold msc0. rewrite Hmut.
    rewrite (val0_get 1 1 sc Hsc H1 H1) by lia.
    replace (idx0 sc 0) with 0%nat by lia.
    unfold sc, transport.
    assert (Es : similarity ranking_module single_data flat_embedding
                 = tabulate 1 1 (fun _ _ : nat => 1)).
    { unfold similarity. apply tabulate_ext. intros i j.
      unfold flat_embedding, mdesc0, mdesc1. rewrite dot_zero_tail.
      change (descriptor_dim (sg_config ranking_module)) with 256%Z.
      replace (IZR 256) with (16 * 16) by lra.
      rewrite sqrt_square by lra. field. }
    rewrite Es.
    change (bin_score ranking_module) with 1.
    change (sinkhorn_iterations (sg_config ranking_module)) with 20%Z.
    rewrite (transport_flat 1 1 1 20) by lia.
    rewrite exp_Ropp, exp_ln by (simpl; lra).
    replace (INR 1 + INR 1) with 2 by (simpl; lra). reflexivity. }
  assert (Hv : vld0 sc (match_threshold (sg_config ranking_module)) 0 = true).
  { unfold vld0. rewrite Hmut, Hms. simpl. unfold gtb.
    destruct (Rlt_dec _ _) as [_|Hn]; [reflexivity|]. exfalso. apply Hn. lra. }
  rewrite Hv. f_equal; lia.
Qed.

Lemma match_symmetry_witness :
  keypoints0 single_data <> [] /\ keypoints1 single_data <> []
  /\ flat_gnn single_data = Some flat_embedding
  /\ forward flat_gnn ranking_module single_data = Some single_out
  /\ (nth_error (matches0 single_out) 0 = Some 0%Z /\ 0%Z <> (-1)%Z
      /\ nth_error (matches1 single_out) (Z.to_nat 0) = Some (Z.of_nat 0))
  /\ (nth_error (matches1 single_out) 0 = Some 0%Z /\ 0%Z <> (-1)%Z
      /\ nth_error (matches0 single_out) (Z.to_nat 0) = Some (Z.of_nat 0)).
Proof.
  assert (H0 : keypoints0 single_data <> []) by discriminate.
  assert (H1 : keypoints1 single_data <> []) by discriminate.
  assert (He : flat_gnn single_data = Some flat_embedding) by reflexivity.
  assert (Hj : 0%Z <> (-1)%Z) by discriminate.
  destruct (match_symmetry flat_gnn ranking_module single_data flat_embedding
              H0 H1 He) as (out & Hf & H01 & H10).
  assert (E : out = single_out).
  { rewrite single_forward in Hf. now inversion Hf. }
  subst out.
  pose proof (H01 0%nat 0%Z single_match Hj) as Hm1.
  split; [exact H0|]. split; [exact H1|]. split; [exact He|].
  split; [exact Hf|]. split.
  - split; [exact single_match|]. split; [exact Hj|exact Hm1].
  - split; [exact Hm1|]. split; [exact Hj|].
    exact (H10 0%nat 0%Z Hm1 Hj).
Defined.

Lemma valid_match_confidence_witness :
  forward flat_gnn ranking_module single_data = Some single_out
  /\ nth_error (matches0 single_out) 0 = Some 0%Z
  /\ 0%Z <> (-1)%Z
  /\ exists c,
      nth_error (matching_scores0 single_out) 0 = Some c
      /\ nth_error (matching_scores1 single_out) (Z.to_nat 0) = Some c
      /\ match_threshold (sg_config ranking_module) < c.
Proof.
  assert (Hj : 0%Z <> (-1)%Z) by discriminate.
  split; [exact single_forward|]. split; [exact single_match|].
  split; [exact Hj|].
  exact (valid_match_confidence flat_gnn ranking_module single_data single_out
           0 0%Z single_forward single_match Hj).
Defined.

Lemma matches_one_to_one_witness :
  forward flat_gnn ranking_module single_data = Some single_out
  /\ nth_error (matches0 single_out) 0 = Some 0%Z
  /\ 0%Z <> (-1)%Z
  /\ 0%nat = 0%nat.
Proof.
  assert (Hj : 0%Z <> (-1)%Z) by discriminate.
  split; [exact single_forward|]. split; [exact single_match|].
  split; [exact Hj|].
  exact (matches_one_to_one flat_gnn ranking_module single_data single_out
           0 0 0%Z single_forward single_match single_match Hj).
Defined.

(** *** MLP *)

Lemma last_cons_indep {A : Type} (x : A) (l : list A) (d d' : A) :
  last (x :: l) d = last (x :: l) d'.
Proof.
  revert x. induction l as [|y l IH]; intros x; [reflexivity|].
  change (last (y :: l) d = last (y :: l) d'). apply IH.
Qed.

Lemma channels_out_MLP_from (prev : Z) (rest : list Z) (do_bn : bool) :
  channels_out prev (MLP_from prev rest do_bn) = Some (last rest prev).
Proof.
  revert prev. induction rest as [|c t IH]; intros prev; [reflexivity|].
  cbn [MLP_from app channels_out]. rewrite Z.eqb_refl.
  destruct t as [|c' t'].
  - reflexivity.
  - change (last (c :: c' :: t') prev) with (last (c' :: t') prev).
    rewrite (last_cons_indep c' t' prev c), <- (IH c).
    destruct do_bn; cbn [app channels_out]; rewrite ?Z.eqb_refl; reflexivity.
Qed.

Lemma last_MLP_from (prev : Z) (rest : list Z) (do_bn : bool) :
  rest <> [] ->
  exists a, last (MLP_from prev rest do_bn) ReLU = Conv1d a (last rest prev).
Proof.
  revert prev. induction rest as [|c t IH]; intros prev Hne; [congruence|].
  destruct t as [|c' t'].
  - exists prev. reflexivity.
  - destruct (IH c) as [a Ha]; [discriminate|]. exists a.
    change (last (c :: c' :: t') prev) with (last (c' :: t') prev).
    rewrite (last_cons_indep c' t' prev c), <- Ha.
    change (MLP_from prev (c :: c' :: t') do_bn)
      with (Conv1d prev c
            :: ((if do_bn then [BatchNorm1d c] else []) ++ [ReLU])
            ++ MLP_from c (c' :: t') do_bn).
    set (tail := MLP_from c (c' :: t') do_bn).
    assert (Ht : tail <> []) by (unfold tail; simpl; discriminate).
    destruct tail as [|l0 tl]; [congruence|].
    destruct do_bn; reflexivity.
Qed.

(** X18.  The layers that [MLP] builds fit together and span the list of
    channels: fed [channels[0]] channels, every layer receives the number of
    channels it was built for and the stack puts out [channels[-1]]
    channels, with or without batch normalisation. *)
Theorem MLP_channels_chain (c0 : Z) (rest : list Z) (do_bn : bool) :
  channels_out c0 (MLP (c0 :: rest) do_bn) = Some (last (c0 :: rest) c0).
Proof.
  unfold MLP. rewrite channels_out_MLP_from.
  destruct rest as [|c t]; reflexivity.
Qed.

(** X19.  The encoder of [KeypointEncoder] and the [mlp] of
    [AttentionalPropagation] end in a convolution that puts out
    [feature_dim] channels, whatever the list of hidden layers: the
    [encoder[-1].bias] and [mlp[-1].bias] that the constructors initialise
    exist.  The first takes the 3 channels (x, y, score), the second the
    [2 * feature_dim] channels of [x] and the message. *)
Theorem encoders_end_with_conv (feature_dim : Z) (layers : list Z) :
  (channels_out 3 (KeypointEncoder_encoder feature_dim layers) = Some feature_dim
   /\ exists a, last (KeypointEncoder_encoder feature_dim layers) ReLU
                = Conv1d a feature_dim)
  /\ (channels_out (feature_dim * 2) (AttentionalPropagation_mlp feature_dim)
      = Some feature_dim
      /\ last (AttentionalPropagation_mlp feature_dim) ReLU
         = Conv1d (feature_dim * 2) feature_dim).
Proof.
  split.
  - unfold KeypointEncoder_encoder, MLP. cbn [app].
    rewrite channels_out_MLP_from.
    assert (Hl : last (layers ++ [feature_dim]) 3%Z = feature_dim)
      by apply last_last.
    rewrite Hl. split; [reflexivity|].
    destruct (last_MLP_from 3 (layers ++ [feature_dim]) true) as [a Ha].
    { destruct layers; discriminate. }
    exists a. now rewrite Ha, Hl.
  - unfold AttentionalPropagation_mlp, MLP. cbn. rewrite !Z.eqb_refl. auto.
Qed.

(** *** normalize_keypoints *)

(** X20.  For an image shape of four entries with positive height and
    width, [normalize_keypoints] returns one point per keypoint, and every
    keypoint inside the image lands in the square of half-width 5/7 around
    the origin (the larger side of the image is scaled to 1/0.7). *)
Theorem normalize_keypoints_bounded (kpts : list (R * R)) (b c height width : Z) :
  (0 < height)%Z -> (0 < width)%Z ->
  Forall (fun k => 0 <= fst k <= IZR width /\ 0 <= snd k <= IZR height) kpts ->
  exists out,
    normalize_keypoints kpts [b; c; height; width] = Some out
    /\ length out = length kpts
    /\ Forall (fun k => - (5 / 7) <= fst k <= 5 / 7
                        /\ - (5 / 7) <= snd k <= 5 / 7) out.
Proof.
  intros Hh Hw Hk. unfold normalize_keypoints. eexists. split; [reflexivity|].
  split; [apply length_map|].
  apply Forall_map. eapply Forall_impl; [|exact Hk].
  intros [x y]. cbn [fst snd]. intros [Hx Hy].
  apply IZR_lt in Hh, Hw.
  set (w := IZR width) in *. set (h := IZR height) in *.
  set (D := Rmax w h * (7 / 10)).
  pose proof (Rmax_l w h) as Hl. pose proof (Rmax_r w h) as Hr.
  assert (HD : 0 < D) by (unfold D; lra).
  assert (Ex : (x - w / 2) / D * D = x - w / 2) by (field; lra).
  assert (Ey : (y - h / 2) / D * D = y - h / 2) by (field; lra).
  repeat split; apply (Rmult_le_reg_r D); try exact HD;
    rewrite ?Ex, ?Ey; unfold D; lra.
Qed.

Lemma normalize_keypoints_bounded_witness :
  (0 < 1000)%Z /\ (0 < 1000)%Z
  /\ Forall (fun k => 0 <= fst k <= IZR 1000 /\ 0 <= snd k <= IZR 1000)
            (keypoints0 flat_data)
  /\ exists out,
      normalize_keypoints (keypoints0 flat_data) (image0_shape flat_data) = Some out
      /\ length out = length (keypoints0 flat_data)
      /\ Forall (fun k => - (5 / 7) <= fst k <= 5 / 7
                          /\ - (5 / 7) <= snd k <= 5 / 7) out.
Proof.
  assert (H : (0 < 1000)%Z) by lia.
  assert (Hk : Forall (fun k => 0 <= fst k <= IZR 1000 /\ 0 <= snd k <= IZR 1000)
                      (keypoints0 flat_data)).
  { repeat constructor; simpl; lra. }
  split; [exact H|]. split; [exact H|]. split; [exact Hk|].
  exact (normalize_keypoints_bounded (keypoints0 flat_data) 1 1 1000 1000 H H Hk).
Defined.

(** *** AttentionalGNN.forward *)

Section GNNFacts.
Variable tensor : Type.
Variable add : tensor -> tensor -> tensor.

Lemma AttentionalGNN_loop_swap
      (pairs : list ((tensor -> tensor -> tensor) * String.string))
      (desc0 desc1 : tensor) :
  AttentionalGNN_loop tensor add pairs desc1 desc0
  = (snd (AttentionalGNN_loop tensor add pairs desc0 desc1),
     fst (AttentionalGNN_loop tensor add pairs desc0 desc1)).
Proof.
  revert desc0 desc1. induction pairs as [|[layer name] t IH]; intros d0 d1.
  - reflexivity.
  - cbn [AttentionalGNN_loop]. destruct (String.eqb name "cross"); cbn [fst snd];
      apply IH.
Qed.

Lemma AttentionalGNN_loop_self
      (pairs : list ((tensor -> tensor -> tensor) * String.string))
      (desc0 desc1 desc1' : tensor) :
  Forall (fun p => snd p <> "cross"%string) pairs ->
  fst (AttentionalGNN_loop tensor add pairs desc0 desc1)
  = fst (AttentionalGNN_loop tensor add pairs desc0 desc1').
Proof.
  intros H. revert desc0 desc1 desc1'.
  induction H as [|[layer name] t Hn Ht IH]; intros d0 d1 d1'.
  - reflexivity.
  - cbn [AttentionalGNN_loop]. cbn [snd] in Hn.
    destruct (String.eqb_spec name "cross") as [E|_]; [congruence|].
    cbn [fst snd]. apply IH.
Qed.

(** X21.  The attentional network treats the two images alike: run on the
    descriptors in the other order it returns the same two results in the
    other order, whatever the layers and their names. *)
Theorem AttentionalGNN_forward_symmetric
        (layers : list (tensor -> tensor -> tensor))
        (names : list String.string) (desc0 desc1 : tensor) :
  AttentionalGNN_forward tensor add layers names desc1 desc0
  = (snd (AttentionalGNN_forward tensor add layers names desc0 desc1),
     fst (AttentionalGNN_forward tensor add layers names desc0 desc1)).
Proof. unfold AttentionalGNN_forward. apply AttentionalGNN_loop_swap. Qed.

(** X22.  Every layer name other than 'cross' acts as 'self': when no name
    is 'cross' the descriptors of the two images never meet, and the first
    result does not depend on the second image's descriptors. *)
Theorem AttentionalGNN_forward_without_cross
        (layers : list (tensor -> tensor -> tensor))
        (names : list String.string) (desc0 desc1 desc1' : tensor) :
  Forall (fun name => name <> "cross"%string) names ->
  fst (AttentionalGNN_forward tensor add layers names desc0 desc1)
  = fst (AttentionalGNN_forward tensor add layers names desc0 desc1').
Proof.
  intros H. unfold AttentionalGNN_forward. apply AttentionalGNN_loop_self.
  rewrite Forall_forall in *. intros [layer name] Hin. cbn [snd].
  apply H. now apply in_combine_r in Hin.
Qed.
End GNNFacts.

Lemma AttentionalGNN_forward_without_cross_witness :
  Forall (fun name => name <> "cross"%string) ["self"%string; "other"%string]
  /\ fst (AttentionalGNN_forward Z Z.add [Z.mul; Z.mul]
            ["self"%string; "other"%string] 2%Z 3%Z)
     = fst (AttentionalGNN_forward Z Z.add [Z.mul; Z.mul]
              ["self"%string; "other"%string] 2%Z 5%Z).
Proof.
  assert (H : Forall (fun name => name <> "cross"%string)
                     ["self"%string; "other"%string]).
  { repeat constructor; discriminate. }
  split; [exact H|].
  exact (AttentionalGNN_forward_without_cross Z Z.add [Z.mul; Z.mul]
           ["self"%string; "other"%string] 2%Z 3%Z 5%Z H).
Defined.

(** *** arange_like *)

Lemma cumsum_from_ones {A : Type} (acc : Z) (x : list A) :
  cumsum_from acc (map (fun _ => 1%Z) x)
  = map (fun i => (acc + 1 + Z.of_nat i)%Z) (seq 0 (length x)).
Proof.
  revert acc. induction x as [|a x IH]; intros acc; [reflexivity|].
  cbn [map cumsum_from length seq]. f_equal; [lia|].
  rewrite IH, <- seq_shift, map_map. apply map_ext. intros i. lia.
Qed.

(** X23.  [arange_like] returns the indices 0, 1, ..., n - 1 along the
    dimension of length n: the running sum of n ones, less one. *)
Theorem arange_like_indices {A : Type} (x : list A) :
  arange_like x = map Z.of_nat (seq 0 (length x)).
Proof.
  unfold arange_like. rewrite cumsum_from_ones, map_map.
  apply map_ext. intros i. lia.
Qed.

(** *** The ranking table *)

Section RankingFacts.
Variable key : Type.
Local Abbreviation descending :=
  (fun a b : key * R => snd b <= snd a).
Local Abbreviation ascending :=
  (fun a b : key * R => snd a <= snd b).

Lemma insert_by_score_perm (x : key * R) (l : list (key * R)) :
  Permutation (insert_by_score x l) (x :: l).
Proof.
  induction l as [|y t IH]; simpl; [reflexivity|].
  destruct (Rle_dec (snd y) (snd x)); [reflexivity|].
  rewrite IH. apply perm_swap.
Qed.

Lemma insert_by_score_sorted (x : key * R) (l : list (key * R)) :
  StronglySorted descending l -> StronglySorted descending (insert_by_score x l).
Proof.
  induction 1 as [|y t Ht IH Hy]; simpl.
  - repeat constructor.
  - destruct (Rle_dec (snd y) (snd x)) as [Hle|Hgt].
    + constructor; [constructor; assumption|].
      constructor; [exact Hle|].
      rewrite Forall_forall in *. intros z Hz. specialize (Hy z Hz). simpl in Hy. lra.
    + constructor; [exact IH|].
      rewrite Forall_forall in *. intros z Hz.
      apply (Permutation_in _ (insert_by_score_perm x t)) in Hz.
      destruct Hz as [<-|Hz]; [lra|now apply Hy].
Qed.

Lemma ranked_images_perm (score_dict : list (key * R)) :
  Permutation (ranked_images score_dict) score_dict.
Proof.
  induction score_dict as [|x l IH]; simpl; [reflexivity|].
  rewrite insert_by_score_perm. now constructor.
Qed.

Lemma ranked_images_descending (score_dict : list (key * R)) :
  StronglySorted descending (ranked_images score_dict).
Proof.
  induction score_dict as [|x l IH]; simpl; [constructor|].
  now apply insert_by_score_sorted.
Qed.

Lemma sorted_map_mono {A B : Type} (f : A -> B) (P : A -> A -> Prop)
      (Q : B -> B -> Prop) (l : list A) :
  (forall a b, P a b -> Q (f a) (f b)) ->
  StronglySorted P l -> StronglySorted Q (map f l).
Proof.
  intros Hf. induction 1 as [|a l Hl IH Ha]; simpl; constructor; auto.
  apply Forall_map. eapply Forall_impl; [|exact Ha]. intros b. apply Hf.
Qed.

(** X24.  The ranking table holds every scored image exactly once, ordered
    by descending score. *)
Theorem ranked_images_sorted (score_dict : list (key * R)) :
  Permutation (ranked_images score_dict) score_dict
  /\ StronglySorted descending (ranked_images score_dict).
Proof. split; [apply ranked_images_perm|apply ranked_images_descending]. Qed.

(** X25.  With a positive full score the percentages of the table descend
    from row to row, like the scores. *)
Theorem percentage_descending (score_dict : list (key * R)) (full_score : R) :
  0 < full_score ->
  StronglySorted descending (ranked_images_percentage score_dict full_score).
Proof.
  intros Hf. unfold ranked_images_percentage.
  apply (sorted_map_mono _ descending); [|apply ranked_images_descending].
  intros a b Hab. cbn [snd].
  apply Rmult_le_compat_r; [lra|].
  apply Rmult_le_compat_r; [|exact Hab].
  left. now apply Rinv_0_lt_compat.
Qed.

(** X26.  With a negative full score the order of the percentages is
    reversed: the table, still ordered by descending score, shows ascending
    percentages, and the best-scored image carries the smallest one. *)
Theorem percentage_ascending (score_dict : list (key * R)) (full_score : R) :
  full_score < 0 ->
  StronglySorted ascending (ranked_images_percentage score_dict full_score).
Proof.
  intros Hf. unfold ranked_images_percentage.
  apply (sorted_map_mono _ descending); [|apply ranked_images_descending].
  intros a b Hab. cbn [snd].
  apply Rmult_le_compat_r; [lra|].
  unfold Rdiv. rewrite (Rmult_comm (snd a)), (Rmult_comm (snd b)).
  apply Rmult_le_compat_neg_l; [|exact Hab].
  left. now apply Rinv_lt_0_compat.
Qed.

(** X27.  An image whose score equals a non-zero full score, such as the
    query image itself, is listed with 100 percent. *)
Theorem full_score_is_100 (score_dict : list (key * R)) (full_score : R) (k : key) :
  full_score <> 0 ->
  In (k, full_score) score_dict ->
  In (k, 100) (ranked_images_percentage score_dict full_score).
Proof.
  intros Hf Hin. unfold ranked_images_percentage.
  apply in_map_iff. exists (k, full_score). split.
  - cbn [fst snd]. f_equal. field. exact Hf.
  - apply (Permutation_in _ (Permutation_sym (ranked_images_perm score_dict))).
    exact Hin.
Qed.
End RankingFacts.

Lemma percentage_descending_witness :
  0 < 2
  /\ StronglySorted (fun a b : nat * R => snd b <= snd a)
       (ranked_images_percentage [(0%nat, 1); (1%nat, 2)] 2).
Proof.
  assert (H : 0 < 2) by lra.
  split; [exact H|].
  exact (percentage_descending nat [(0%nat, 1); (1%nat, 2)] 2 H).
Defined.

Lemma percentage_ascending_witness :
  - / 6 < 0
  /\ StronglySorted (fun a b : nat * R => snd a <= snd b)
       (ranked_images_percentage [(0%nat, - / 6); (1%nat, - / 3)] (- / 6)).
Proof.
  assert (H : - / 6 < 0) by lra.
  split; [exact H|].
  exact (percentage_ascending nat [(0%nat, - / 6); (1%nat, - / 3)] (- / 6) H).
Defined.

Lemma full_score_is_100_witness :
  2 <> 0
  /\ In (1%nat, 2) [(0%nat, 1); (1%nat, 2)]
  /\ In (1%nat, 100) (ranked_images_percentage [(0%nat, 1); (1%nat, 2)] 2).
Proof.
  assert (H : 2 <> 0) by lra.
  assert (Hin : In (1%nat, 2) [(0%nat, 1); (1%nat, 2)]) by (right; left; reflexivity).
  split; [exact H|]. split; [exact Hin|].
  exact (full_score_is_100 nat [(0%nat, 1); (1%nat, 2)] 2 1%nat H Hin).
Defined.

End MatcherFacts.
